(** * svg-weathermap-placer: gradient resolution, Bezier halving, bend
      control points and multi-stroke offsets

    A shallow embedding of the numeric core of [src/index.ts] and
    [src/geometry.ts].

    Numbers.  A JavaScript [number] is modelled by [number]: either [NaN]
    or a finite value, held as an exact rational.  Arithmetic on finite
    values is exact (no rounding), the infinities and the sign of zero are
    not represented.  [NaN] is kept because the code's control flow depends
    on it: every comparison with [NaN] is false.

    Library functions of the JavaScript runtime that have no rational
    counterpart ([Math.sqrt], [Math.cos], [Math.sin], [Math.atan2]) are
    taken as a parameter, the record [Runtime]. *)

From Stdlib Require Import QArith Qabs Qminmax Qround Lqa ZArith List String Ascii Bool Lia.
From Stdlib Require Import DecimalString.
From Stdlib Require Import Permutation.
From Stdlib Require Import SpecFloat.
Import ListNotations.

Local Open Scope Q_scope.

(** ** JavaScript numbers *)

Inductive number : Type :=
| NaN
| Num (q : Q).

Module Js.

Definition add (a b : number) : number :=
  match a, b with
  | Num p, Num q => Num (p + q)
  | _, _ => NaN
  end.

Definition sub (a b : number) : number :=
  match a, b with
  | Num p, Num q => Num (p - q)
  | _, _ => NaN
  end.

Definition mul (a b : number) : number :=
  match a, b with
  | Num p, Num q => Num (p * q)
  | _, _ => NaN
  end.

(** [a / b].  On a zero divisor JavaScript gives [NaN] for [0 / 0] and an
    infinity otherwise; the model has no infinities and gives [NaN] for
    both. *)
Definition div (a b : number) : number :=
  match a, b with
  | Num p, Num q => if Qeq_bool q 0 then NaN else Num (p / q)
  | _, _ => NaN
  end.

Definition neg (a : number) : number :=
  match a with
  | Num p => Num (- p)
  | NaN => NaN
  end.

(** [a < b], [a <= b], [a > b], [a >= b]: false as soon as one side is
    [NaN]. *)
Definition lt (a b : number) : bool :=
  match a, b with
  | Num p, Num q => negb (Qle_bool q p)
  | _, _ => false
  end.

Definition le (a b : number) : bool :=
  match a, b with
  | Num p, Num q => Qle_bool p q
  | _, _ => false
  end.

Definition gt (a b : number) : bool := lt b a.
Definition ge (a b : number) : bool := le b a.

(** [a === b] on numbers. *)
Definition strict_eq (a b : number) : bool :=
  match a, b with
  | Num p, Num q => Qeq_bool p q
  | _, _ => false
  end.

(** Truthiness of a number: neither zero nor [NaN]. *)
Definition truthy (a : number) : bool :=
  match a with
  | Num p => negb (Qeq_bool p 0)
  | NaN => false
  end.

(** [Math.floor]. *)
Definition floor (a : number) : number :=
  match a with
  | Num p => Num (inject_Z (Qfloor p))
  | NaN => NaN
  end.

(** Decimal rendering of an integer, as a template literal does for an
    integral number below 1e21 in magnitude. *)
Definition showZ (z : Z) : string := NilZero.string_of_int (Z.to_int z).

(** [`${Math.floor(a)}`]. *)
Definition showFloor (a : number) : string :=
  match floor a with
  | Num p => showZ (Qfloor p)
  | NaN => "NaN"
  end.

Definition ofZ (z : Z) : number := Num (inject_Z z).

End Js.

(** Two numbers denote the same value. *)
Definition num_eq (a b : number) : Prop :=
  match a, b with
  | NaN, NaN => True
  | Num p, Num q => p == q
  | _, _ => False
  end.

(** ** geometry.ts *)

Record Point2D : Type := mkPoint { x : number; y : number }.

Definition point_eq (p q : Point2D) : Prop :=
  num_eq (x p) (x q) /\ num_eq (y p) (y q).

Definition two : number := Num 2.

Definition midpoint (point1 point2 : Point2D) : Point2D :=
  {| x := Js.div (Js.add (x point1) (x point2)) two;
     y := Js.div (Js.add (y point1) (y point2)) two |}.

Definition Bezier7 : Type :=
  (Point2D * Point2D * Point2D * Point2D * Point2D * Point2D * Point2D)%type.

(** The general case of [halveCubicBezier], reached with both control
    points present (or substituted). *)
Definition halveGeneral (point1 control1 control2 point2 : Point2D) : Bezier7 :=
  let m1 := midpoint point1 control1 in
  let m2 := midpoint control1 control2 in
  let m3 := midpoint control2 point2 in
  let q1 := midpoint m1 m2 in
  let q2 := midpoint m2 m3 in
  let o := midpoint q1 q2 in
  (point1, m1, q1, o, q2, m3, point2).

Definition halveCubicBezier
    (point1 : Point2D) (control1 control2 : option Point2D) (point2 : Point2D)
  : Bezier7 :=
  match control1, control2 with
  | None, None =>
      let straightMidpoint := midpoint point1 point2 in
      (point1, point1, straightMidpoint, straightMidpoint, straightMidpoint,
       point2, point2)
  | None, Some c2 => halveGeneral point1 point1 c2 point2
  | Some c1, None => halveGeneral point1 c1 point2 point2
  | Some c1, Some c2 => halveGeneral point1 c1 c2 point2
  end.

(** Element [i] of the returned array. *)
Definition elem (i : nat) (t : Bezier7) : option Point2D :=
  let '(a0, a1, a2, a3, a4, a5, a6) := t in
  nth_error [a0; a1; a2; a3; a4; a5; a6] i.

(** ** Strings and number parsing *)

Local Open Scope string_scope.

(** ASCII white space, as skipped by [parseInt] and [parseFloat]. *)
Definition isWhiteSpace (c : ascii) : bool :=
  let n := nat_of_ascii c in
  (Nat.eqb n 9 || Nat.eqb n 10 || Nat.eqb n 11 || Nat.eqb n 12
   || Nat.eqb n 13 || Nat.eqb n 32)%bool.

Fixpoint skipWhiteSpace (s : string) : string :=
  match s with
  | String c rest => if isWhiteSpace c then skipWhiteSpace rest else s
  | EmptyString => s
  end.

Definition hexDigit (c : ascii) : option Z :=
  let n := Z.of_nat (nat_of_ascii c) in
  if ((48 <=? n) && (n <=? 57))%Z then Some (n - 48)%Z
  else if ((97 <=? n) && (n <=? 102))%Z then Some (n - 87)%Z
  else if ((65 <=? n) && (n <=? 70))%Z then Some (n - 55)%Z
  else None.

(** Value of the longest prefix of hexadecimal digits, continuing [acc]. *)
Fixpoint hexDigits (s : string) (acc : Z) : Z :=
  match s with
  | String c rest =>
      match hexDigit c with
      | Some d => hexDigits rest (16 * acc + d)
      | None => acc
      end
  | EmptyString => acc
  end.

(** [Number.parseInt(s, 16)]: leading white space, an optional sign, an
    optional [0x] prefix, then the longest run of hexadecimal digits;
    [NaN] when that run is empty. *)
Definition parseInt16 (s : string) : number :=
  let s1 := skipWhiteSpace s in
  let '(negative, s2) :=
    match s1 with
    | String "-" rest => (true, rest)
    | String "+" rest => (false, rest)
    | _ => (false, s1)
    end in
  let s3 :=
    match s2 with
    | String "0" (String "x" rest) => rest
    | String "0" (String "X" rest) => rest
    | _ => s2
    end in
  match s3 with
  | String c _ =>
      match hexDigit c with
      | Some _ => Js.ofZ (if negative then - hexDigits s3 0 else hexDigits s3 0)
      | None => NaN
      end
  | EmptyString => NaN
  end.

Definition decDigit (c : ascii) : option Z :=
  let n := Z.of_nat (nat_of_ascii c) in
  if ((48 <=? n) && (n <=? 57))%Z then Some (n - 48)%Z else None.

(** Longest prefix of decimal digits: its value continuing [acc], the number
    of digits read continuing [count], and the rest of the string. *)
Fixpoint decDigits (s : string) (acc : Z) (count : nat) : Z * nat * string :=
  match s with
  | String c rest =>
      match decDigit c with
      | Some d => decDigits rest (10 * acc + d) (S count)
      | None => (acc, count, s)
      end
  | EmptyString => (acc, count, s)
  end.

Definition pow10 (e : Z) : Q := Qpower 10 e.

(** The exponent part of a decimal literal: [e] or [E], an optional sign and
    at least one digit; [0] when there is none. *)
Definition parseExponent (s : string) : Z :=
  match s with
  | String c rest =>
      if (Ascii.eqb c "e" || Ascii.eqb c "E")%bool then
        let '(negative, digits) :=
          match rest with
          | String "-" r => (true, r)
          | String "+" r => (false, r)
          | _ => (false, rest)
          end in
        let '(e, n, _) := decDigits digits 0 0 in
        match n with
        | O => 0%Z
        | S _ => if negative then (- e)%Z else e
        end
      else 0%Z
  | EmptyString => 0%Z
  end.

(** [Number.parseFloat(s)] on ASCII input: leading white space, an optional
    sign, and the longest prefix that is a decimal literal (digits, an
    optional fraction, an optional exponent); [NaN] when there is no digit.
    The literal [Infinity] is outside the model. *)
Definition parseFloat (s : string) : number :=
  let s1 := skipWhiteSpace s in
  let '(negative, s2) :=
    match s1 with
    | String "-" rest => (true, rest)
    | String "+" rest => (false, rest)
    | _ => (false, s1)
    end in
  let '(ip, n1, r1) := decDigits s2 0 0 in
  let '(m, n, r2) :=
    match r1 with
    | String "." rest => decDigits rest ip n1
    | _ => (ip, n1, r1)
    end in
  match n with
  | O => NaN
  | S _ =>
      let mantissa := inject_Z m * pow10 (- Z.of_nat (n - n1)) in
      let magnitude := mantissa * pow10 (parseExponent r2) in
      Num (Qred (if negative then - magnitude else magnitude))
  end.

(** [s.split(/[ ,]+/)]: the pieces between maximal runs of spaces and
    commas; a separator at either end leaves an empty piece there. *)
Definition isSeparator (c : ascii) : bool :=
  (Ascii.eqb c " " || Ascii.eqb c ",")%bool.

Fixpoint splitFrom (s : string) (piece : string) (inRun : bool) : list string :=
  match s with
  | EmptyString => [piece]
  | String c rest =>
      if isSeparator c then
        if inRun then splitFrom rest piece true
        else piece :: splitFrom rest "" true
      else splitFrom rest (piece ++ String c "") false
  end.

Definition splitSeparators (s : string) : list string := splitFrom s "" false.

(** ** Gradients (index.ts) *)

Record GradientStop : Type := mkStop {
  position : number;
  strokeColor : string;
  fillColor : string;
  showLegendLabel : bool
}.

(** The two colour keys of a stop, ["strokeColor"] and ["fillColor"]. *)
Inductive ColorType : Type := StrokeColor | FillColor.

(** [stop[colorType]]. *)
Definition stopColor (stop : GradientStop) (colorType : ColorType) : string :=
  match colorType with
  | StrokeColor => strokeColor stop
  | FillColor => fillColor stop
  end.

Record Gradient : Type := mkGradient {
  type : string;
  stops : list GradientStop
}.

Definition emergencyColor : string := "pink".

Definition lerp (value sourceMin sourceMax targetMin targetMax : number) : number :=
  if Js.strict_eq targetMin targetMax then targetMin
  else
    let value := if Js.lt value sourceMin then sourceMin else value in
    let value := if Js.gt value sourceMax then sourceMax else value in
    let terp := Js.div (Js.sub value sourceMin) (Js.sub sourceMax sourceMin) in
    Js.add targetMin (Js.mul terp (Js.sub targetMax targetMin)).

(** [Number.parseInt(`${stop[colorType]}`.substr(start, 2), 16)]. *)
Definition channel (stop : GradientStop) (colorType : ColorType) (start : nat)
  : number :=
  parseInt16 (substring start 2 (stopColor stop colorType)).

(** [`rgb(${Math.floor(r)}, ${Math.floor(g)}, ${Math.floor(b)})`]. *)
Definition rgbString (r g b : number) : string :=
  "rgb(" ++ Js.showFloor r ++ ", " ++ Js.showFloor g ++ ", "
         ++ Js.showFloor b ++ ")".

(** The guard of both bracketing loops. *)
Definition brackets (value : number) (stop next : GradientStop) : bool :=
  (Js.ge value (position stop) && Js.lt value (position next))%bool.

(** The loop of [linearColorForValue] over consecutive stops: the three
    interpolated channels at the first bracketing pair, [None] when
    [foundMatch] stays false. *)
Fixpoint linearLoop (stops : list GradientStop) (colorType : ColorType)
    (value : number) : option (number * number * number) :=
  match stops with
  | stop :: ((next :: _) as rest) =>
      if brackets value stop next then
        let posFrom := position stop in
        let rFrom := channel stop colorType 1 in
        let gFrom := channel stop colorType 3 in
        let bFrom := channel stop colorType 5 in
        let posTo := position next in
        let rTo := channel next colorType 1 in
        let gTo := channel next colorType 3 in
        let bTo := channel next colorType 5 in
        Some (lerp value posFrom posTo rFrom rTo,
              lerp value posFrom posTo gFrom gTo,
              lerp value posFrom posTo bFrom bTo)
      else linearLoop rest colorType value
  | _ => None
  end.

Definition linearColorForValue (stops : list GradientStop)
    (colorType : ColorType) (value : number) : string :=
  match stops with
  | [] => emergencyColor
  | first :: _ =>
      let lastStop := last stops first in
      if Js.lt value (position first) then stopColor first colorType
      else if Js.ge value (position lastStop) then stopColor lastStop colorType
      else
        match linearLoop stops colorType value with
        | Some (r, g, b) => rgbString r g b
        | None => emergencyColor
        end
  end.

(** The loop of [stepColorForValue]: the colour returned from inside the
    loop, [None] when the loop runs to its end. *)
Fixpoint stepLoop (stops : list GradientStop) (colorType : ColorType)
    (value : number) : option string :=
  match stops with
  | stop :: ((next :: _) as rest) =>
      if brackets value stop next then Some (stopColor stop colorType)
      else stepLoop rest colorType value
  | _ => None
  end.

Definition stepColorForValue (stops : list GradientStop)
    (colorType : ColorType) (value : number) : string :=
  match stops with
  | [] => emergencyColor
  | first :: _ =>
      let lastStop := last stops first in
      if Js.lt value (position first) then stopColor first colorType
      else if Js.ge value (position lastStop) then stopColor lastStop colorType
      else
        match stepLoop stops colorType value with
        | Some color => color
        | None => emergencyColor
        end
  end.

Definition gradientColorForValue (gradient : Gradient) (colorType : ColorType)
    (value : number) : string :=
  if String.eqb (type gradient) "linear" then
    linearColorForValue (stops gradient) colorType value
  else if String.eqb (type gradient) "steps" then
    stepColorForValue (stops gradient) colorType value
  else emergencyColor.

(** Which [return] statement of [stepColorForValue] is taken. *)
Inductive StepExit : Type :=
| ExitEmpty
| ExitBelowFirst
| ExitAtOrAboveLast
| ExitBracket
| ExitFallback.

Definition stepExit (stops : list GradientStop) (value : number) : StepExit :=
  match stops with
  | [] => ExitEmpty
  | first :: _ =>
      if Js.lt value (position first) then ExitBelowFirst
      else if Js.ge value (position (last stops first)) then ExitAtOrAboveLast
      else
        match stepLoop stops StrokeColor value with
        | Some _ => ExitBracket
        | None => ExitFallback
        end
  end.

(** Stops sorted ascending by position, stop by stop. *)
Fixpoint sortedByPosition (stops : list GradientStop) : bool :=
  match stops with
  | stop :: ((next :: _) as rest) =>
      (Js.le (position stop) (position next) && sortedByPosition rest)%bool
  | _ => true
  end.

(** *** Division log

    The same computations with every divisor logged, to state that no
    division of the linear resolution is by zero. *)
Module Logged.

Definition lerp (value sourceMin sourceMax targetMin targetMax : number)
  : number * list number :=
  if Js.strict_eq targetMin targetMax then (targetMin, [])
  else
    let value := if Js.lt value sourceMin then sourceMin else value in
    let value := if Js.gt value sourceMax then sourceMax else value in
    let divisor := Js.sub sourceMax sourceMin in
    let terp := Js.div (Js.sub value sourceMin) divisor in
    (Js.add targetMin (Js.mul terp (Js.sub targetMax targetMin)), [divisor]).

Fixpoint linearLoop (stops : list GradientStop) (colorType : ColorType)
    (value : number) : option (number * number * number) * list number :=
  match stops with
  | stop :: ((next :: _) as rest) =>
      if brackets value stop next then
        let posFrom := position stop in
        let posTo := position next in
        let '(r, dr) := lerp value posFrom posTo
                          (channel stop colorType 1) (channel next colorType 1) in
        let '(g, dg) := lerp value posFrom posTo
                          (channel stop colorType 3) (channel next colorType 3) in
        let '(b, db) := lerp value posFrom posTo
                          (channel stop colorType 5) (channel next colorType 5) in
        (Some (r, g, b), (dr ++ dg ++ db)%list)
      else linearLoop rest colorType value
  | _ => (None, [])
  end.

Definition linearColorForValue (stops : list GradientStop)
    (colorType : ColorType) (value : number) : string * list number :=
  match stops with
  | [] => (emergencyColor, [])
  | first :: _ =>
      let lastStop := last stops first in
      if Js.lt value (position first) then (stopColor first colorType, [])
      else if Js.ge value (position lastStop)
           then (stopColor lastStop colorType, [])
      else
        match linearLoop stops colorType value with
        | (Some (r, g, b), divisors) => (rgbString r g b, divisors)
        | (None, divisors) => (emergencyColor, divisors)
        end
  end.

End Logged.

(** ** The sorted gradient (index.ts, renderWeathermapInto) *)

(** One insertion of the sort below: [stop] goes before the first stop
    whose position is not smaller than its own. *)
Fixpoint insertStop (stop : GradientStop) (sorted : list GradientStop)
  : list GradientStop :=
  match sorted with
  | [] => [stop]
  | other :: rest =>
      if Js.lt (position other) (position stop)
      then other :: insertStop stop rest
      else stop :: other :: rest
  end.

(** [stops.slice().sort((l, r) => l.position - r.position)].  The sort is
    a library function; for positions that are numbers the comparator is
    consistent and the stable sort has one result, computed here by
    insertion. *)
Fixpoint sortStops (stops : list GradientStop) : list GradientStop :=
  match stops with
  | [] => []
  | stop :: rest => insertStop stop (sortStops rest)
  end.

(** [sortedGradient], as [renderWeathermapInto] builds it from the
    configured gradient. *)
Definition sortedGradient (gradient : Gradient) : Gradient :=
  {| type := type gradient; stops := sortStops (stops gradient) |}.

(** ** Angles and vectors (geometry.ts) *)

(** The functions of [Math] that the code calls and that have no exact
    rational counterpart. *)
Record Runtime : Type := mkRuntime {
  Math_sqrt : number -> number;
  Math_cos : number -> number;
  Math_sin : number -> number;
  Math_atan2 : number -> number -> number
}.

(** [Math.PI], the double nearest to pi, exactly. *)
Definition piQ : Q := 884279719003555 # 281474976710656.
Definition Math_PI : number := Num piQ.

Definition twoPi : number := Js.mul two Math_PI.

(** [while (angleRadians <= -Math.PI) angleRadians += 2 * Math.PI;]
    [None] when the fuel runs out before the loop ends. *)
Fixpoint raiseAngle (fuel : nat) (angleRadians : number) : option number :=
  match fuel with
  | O => None
  | S fuel' =>
      if Js.le angleRadians (Js.neg Math_PI)
      then raiseAngle fuel' (Js.add angleRadians twoPi)
      else Some angleRadians
  end.

(** [while (angleRadians > Math.PI) angleRadians -= 2 * Math.PI;] *)
Fixpoint lowerAngle (fuel : nat) (angleRadians : number) : option number :=
  match fuel with
  | O => None
  | S fuel' =>
      if Js.gt angleRadians Math_PI
      then lowerAngle fuel' (Js.sub angleRadians twoPi)
      else Some angleRadians
  end.

Definition normalizeAngleFuel (fuel : nat) (angleRadians : number)
  : option number :=
  match raiseAngle fuel angleRadians with
  | Some raised => lowerAngle fuel raised
  | None => None
  end.

(** Fuel that lets both loops of [normalizeAngle] run to their end. *)
Definition angleFuel (angleRadians : number) : nat :=
  match angleRadians with
  | Num q => S (Z.to_nat (Qceiling (Qabs q / (2 * piQ))))
  | NaN => 1
  end.

Definition normalizeAngle (angleRadians : number) : number :=
  match normalizeAngleFuel (angleFuel angleRadians) angleRadians with
  | Some normalized => normalized
  | None => NaN
  end.

Definition polarToCartesian (M : Runtime) (angleRadians length : option number)
  : Point2D :=
  let angleRadians := match angleRadians with Some a => a | None => Num 0 end in
  let length := match length with Some l => l | None => Num 0 end in
  {| x := Js.mul length (Math_cos M angleRadians);
     y := Js.mul length (Math_sin M angleRadians) |}.

Definition unitVector (M : Runtime) (vector : Point2D) : Point2D :=
  let euclidNorm :=
    Math_sqrt M (Js.add (Js.mul (x vector) (x vector))
                        (Js.mul (y vector) (y vector))) in
  {| x := Js.div (x vector) euclidNorm;
     y := Js.div (y vector) euclidNorm |}.

Definition deg2rad (angleDegrees : number) : number :=
  Js.div (Js.mul angleDegrees Math_PI) (Num 180).

Definition rad2deg (angleRadians : number) : number :=
  Js.div (Js.mul angleRadians (Num 180)) Math_PI.

(** The returned array read from its end, and two arrays with the same
    points. *)
Definition reverse7 (t : Bezier7) : Bezier7 :=
  let '(a0, a1, a2, a3, a4, a5, a6) := t in (a6, a5, a4, a3, a2, a1, a0).

Definition bezier7_eq (s t : Bezier7) : Prop :=
  let '(a0, a1, a2, a3, a4, a5, a6) := s in
  let '(b0, b1, b2, b3, b4, b5, b6) := t in
  point_eq a0 b0 /\ point_eq a1 b1 /\ point_eq a2 b2 /\ point_eq a3 b3
  /\ point_eq a4 b4 /\ point_eq a5 b5 /\ point_eq a6 b6.

(** ** Edges (index.ts, placeEdges) *)

Module Node.
Record t : Type := mk {
  label : string;
  x : number;
  y : number;
  width : number;
  height : number
}.
End Node.

Module Edge.
Record t : Type := mk {
  node1 : string;
  node2 : string;
  bendDirection : option number;
  bendMagnitude : option number;
  metricName : option string;
  metric2Name : option string;
  styleName : option string
}.
End Edge.

(** Truthiness of an optional number and of an optional string. *)
Definition truthyNumber (o : option number) : bool :=
  match o with
  | Some n => Js.truthy n
  | None => false
  end.

Definition truthyString (o : option string) : bool :=
  match o with
  | Some s => negb (String.eqb s "")
  | None => false
  end.

(** The anchor of a node, the center of its rectangle.  The code coerces
    each field to a number first ([+node.x]); here the fields are numbers. *)
Definition nodeCenter (node : Node.t) : Point2D :=
  {| x := Js.add (Node.x node) (Js.div (Node.width node) two);
     y := Js.add (Node.y node) (Js.div (Node.height node) two) |}.

(** The bend angle at one end: [normalizeAngle(angle + rotation)]. *)
Definition n1N2BendAngle (M : Runtime) (bendDirection : number)
    (n1Center n2Center : Point2D) : number :=
  let n1N2Angle :=
    Math_atan2 M (Js.sub (y n1Center) (y n2Center))
                 (Js.sub (x n2Center) (x n1Center)) in
  normalizeAngle (Js.add n1N2Angle (deg2rad bendDirection)).

Definition n2N1BendAngle (M : Runtime) (bendDirection : number)
    (n1Center n2Center : Point2D) : number :=
  let n2N1Angle :=
    Math_atan2 M (Js.sub (y n2Center) (y n1Center))
                 (Js.sub (x n1Center) (x n2Center)) in
  normalizeAngle (Js.sub n2N1Angle (deg2rad bendDirection)).

(** The control points [control1], [control2] that [placeEdges] computes
    for an edge between the two centers. *)
Definition bendControls (M : Runtime) (edge : Edge.t)
    (n1Center n2Center : Point2D) : option Point2D * option Point2D :=
  if (truthyNumber (Edge.bendDirection edge)
      && truthyNumber (Edge.bendMagnitude edge))%bool then
    match Edge.bendDirection edge with
    | Some bendDirection =>
        let control1Offset :=
          polarToCartesian M
            (Some (n1N2BendAngle M bendDirection n1Center n2Center))
            (Edge.bendMagnitude edge) in
        let control2Offset :=
          polarToCartesian M
            (Some (n2N1BendAngle M bendDirection n1Center n2Center))
            (Edge.bendMagnitude edge) in
        (Some {| x := Js.add (x n1Center) (x control1Offset);
                 y := Js.sub (y n1Center) (y control1Offset) |},
         Some {| x := Js.add (x n2Center) (x control2Offset);
                 y := Js.sub (y n2Center) (y control2Offset) |})
    | None => (None, None)
    end
  else (None, None).

(** The arguments of one call of [makeAndPlaceEdge]: the Bezier segment,
    the metric that colours it and the name of its style.  The title is
    left out. *)
Record Segment : Type := mkSegment {
  start : Point2D;
  control1 : option Point2D;
  control2 : option Point2D;
  endPoint : Point2D;
  metricName : option string;
  edgeStyleName : option string
}.

(** The body of the loop of [placeEdges] for one edge: the segments handed
    to [makeAndPlaceEdge], none when a node label is unknown. *)
Definition placeEdge (M : Runtime) (nodeLabelToNode : string -> option Node.t)
    (edge : Edge.t) : list Segment :=
  match nodeLabelToNode (Edge.node1 edge), nodeLabelToNode (Edge.node2 edge) with
  | Some node1, Some node2 =>
      let n1Center := nodeCenter node1 in
      let n2Center := nodeCenter node2 in
      let '(control1, control2) := bendControls M edge n1Center n2Center in
      if truthyString (Edge.metric2Name edge) then
        let '(_, point1COut, point2CIn, point2, point2COut, point3CIn, _) :=
          halveCubicBezier n1Center control1 control2 n2Center in
        [ mkSegment n1Center (Some point1COut) (Some point2CIn) point2
            (Edge.metricName edge) (Edge.styleName edge);
          mkSegment point2 (Some point2COut) (Some point3CIn) n2Center
            (Edge.metric2Name edge) (Edge.styleName edge) ]
      else
        [ mkSegment n1Center control1 control2 n2Center (Edge.metricName edge)
            (Edge.styleName edge) ]
  | _, _ => []
  end.

(** ** Multi-stroke offsets (index.ts, makeAndPlaceEdge) *)

Record WeathermapStyle : Type := mkStyle {
  name : string;
  strokeWidthArray : option string;
  dashArray : option string
}.

(** [styleMap] as the constructor of the renderer state fills it: a later
    style of the same name replaces an earlier one. *)
Fixpoint buildStyleMap (weathermapStyles : list WeathermapStyle)
    (styleName : string) : option WeathermapStyle :=
  match weathermapStyles with
  | [] => None
  | style :: rest =>
      match buildStyleMap rest styleName with
      | Some later => Some later
      | None => if String.eqb (name style) styleName then Some style else None
      end
  end.

(** What [makeAndPlaceEdge] reads of the renderer state:
    [state.config.strokeWidth] and [state.styleMap]. *)
Record WeathermapRendererState : Type := mkState {
  configStrokeWidth : number;
  styleMap : string -> option WeathermapStyle
}.

Definition getWeathermapStyle (state : WeathermapRendererState)
    (styleName : option string) : option WeathermapStyle :=
  if truthyString styleName then
    match styleName with
    | Some n => styleMap state n
    | None => None
    end
  else None.

(** The [d] attribute of an emitted path: [M start L end] or
    [M start C control1,control2,end]. *)
Inductive PathData : Type :=
| LinePath (strokeStart strokeEnd : Point2D)
| CurvePath (strokeStart strokeControl1 strokeControl2 strokeEnd : Point2D).

(** One emitted [path] element. *)
Record Stroke : Type := mkStroke {
  d : PathData;
  strokeWidth : number
}.

(** [strokeWidths] before the doubling. *)
Definition parsedStrokeWidths (defaultStrokeWidth : number)
    (edgeStyle : option WeathermapStyle) : list number :=
  match edgeStyle with
  | Some style =>
      match strokeWidthArray style with
      | Some pattern =>
          if String.eqb pattern "" then [defaultStrokeWidth]
          else map parseFloat (splitSeparators pattern)
      | None => [defaultStrokeWidth]
      end
  | None => [defaultStrokeWidth]
  end.

(** [if (strokeWidths.length % 2 !== 1) strokeWidths.push(...strokeWidths)]. *)
Definition doubleIfEven (strokeWidths : list number) : list number :=
  if negb (Nat.eqb (Nat.modulo (List.length strokeWidths) 2) 1)
  then (strokeWidths ++ strokeWidths)%list
  else strokeWidths.

Definition effectiveStrokeWidths (defaultStrokeWidth : number)
    (edgeStyle : option WeathermapStyle) : list number :=
  doubleIfEven (parsedStrokeWidths defaultStrokeWidth edgeStyle).

Definition offsetUnitVectorFor (M : Runtime) (strokeWidths : list number)
    (start endPoint : Point2D) : Point2D :=
  if Nat.ltb 1 (List.length strokeWidths) then
    let direction := {| x := Js.sub (x start) (x endPoint);
                        y := Js.sub (y start) (y endPoint) |} in
    let offsetVector := {| x := y direction; y := Js.neg (x direction) |} in
    unitVector M offsetVector
  else {| x := Num 0; y := Num 0 |}.

(** [strokeWidths.reduce((acc, cur) => acc + cur, 0)]. *)
Definition totalStrokeWidth (strokeWidths : list number) : number :=
  fold_left Js.add strokeWidths (Num 0).

Definition translate (point : Point2D) (xOffset yOffset : number) : Point2D :=
  {| x := Js.add (x point) xOffset; y := Js.add (y point) yOffset |}.

(** The path emitted for one stroke entry, the segment moved along the
    offset unit vector by [centerOffset]. *)
Definition strokeAt (offsetUnitVector : Point2D) (segment : Segment)
    (centerOffset strokeWidth : number) : Stroke :=
  let xOffset := Js.mul (x offsetUnitVector) centerOffset in
  let yOffset := Js.mul (y offsetUnitVector) centerOffset in
  let strokeStart := translate (start segment) xOffset yOffset in
  let strokeEnd := translate (endPoint segment) xOffset yOffset in
  match control1 segment, control2 segment with
  | Some c1, Some c2 =>
      mkStroke (CurvePath strokeStart (translate c1 xOffset yOffset)
                          (translate c2 xOffset yOffset) strokeEnd)
               strokeWidth
  | _, _ => mkStroke (LinePath strokeStart strokeEnd) strokeWidth
  end.

(** The [for (let strokeWidth of strokeWidths)] loop; [isSpacing] and
    [currentOffset] are the loop's two variables on entry. *)
Fixpoint strokeLoop (offsetUnitVector : Point2D) (segment : Segment)
    (strokeWidths : list number) (isSpacing : bool) (currentOffset : number)
  : list Stroke :=
  match strokeWidths with
  | [] => []
  | strokeWidth :: rest =>
      let isSpacing := negb isSpacing in
      if isSpacing then
        strokeLoop offsetUnitVector segment rest isSpacing
                   (Js.add currentOffset strokeWidth)
      else
        strokeAt offsetUnitVector segment
                 (Js.add currentOffset (Js.div strokeWidth two)) strokeWidth
        :: strokeLoop offsetUnitVector segment rest isSpacing
                      (Js.add currentOffset strokeWidth)
  end.

(** [-totalStrokeWidth/2.0], the initial [currentOffset]. *)
Definition initialOffset (strokeWidths : list number) : number :=
  Js.div (Js.neg (totalStrokeWidth strokeWidths)) two.

(** The paths that [makeAndPlaceEdge] appends for one segment. *)
Definition makeAndPlaceEdge (M : Runtime) (state : WeathermapRendererState)
    (segment : Segment) : list Stroke :=
  let edgeStyle := getWeathermapStyle state (edgeStyleName segment) in
  let strokeWidths :=
    effectiveStrokeWidths (configStrokeWidth state) edgeStyle in
  let offsetUnitVector :=
    offsetUnitVectorFor M strokeWidths (start segment) (endPoint segment) in
  strokeLoop offsetUnitVector segment strokeWidths true
             (initialOffset strokeWidths).

(** ** Links (index.ts, maybeWrapIntoLink) *)

(** [s.indexOf(c) !== -1] for a one-character [c]. *)
Fixpoint hasChar (c : ascii) (s : string) : bool :=
  match s with
  | EmptyString => false
  | String c' rest => (Ascii.eqb c' c || hasChar c rest)%bool
  end.

(** The link target: the base, then the object's parameters after a [?],
    or after a [&] when the base has a [?] already. *)
Definition objLinkUri (linkUriBase : string) (objLinkParams : option string)
  : string :=
  match objLinkParams with
  | Some params =>
      (linkUriBase ++ (if hasChar "?" linkUriBase then "&" else "?")) ++ params
  | None => linkUriBase
  end.

(** Where [maybeWrapIntoLink] puts the group of an object: into an [a]
    element with that [href], or into the upper group as it is. *)
Inductive Placement : Type :=
| Linked (href : string)
| Direct.

Definition maybeWrapIntoLink (linkUriBase objLinkParams : option string)
  : Placement :=
  match linkUriBase with
  | Some base => Linked (objLinkUri base objLinkParams)
  | None => Direct
  end.

(** ** Styles of elements (index.ts, modifyStyle) *)

(** [s.split(sep)] for a one-character separator. *)
Fixpoint splitOn (sep : ascii) (s : string) : list string :=
  match s with
  | EmptyString => [EmptyString]
  | String c rest =>
      if Ascii.eqb c sep then EmptyString :: splitOn sep rest
      else
        match splitOn sep rest with
        | piece :: pieces => String c piece :: pieces
        | [] => [String c EmptyString]
        end
  end.

(** For the first index of [sep] in [chunk], [chunk.substr(0, index)] and
    [chunk.substr(index + 1)]; [None] when [indexOf] gives -1. *)
Fixpoint cutAt (sep : ascii) (chunk : string) : option (string * string) :=
  match chunk with
  | EmptyString => None
  | String c rest =>
      if Ascii.eqb c sep then Some (EmptyString, rest)
      else
        match cutAt sep rest with
        | Some (key, value) => Some (String c key, value)
        | None => None
        end
  end.

(** What a call has done when it ends: it returns, or it throws (a
    [TypeError]: a property of [undefined] is read, or a value that is no
    function is called). *)
Inductive Outcome (A : Type) : Type :=
| Returns (result : A)
| Throws.

Arguments Returns {A} result.
Arguments Throws {A}.

(** The own properties of a plain object ([{}]) whose values are strings,
    in the order of their creation. *)
Definition StringMapping : Type := list (string * string).

(** [mapping[key] = value] for a string [value].  An assignment to
    [__proto__] reaches the setter that every plain object inherits, and
    that setter ignores a value that is neither an object nor [null]: no
    property is created. *)
Fixpoint storeKey (key value : string) (mapping : StringMapping) : StringMapping :=
  match mapping with
  | [] => [(key, value)]
  | (k, v) :: rest =>
      if String.eqb k key then (k, value) :: rest
      else (k, v) :: storeKey key value rest
  end.

Definition setKey (key value : string) (mapping : StringMapping) : StringMapping :=
  if String.eqb key "__proto__" then mapping else storeKey key value mapping.

(** [delete mapping[key]]. *)
Fixpoint deleteKey (key : string) (mapping : StringMapping) : StringMapping :=
  match mapping with
  | [] => []
  | (k, v) :: rest =>
      if String.eqb k key then deleteKey key rest
      else (k, v) :: deleteKey key rest
  end.

(** The own property [key] of the mapping, [None] when it has none. *)
Fixpoint getKey (key : string) (mapping : StringMapping) : option string :=
  match mapping with
  | [] => None
  | (k, v) :: rest => if String.eqb k key then Some v else getKey key rest
  end.

(** The value of a string of decimal digits, continuing [acc]; [None]
    when another character occurs. *)
Fixpoint decimalValue (s : string) (acc : N) : option N :=
  match s with
  | EmptyString => Some acc
  | String c rest =>
      match decDigit c with
      | Some d => decimalValue rest (10 * acc + Z.to_N d)%N
      | None => None
      end
  end.

(** The array index that a property key stands for, if any: the key is
    the decimal numeral, without sign or leading zero, of an integer below
    2^32 - 1. *)
Definition arrayIndex (key : string) : option N :=
  match key with
  | EmptyString => None
  | String "0" EmptyString => Some 0%N
  | String "0" _ => None
  | _ =>
      match decimalValue key 0 with
      | Some n => if (n <? 4294967295)%N then Some n else None
      | None => None
      end
  end.

Definition isArrayIndex (entry : string * string) : bool :=
  match arrayIndex (fst entry) with
  | Some _ => true
  | None => false
  end.

Definition indexOfEntry (entry : string * string) : N :=
  match arrayIndex (fst entry) with
  | Some n => n
  | None => 0%N
  end.

(** One insertion into entries in ascending order of their array index. *)
Fixpoint insertEntry (entry : string * string) (sorted : StringMapping)
  : StringMapping :=
  match sorted with
  | [] => [entry]
  | other :: rest =>
      if (indexOfEntry other <? indexOfEntry entry)%N
      then other :: insertEntry entry rest
      else entry :: other :: rest
  end.

Fixpoint sortEntries (entries : StringMapping) : StringMapping :=
  match entries with
  | [] => []
  | entry :: rest => insertEntry entry (sortEntries rest)
  end.

(** The properties in the order in which [for (let key in mapping)] visits
    them: the keys that are array indices first, in ascending numeric
    order, then the other keys in the order of their creation. *)
Definition ownEntries (mapping : StringMapping) : StringMapping :=
  (sortEntries (filter isArrayIndex mapping)
   ++ filter (fun entry => negb (isArrayIndex entry)) mapping)%list.

(** Whether [object.hasOwnProperty(key)] can be called: an own property
    named [hasOwnProperty] hides the inherited method, and when its value
    is a string or [null] the call throws a [TypeError]. *)
Definition hasOwnPropertyHidden (keys : list string) : bool :=
  existsb (String.eqb "hasOwnProperty") keys.

(** The first loop of [modifyStyle]: the [style] attribute taken apart. *)
Definition parseStyle (styleVal : string) : StringMapping :=
  fold_left
    (fun assembledStyle chunk =>
       match cutAt ":" chunk with
       | Some (key, value) => setKey key value assembledStyle
       | None => assembledStyle
       end)
    (splitOn ";" styleVal) [].

(** The body of the second loop for all new values, without the call of
    [hasOwnProperty] that guards it: a [null] value removes its key, any
    other value is set. *)
Definition applyNewValues (newValues : list (string * option string))
    (assembledStyle : StringMapping) : StringMapping :=
  fold_left
    (fun assembled entry =>
       match snd entry with
       | Some value => setKey (fst entry) value assembled
       | None => deleteKey (fst entry) assembled
       end)
    newValues assembledStyle.

(** The body of the third loop for all properties, and the [join(";")]. *)
Definition serializeStyle (assembledStyle : StringMapping) : string :=
  String.concat ";"
    (map (fun entry => fst entry ++ ":" ++ snd entry)
         (ownEntries assembledStyle)).

(** [modifyStyle]: the [style] attribute that it sets, from the attribute
    the element has ([None] when it has none) and the new values, given
    as the properties of [newValues] in the order in which [for ... in]
    visits them, with [None] for the value [null].

    Both [for ... in] loops call [hasOwnProperty] on the object they run
    over.  A property [hasOwnProperty] of [newValues] makes the first call
    of the second loop throw; a property [hasOwnProperty] taken from the
    style attribute makes the first call of the third loop throw. *)
Definition modifyStyle (style : option string)
    (newValues : list (string * option string)) : Outcome string :=
  let assembledStyle :=
    match style with
    | Some styleVal => parseStyle styleVal
    | None => []
    end in
  if hasOwnPropertyHidden (map fst newValues) then Throws
  else
    let assembledStyle := applyNewValues newValues assembledStyle in
    if hasOwnPropertyHidden (map fst assembledStyle) then Throws
    else Returns (serializeStyle assembledStyle).

(** ** The legend (legend.ts) *)

Module LegendSettings.
Record t : Type := mk {
  type : string;
  x : number;
  y : number;
  length : number;
  width : number
}.
End LegendSettings.

Definition legendLength : number := Num 100.
Definition legendWidth : number := Num 5.

(** A [stop] element of a [linearGradient]: its offset in percent and
    its colour. *)
Record SvgStop : Type := mkSvgStop {
  offsetPercent : number;
  svgStopColor : string
}.

(** A [rect] element: position, dimensions and the [fill] of its style. *)
Record Rect : Type := mkRect {
  rectX : number;
  rectY : number;
  rectWidth : number;
  rectHeight : number;
  rectFill : string
}.

(** What [drawLegend] appends: gradient definitions to [defs], each an id
    with its stops, and rectangles to the container. *)
Record Drawing : Type := mkDrawing {
  gradientDefs : list (string * list SvgStop);
  rects : list Rect
}.

Definition colorTypeName (colorType : ColorType) : string :=
  match colorType with
  | StrokeColor => "strokeColor"
  | FillColor => "fillColor"
  end.

Definition legendGradientName (colorType : ColorType)
    (weathermapID : option string) : string :=
  let name := "WeathermapLegendGradient-" ++ colorTypeName colorType in
  match weathermapID with
  | Some id => name ++ "-" ++ id
  | None => name
  end.

(** The loop [for (let i = 1; i < stops.length; ++i)] of the stepped
    legend, over neighbouring stops. *)
Fixpoint stepRects (stops : list GradientStop) (colorType : ColorType)
  : list Rect :=
  match stops with
  | previous :: ((stop :: _) as rest) =>
      mkRect (position previous) (Num 0)
             (Js.sub (position stop) (position previous)) legendWidth
             (stopColor previous colorType)
      :: stepRects rest colorType
  | _ => []
  end.

(** [drawLegend].  A stepped gradient without stops makes it read
    [stops[-1].position] and throw. *)
Definition drawLegend (gradient : Gradient) (colorType : ColorType)
    (weathermapID : option string) : Outcome Drawing :=
  if String.eqb (type gradient) "linear" then
    let legendGradientName := legendGradientName colorType weathermapID in
    Returns
      (mkDrawing
         [(legendGradientName,
           map (fun stop => mkSvgStop (position stop) (stopColor stop colorType))
               (stops gradient))]
         [mkRect (Num 0) (Num 0) legendLength legendWidth
                 ("url(#" ++ legendGradientName ++ ")")])
  else if String.eqb (type gradient) "steps" then
    match stops gradient with
    | [] => Throws
    | first :: _ =>
        let lastStop := last (stops gradient) first in
        Returns
          (mkDrawing []
             (stepRects (stops gradient) colorType
              ++ [mkRect (position lastStop) (Num 0)
                         (Js.sub (Num 100) (position lastStop)) legendWidth
                         (stopColor lastStop colorType)]))
    end
  else Returns (mkDrawing [] []).

(** A [text] element of the legend: position, [dy] in em, the
    [text-anchor] of its style and the number it shows. *)
Record LegendLabel : Type := mkLabel {
  labelX : number;
  labelY : number;
  labelDy : number;
  textAnchor : string;
  labelText : number
}.

(** [settings.type[i] === c]. *)
Definition typeCharIs (settings : LegendSettings.t) (i : nat) (c : ascii) : bool :=
  match String.get i (LegendSettings.type settings) with
  | Some c' => Ascii.eqb c' c
  | None => false
  end.

(** The body of the loop of [placeLabels] for a stop that shows its
    label. *)
Definition legendLabel (settings : LegendSettings.t) (stop : GradientStop)
  : LegendLabel :=
  let scaled :=
    Js.div (Js.mul (position stop) (LegendSettings.length settings))
           legendLength in
  if typeCharIs settings 0 "h" then
    let xCoord := Js.add (LegendSettings.x settings) scaled in
    if String.eqb (LegendSettings.type settings) "hb" then
      mkLabel xCoord
              (Js.add (LegendSettings.y settings)
                      (Js.mul two (LegendSettings.width settings)))
              (Num 1) "middle" (position stop)
    else
      mkLabel xCoord (LegendSettings.y settings) (Num 0) "middle"
              (position stop)
  else if typeCharIs settings 0 "v" then
    let yCoord :=
      Js.add (LegendSettings.y settings)
             (Js.sub (LegendSettings.length settings) scaled) in
    if String.eqb (LegendSettings.type settings) "vl" then
      mkLabel (LegendSettings.x settings) yCoord (Num (2 # 5)) "end"
              (position stop)
    else if String.eqb (LegendSettings.type settings) "vr" then
      mkLabel (Js.add (LegendSettings.x settings)
                      (Js.mul two (LegendSettings.width settings)))
              yCoord (Num (2 # 5)) "start" (position stop)
    else
      mkLabel (LegendSettings.x settings) yCoord (Num (2 # 5)) "start"
              (position stop)
  else
    mkLabel (LegendSettings.x settings) (LegendSettings.y settings) (Num 0)
            "start" (position stop).

(** [placeLabels] of legend.ts. *)
Definition placeLabels (settings : LegendSettings.t) (gradient : Gradient)
  : list LegendLabel :=
  if (String.eqb (LegendSettings.type settings) ""
      || typeCharIs settings 1 "n")%bool
  then []
  else map (legendLabel settings) (filter showLegendLabel (stops gradient)).

(** The [transform] attribute of a legend container: a translation, a
    rotation by -90 degrees or none, and a scale. *)
Record Transform : Type := mkTransform {
  translateX : number;
  translateY : number;
  rotated : bool;
  scaleX : number;
  scaleY : number
}.

(** One of the two groups that [placeLegend] appends; [None] stands for
    an attribute that is not set or set to the empty string. *)
Record LegendGroup : Type := mkLegendGroup {
  groupClass : option string;
  groupTransform : option Transform;
  groupRects : list Rect
}.

Record LegendOutput : Type := mkLegendOutput {
  legendGroups : list LegendGroup;
  legendDefs : list (string * list SvgStop);
  legendLabels : list LegendLabel
}.

Definition legendScale (settings : LegendSettings.t) : number * number :=
  (Js.div (LegendSettings.length settings) legendLength,
   Js.div (LegendSettings.width settings) legendWidth).

Definition strokeLegendTransform (settings : LegendSettings.t)
  : option Transform :=
  let '(sx, sy) := legendScale settings in
  if typeCharIs settings 0 "h" then
    Some (mkTransform (LegendSettings.x settings) (LegendSettings.y settings)
                      false sx sy)
  else if typeCharIs settings 0 "v" then
    Some (mkTransform (LegendSettings.x settings)
                      (Js.add (LegendSettings.y settings)
                              (LegendSettings.length settings))
                      true sx sy)
  else None.

Definition fillLegendTransform (settings : LegendSettings.t)
  : option Transform :=
  let '(sx, sy) := legendScale settings in
  if typeCharIs settings 0 "h" then
    Some (mkTransform (LegendSettings.x settings)
                      (Js.add (LegendSettings.y settings)
                              (LegendSettings.width settings))
                      false sx sy)
  else if typeCharIs settings 0 "v" then
    Some (mkTransform (Js.add (LegendSettings.x settings)
                              (LegendSettings.width settings))
                      (Js.add (LegendSettings.y settings)
                              (LegendSettings.length settings))
                      true sx sy)
  else strokeLegendTransform settings.

(** [placeLegend].  The class of the stroke group is set twice, the
    second time to ["fill-legend"]; the class of the fill group is never
    set. *)
Definition placeLegend (settings : LegendSettings.t) (gradient : Gradient)
    (weathermapID : option string) : Outcome LegendOutput :=
  if String.eqb (LegendSettings.type settings) "" then
    Returns (mkLegendOutput [] [] [])
  else
    match drawLegend gradient StrokeColor weathermapID with
    | Throws => Throws
    | Returns strokeDrawing =>
        match drawLegend gradient FillColor weathermapID with
        | Throws => Throws
        | Returns fillDrawing =>
            Returns
              (mkLegendOutput
                 [ mkLegendGroup (Some "fill-legend")
                                 (strokeLegendTransform settings)
                                 (rects strokeDrawing);
                   mkLegendGroup None (fillLegendTransform settings)
                                 (rects fillDrawing) ]
                 (gradientDefs strokeDrawing ++ gradientDefs fillDrawing)
                 (placeLabels settings gradient))
        end
    end.

(** ** Reference definitions

    What the specification describes in its own words, to compare with
    the code above. *)

(** A colour of the form [#RRGGBB], six hexadecimal digits. *)
Definition isHexDigit (c : ascii) : bool :=
  match hexDigit c with
  | Some _ => true
  | None => false
  end.

Definition isHexColor (s : string) : bool :=
  match s with
  | String "#" (String r1 (String r2 (String g1 (String g2
      (String b1 (String b2 EmptyString)))))) =>
      (isHexDigit r1 && isHexDigit r2 && isHexDigit g1 && isHexDigit g2
       && isHexDigit b1 && isHexDigit b2)%bool
  | _ => false
  end.

Definition hexValue (c : ascii) : Z :=
  match hexDigit c with
  | Some v => v
  | None => 0
  end.

(** The 8-bit integer written by the two hexadecimal digits of [s] at
    [start] and [start + 1]. *)
Definition hexByteAt (s : string) (start : nat) : Z :=
  match String.get start s, String.get (S start) s with
  | Some hi, Some lo => (16 * hexValue hi + hexValue lo)%Z
  | _, _ => 0%Z
  end.

(** The fractional position of [value] within [[from, to)], clamped to
    [[0, 1]]. *)
Definition clampedFraction (value from to : Q) : Q :=
  Qmax 0 (Qmin 1 ((value - from) / (to - from))).

(** One channel, interpolated by that fraction and floored. *)
Definition interpolatedChannel (value from to : Q) (cFrom cTo : Z) : Z :=
  Qfloor (inject_Z cFrom
          + clampedFraction value from to * (inject_Z cTo - inject_Z cFrom)).

Definition interpolatedColor (value from to : Q) (cFrom cTo : string) : string :=
  "rgb(" ++ Js.showZ (interpolatedChannel value from to
                        (hexByteAt cFrom 1) (hexByteAt cTo 1))
  ++ ", " ++ Js.showZ (interpolatedChannel value from to
                         (hexByteAt cFrom 3) (hexByteAt cTo 3))
  ++ ", " ++ Js.showZ (interpolatedChannel value from to
                         (hexByteAt cFrom 5) (hexByteAt cTo 5))
  ++ ")".

(** A point with both coordinates finite. *)
Definition finitePoint (p : Point2D) : Prop :=
  (exists a, x p = Num a) /\ (exists b, y p = Num b).

(** The point at parameter [t] of the cubic Bezier curve with the given
    end points and control points. *)
Definition cubicBezierAt (t : Q) (p1 c1 c2 p2 : Point2D) : Point2D :=
  let s := Num (1 - t) in
  let t := Num t in
  let blend (a b c d : number) : number :=
    Js.add (Js.add (Js.add (Js.mul (Js.mul (Js.mul s s) s) a)
                           (Js.mul (Js.mul (Js.mul (Num 3) (Js.mul s s)) t) b))
                   (Js.mul (Js.mul (Js.mul (Num 3) s) (Js.mul t t)) c))
           (Js.mul (Js.mul (Js.mul t t) t) d) in
  {| x := blend (x p1) (x c1) (x c2) (x p2);
     y := blend (y p1) (y c1) (y c2) (y p2) |}.

(** The entries of a width pattern at even indices, its strokes; the
    entries at odd indices are its gaps. *)
Fixpoint strokeEntries (strokeWidths : list number) : list number :=
  match strokeWidths with
  | [] => []
  | stroke :: rest =>
      stroke :: match rest with
                | [] => []
                | _ :: rest' => strokeEntries rest'
                end
  end.

(** [true] when entry [i] of a pattern is a gap: the value of [isSpacing]
    in iteration [i] of the stroke loop. *)
Definition isGapIndex (i : nat) : bool := Nat.odd i.


(** [currentOffset] after the loop has gone through [done]. *)
Definition offsetAfter (initial : number) (done : list number) : number :=
  fold_left Js.add done initial.

(** The sum of a list of rationals. *)
Definition sumQ (widths : list Q) : Q := fold_right Qplus 0 widths.



(** The points of a path, in the order of its [d] attribute. *)
Definition pathPoints (path : PathData) : list Point2D :=
  match path with
  | LinePath strokeStart strokeEnd => [strokeStart; strokeEnd]
  | CurvePath strokeStart strokeControl1 strokeControl2 strokeEnd =>
      [strokeStart; strokeControl1; strokeControl2; strokeEnd]
  end.

(** No character of [s] is a space or a comma. *)
Definition separatorFree (s : string) : Prop :=
  forall i c, String.get i s = Some c -> isSeparator c = false.




(** What the new values say about a key: the last entry for it wins;
    [None] when they do not mention it. *)
Fixpoint newValueFor (key : string) (newValues : list (string * option string))
  : option (option string) :=
  match newValues with
  | [] => None
  | entry :: rest =>
      match newValueFor key rest with
      | Some later => Some later
      | None => if String.eqb (fst entry) key then Some (snd entry) else None
      end
  end.

(** The mapping that [modifyStyle] starts from. *)
Definition styleOfAttribute (style : option string) : StringMapping :=
  match style with
  | Some styleVal => parseStyle styleVal
  | None => []
  end.

(** Rectangles that lie side by side along the legend: each begins where
    the one before it ends, from [from] up to [to]. *)
Fixpoint tiles (from : number) (rects : list Rect) (to : number) : Prop :=
  match rects with
  | [] => num_eq from to
  | rect :: rest =>
      num_eq (rectX rect) from
      /\ tiles (Js.add (rectX rect) (rectWidth rect)) rest to
  end.


(** ** The same code over doubles

    Where a result depends on how the arithmetic rounds, the code is
    embedded a second time, over the doubles themselves: the binary64
    numbers of IEEE 754 as the standard library specifies them
    ([SpecFloat], precision 53, largest exponent 1024), with the
    infinities, both zeros and [NaN], every operation rounded to the
    nearest number, ties to even.  The definitions are those above with
    the arithmetic replaced; a loop that may never end takes fuel and
    returns [None] when the fuel does not suffice. *)
Module Double.

Definition number : Type := spec_float.

Definition prec : Z := 53.
Definition emax : Z := 1024.

(** The numbers that are doubles: the mantissa of a finite number is
    normalized.  Every operation below returns such a number. *)
Definition valid (a : number) : bool := valid_binary prec emax a.

Definition NaN : number := S754_nan.
Definition add (a b : number) : number := SFadd prec emax a b.
Definition sub (a b : number) : number := SFsub prec emax a b.
Definition mul (a b : number) : number := SFmul prec emax a b.
Definition div (a b : number) : number := SFdiv prec emax a b.
Definition lt (a b : number) : bool := SFltb a b.
Definition le (a b : number) : bool := SFleb a b.
Definition gt (a b : number) : bool := lt b a.
Definition ge (a b : number) : bool := le b a.
Definition strict_eq (a b : number) : bool := SFeqb a b.

(** Truthiness of a number: neither a zero nor [NaN]. *)
Definition truthy (a : number) : bool :=
  match a with
  | S754_zero _ | S754_nan => false
  | _ => true
  end.

(** A zero or a finite number that is not zero: neither an infinity nor
    [NaN]. *)
Definition finite (a : number) : bool :=
  match a with
  | S754_zero _ | S754_finite _ _ _ => true
  | _ => false
  end.

(** The double nearest to an integer. *)
Definition ofZ (z : Z) : number := binary_normalize prec emax z 0 false.

(** [Math.floor] of the finite number with this sign, mantissa and
    exponent, as an integer. *)
Definition floorZ (s : bool) (m : positive) (e : Z) : Z :=
  let signed := if s then Zneg m else Zpos m in
  match e with
  | Zneg shift => Z.shiftr signed (Zpos shift)
  | _ => Z.shiftl signed e
  end.

(** [`${Math.floor(a)}`]; the digits of a finite result are those of the
    integer, as a template literal writes them below 1e21 in magnitude. *)
Definition showFloor (a : number) : string :=
  match a with
  | S754_nan => "NaN"
  | S754_infinity false => "Infinity"
  | S754_infinity true => "-Infinity"
  | S754_zero _ => "0"
  | S754_finite s m e => Js.showZ (floorZ s m e)
  end.

(** [Number.parseInt(s, 16)], see [parseInt16] above. *)
Definition parseInt16 (s : string) : number :=
  let s1 := skipWhiteSpace s in
  let '(negative, s2) :=
    match s1 with
    | String "-" rest => (true, rest)
    | String "+" rest => (false, rest)
    | _ => (false, s1)
    end in
  let s3 :=
    match s2 with
    | String "0" (String "x" rest) => rest
    | String "0" (String "X" rest) => rest
    | _ => s2
    end in
  match s3 with
  | String c _ =>
      match hexDigit c with
      | Some _ =>
          let magnitude := hexDigits s3 0 in
          if negative then
            if (magnitude =? 0)%Z then S754_zero true else ofZ (- magnitude)
          else ofZ magnitude
      | None => NaN
      end
  | EmptyString => NaN
  end.

(** *** Gradients *)

Record GradientStop : Type := mkStop {
  position : number;
  strokeColor : string;
  fillColor : string;
  showLegendLabel : bool
}.

Definition stopColor (stop : GradientStop) (colorType : ColorType) : string :=
  match colorType with
  | StrokeColor => strokeColor stop
  | FillColor => fillColor stop
  end.

Record Gradient : Type := mkGradient {
  type : string;
  stops : list GradientStop
}.

Definition lerp (value sourceMin sourceMax targetMin targetMax : number) : number :=
  if strict_eq targetMin targetMax then targetMin
  else
    let value := if lt value sourceMin then sourceMin else value in
    let value := if gt value sourceMax then sourceMax else value in
    let terp := div (sub value sourceMin) (sub sourceMax sourceMin) in
    add targetMin (mul terp (sub targetMax targetMin)).

Definition channel (stop : GradientStop) (colorType : ColorType) (start : nat)
  : number :=
  parseInt16 (substring start 2 (stopColor stop colorType)).

Definition rgbString (r g b : number) : string :=
  "rgb(" ++ showFloor r ++ ", " ++ showFloor g ++ ", " ++ showFloor b ++ ")".

Definition brackets (value : number) (stop next : GradientStop) : bool :=
  (ge value (position stop) && lt value (position next))%bool.

Fixpoint linearLoop (stops : list GradientStop) (colorType : ColorType)
    (value : number) : option (number * number * number) :=
  match stops with
  | stop :: ((next :: _) as rest) =>
      if brackets value stop next then
        let posFrom := position stop in
        let rFrom := channel stop colorType 1 in
        let gFrom := channel stop colorType 3 in
        let bFrom := channel stop colorType 5 in
        let posTo := position next in
        let rTo := channel next colorType 1 in
        let gTo := channel next colorType 3 in
        let bTo := channel next colorType 5 in
        Some (lerp value posFrom posTo rFrom rTo,
              lerp value posFrom posTo gFrom gTo,
              lerp value posFrom posTo bFrom bTo)
      else linearLoop rest colorType value
  | _ => None
  end.

Definition linearColorForValue (stops : list GradientStop)
    (colorType : ColorType) (value : number) : string :=
  match stops with
  | [] => emergencyColor
  | first :: _ =>
      let lastStop := last stops first in
      if lt value (position first) then stopColor first colorType
      else if ge value (position lastStop) then stopColor lastStop colorType
      else
        match linearLoop stops colorType value with
        | Some (r, g, b) => rgbString r g b
        | None => emergencyColor
        end
  end.

Fixpoint stepLoop (stops : list GradientStop) (colorType : ColorType)
    (value : number) : option string :=
  match stops with
  | stop :: ((next :: _) as rest) =>
      if brackets value stop next then Some (stopColor stop colorType)
      else stepLoop rest colorType value
  | _ => None
  end.

Definition stepColorForValue (stops : list GradientStop)
    (colorType : ColorType) (value : number) : string :=
  match stops with
  | [] => emergencyColor
  | first :: _ =>
      let lastStop := last stops first in
      if lt value (position first) then stopColor first colorType
      else if ge value (position lastStop) then stopColor lastStop colorType
      else
        match stepLoop stops colorType value with
        | Some color => color
        | None => emergencyColor
        end
  end.

Definition gradientColorForValue (gradient : Gradient) (colorType : ColorType)
    (value : number) : string :=
  if String.eqb (type gradient) "linear" then
    linearColorForValue (stops gradient) colorType value
  else if String.eqb (type gradient) "steps" then
    stepColorForValue (stops gradient) colorType value
  else emergencyColor.

(** Stops sorted ascending by position, stop by stop. *)
Fixpoint sortedByPosition (stops : list GradientStop) : bool :=
  match stops with
  | stop :: ((next :: _) as rest) =>
      (le (position stop) (position next) && sortedByPosition rest)%bool
  | _ => true
  end.

(** One channel as the specification describes it, in double arithmetic:
    the low channel plus the fraction of the value within the two
    positions times the difference of the channels; two equal channels
    give that channel. *)
Definition interpolatedChannel (value from to : number) (cFrom cTo : Z)
  : number :=
  if (cFrom =? cTo)%Z then ofZ cFrom
  else
    let fraction := div (sub value from) (sub to from) in
    add (ofZ cFrom) (mul fraction (sub (ofZ cTo) (ofZ cFrom))).

Definition interpolatedColor (value from to : number) (cFrom cTo : string)
  : string :=
  "rgb(" ++ showFloor (interpolatedChannel value from to
                         (hexByteAt cFrom 1) (hexByteAt cTo 1))
  ++ ", " ++ showFloor (interpolatedChannel value from to
                          (hexByteAt cFrom 3) (hexByteAt cTo 3))
  ++ ", " ++ showFloor (interpolatedChannel value from to
                          (hexByteAt cFrom 5) (hexByteAt cTo 5))
  ++ ")".

(** *** Angles and points *)

Record Point2D : Type := mkPoint { x : number; y : number }.

Definition two : number := ofZ 2.

Definition midpoint (point1 point2 : Point2D) : Point2D :=
  {| x := div (add (x point1) (x point2)) two;
     y := div (add (y point1) (y point2)) two |}.

Definition Bezier7 : Type :=
  (Point2D * Point2D * Point2D * Point2D * Point2D * Point2D * Point2D)%type.

Definition halveGeneral (point1 control1 control2 point2 : Point2D) : Bezier7 :=
  let m1 := midpoint point1 control1 in
  let m2 := midpoint control1 control2 in
  let m3 := midpoint control2 point2 in
  let q1 := midpoint m1 m2 in
  let q2 := midpoint m2 m3 in
  let o := midpoint q1 q2 in
  (point1, m1, q1, o, q2, m3, point2).

Definition halveCubicBezier
    (point1 : Point2D) (control1 control2 : option Point2D) (point2 : Point2D)
  : Bezier7 :=
  match control1, control2 with
  | None, None =>
      let straightMidpoint := midpoint point1 point2 in
      (point1, point1, straightMidpoint, straightMidpoint, straightMidpoint,
       point2, point2)
  | None, Some c2 => halveGeneral point1 point1 c2 point2
  | Some c1, None => halveGeneral point1 c1 point2 point2
  | Some c1, Some c2 => halveGeneral point1 c1 c2 point2
  end.

(** [Math.PI]: 7074237752028440 * 2^-51. *)
Definition Math_PI : number := S754_finite false 7074237752028440 (-51).

(** [2 * Math.PI]. *)
Definition twoPi : number := mul two Math_PI.

(** [while (angleRadians <= -Math.PI) angleRadians += 2 * Math.PI;]
    [None] when the loop has not ended after [fuel] tests of its
    condition. *)
Fixpoint raiseAngle (fuel : nat) (angleRadians : number) : option number :=
  match fuel with
  | O => None
  | S fuel' =>
      if le angleRadians (SFopp Math_PI)
      then raiseAngle fuel' (add angleRadians twoPi)
      else Some angleRadians
  end.

(** [while (angleRadians > Math.PI) angleRadians -= 2 * Math.PI;] *)
Fixpoint lowerAngle (fuel : nat) (angleRadians : number) : option number :=
  match fuel with
  | O => None
  | S fuel' =>
      if gt angleRadians Math_PI
      then lowerAngle fuel' (sub angleRadians twoPi)
      else Some angleRadians
  end.

(** [normalizeAngle]: what it returns, if each of its loops ends within
    [fuel] tests. *)
Definition normalizeAngle (fuel : nat) (angleRadians : number)
  : option number :=
  match raiseAngle fuel angleRadians with
  | Some raised => lowerAngle fuel raised
  | None => None
  end.

(** The value of a zero or of a finite number in units of [2 ^ -104]: an
    integer when the exponent is at least -104. *)
Definition scaled (a : number) : Z :=
  match a with
  | S754_finite s m e => cond_Zopp s (Zpos m * 2 ^ (e + 104))
  | _ => 0%Z
  end.

(** A zero, or a number with a mantissa of 53 digits and an exponent
    between -104 and 971: the doubles that are zero or at least
    [2 ^ -52] in size. *)
Definition inScale (a : number) : bool :=
  match a with
  | S754_zero _ => true
  | S754_finite _ m e =>
      ((Zpos (digits2_pos m) =? 53) && (-104 <=? e) && (e <=? 971))%Z%bool
  | _ => false
  end.

(** [4 * Math.PI]. *)
Definition fourPi : number := mul (ofZ 4) Math_PI.

(** [Math.cos], [Math.sin] and [Math.atan2], which the language leaves to
    the implementation. *)
Record Runtime : Type := mkRuntime {
  Math_cos : number -> number;
  Math_sin : number -> number;
  Math_atan2 : number -> number -> number
}.

Definition polarToCartesian (M : Runtime) (angleRadians length : option number)
  : Point2D :=
  let angleRadians :=
    match angleRadians with Some a => a | None => S754_zero false end in
  let length := match length with Some l => l | None => S754_zero false end in
  {| x := mul length (Math_cos M angleRadians);
     y := mul length (Math_sin M angleRadians) |}.

Definition deg2rad (angleDegrees : number) : number :=
  div (mul angleDegrees Math_PI) (ofZ 180).

(** *** Edges *)

Module Node.
Record t : Type := mk {
  label : string;
  x : number;
  y : number;
  width : number;
  height : number
}.
End Node.

Module Edge.
Record t : Type := mk {
  node1 : string;
  node2 : string;
  bendDirection : option number;
  bendMagnitude : option number;
  metricName : option string;
  metric2Name : option string;
  styleName : option string
}.
End Edge.

Definition truthyNumber (o : option number) : bool :=
  match o with
  | Some n => truthy n
  | None => false
  end.

Definition nodeCenter (node : Node.t) : Point2D :=
  {| x := add (Node.x node) (div (Node.width node) two);
     y := add (Node.y node) (div (Node.height node) two) |}.

(** The two angles that [placeEdges] hands to [normalizeAngle]. *)
Definition n1N2Rotated (M : Runtime) (bendDirection : number)
    (n1Center n2Center : Point2D) : number :=
  add (Math_atan2 M (sub (y n1Center) (y n2Center))
                    (sub (x n2Center) (x n1Center)))
      (deg2rad bendDirection).

Definition n2N1Rotated (M : Runtime) (bendDirection : number)
    (n1Center n2Center : Point2D) : number :=
  sub (Math_atan2 M (sub (y n2Center) (y n1Center))
                    (sub (x n1Center) (x n2Center)))
      (deg2rad bendDirection).

(** The control point at a center for a bend angle and a magnitude. *)
Definition bendControl (M : Runtime) (center : Point2D)
    (bendAngle : number) (bendMagnitude : option number) : Point2D :=
  let offset := polarToCartesian M (Some bendAngle) bendMagnitude in
  {| x := add (x center) (x offset); y := sub (y center) (y offset) |}.

(** The control points [control1], [control2] that [placeEdges] computes
    for an edge between the two centers; [None] when a call of
    [normalizeAngle] has not returned within the fuel. *)
Definition bendControls (M : Runtime) (fuel : nat) (edge : Edge.t)
    (n1Center n2Center : Point2D)
  : option (option Point2D * option Point2D) :=
  if (truthyNumber (Edge.bendDirection edge)
      && truthyNumber (Edge.bendMagnitude edge))%bool then
    match Edge.bendDirection edge with
    | Some bendDirection =>
        match normalizeAngle fuel
                (n1N2Rotated M bendDirection n1Center n2Center) with
        | Some n1N2BendAngle =>
            match normalizeAngle fuel
                    (n2N1Rotated M bendDirection n1Center n2Center) with
            | Some n2N1BendAngle =>
                Some (Some (bendControl M n1Center n1N2BendAngle
                                        (Edge.bendMagnitude edge)),
                      Some (bendControl M n2Center n2N1BendAngle
                                        (Edge.bendMagnitude edge)))
            | None => None
            end
        | None => None
        end
    | None => Some (None, None)
    end
  else Some (None, None).

Record Segment : Type := mkSegment {
  start : Point2D;
  control1 : option Point2D;
  control2 : option Point2D;
  endPoint : Point2D;
  metricName : option string;
  edgeStyleName : option string
}.

(** The body of the loop of [placeEdges] for one edge: the segments handed
    to [makeAndPlaceEdge], none when a node label is unknown; [None] when
    the body has not ended within the fuel. *)
Definition placeEdge (M : Runtime) (fuel : nat)
    (nodeLabelToNode : string -> option Node.t) (edge : Edge.t)
  : option (list Segment) :=
  match nodeLabelToNode (Edge.node1 edge), nodeLabelToNode (Edge.node2 edge) with
  | Some node1, Some node2 =>
      let n1Center := nodeCenter node1 in
      let n2Center := nodeCenter node2 in
      match bendControls M fuel edge n1Center n2Center with
      | Some (control1, control2) =>
          if truthyString (Edge.metric2Name edge) then
            let '(_, point1COut, point2CIn, point2, point2COut, point3CIn, _) :=
              halveCubicBezier n1Center control1 control2 n2Center in
            Some [ mkSegment n1Center (Some point1COut) (Some point2CIn) point2
                     (Edge.metricName edge) (Edge.styleName edge);
                   mkSegment point2 (Some point2COut) (Some point3CIn) n2Center
                     (Edge.metric2Name edge) (Edge.styleName edge) ]
          else
            Some [ mkSegment n1Center control1 control2 n2Center
                     (Edge.metricName edge) (Edge.styleName edge) ]
      | None => None
      end
  | _, _ => Some []
  end.

(** *** Stand-ins and examples *)

(** Computable stand-ins for the functions of [Math]; the properties
    below hold for every runtime. *)
Definition coarseCos (a : number) : number :=
  sub (ofZ 1) (div (mul a a) two).

Definition coarseSin (a : number) : number := a.

Definition coarseAtan2 (b a : number) : number :=
  if lt (S754_zero false) a then div b a
  else if lt a (S754_zero false) then
    if lt b (S754_zero false) then sub (div b a) Math_PI
    else add (div b a) Math_PI
  else if lt (S754_zero false) b then div Math_PI two
  else if lt b (S754_zero false) then SFopp (div Math_PI two)
  else S754_zero false.

Definition coarseMath : Runtime := mkRuntime coarseCos coarseSin coarseAtan2.

Definition blackToWhite : list GradientStop :=
  [ mkStop (ofZ 0) "#000000" "#000000" true;
    mkStop (ofZ 100) "#ffffff" "#ffffff" true ].

Definition blackToGray : list GradientStop :=
  [ mkStop (ofZ 0) "#000000" "#000000" true;
    mkStop (ofZ 100) "#c8c8c8" "#c8c8c8" true ].

Definition nodeA : Node.t := Node.mk "A" (ofZ 0) (ofZ 0) (ofZ 20) (ofZ 10).
Definition nodeB : Node.t := Node.mk "B" (ofZ 100) (ofZ 0) (ofZ 20) (ofZ 10).

Definition scenarioNodes (label : string) : option Node.t :=
  if String.eqb label "A" then Some nodeA
  else if String.eqb label "B" then Some nodeB
  else None.

(** An edge from A to B with the given bend direction, in degrees, and
    the bend magnitude 10. *)
Definition bentEdge (bendDirection : number) : Edge.t :=
  Edge.mk "A" "B" (Some bendDirection) (Some (ofZ 10)) (Some "cpu") None None.

End Double.

(** ** A computable instance of the runtime

    Coarse rational stand-ins for the four [Math] functions, good enough to
    run the definitions on examples. *)

Definition coarseSqrt (a : number) : number :=
  match a with
  | Num (n # d) =>
      if (n <? 0)%Z then NaN
      else Num (Qred (Z.sqrt (n * Zpos d * 10 ^ 12) # (d * 10 ^ 6)))
  | NaN => NaN
  end.

Definition coarseCos (a : number) : number :=
  match a with
  | Num t =>
      let t2 := t * t in
      Num (Qred (1 - t2 / 2 * (1 - t2 / 12 * (1 - t2 / 30 * (1 - t2 / 56)))))
  | NaN => NaN
  end.

Definition coarseSin (a : number) : number :=
  match a with
  | Num t =>
      let t2 := t * t in
      Num (Qred (t * (1 - t2 / 6 * (1 - t2 / 20 * (1 - t2 / 42 * (1 - t2 / 72))))))
  | NaN => NaN
  end.

Definition coarseAtan (t : Q) : Q := t / (1 + (28 # 100) * t * t).

Definition coarseAtan2 (b a : number) : number :=
  match b, a with
  | Num v, Num u =>
      let half := piQ / 2 in
      Num (Qred
        (if Qeq_bool u 0 then
           if Qeq_bool v 0 then 0
           else if Qle_bool 0 v then half else - half
         else if Qle_bool (Qabs v) (Qabs u) then
           if Qle_bool 0 u then coarseAtan (v / u)
           else if Qle_bool 0 v then coarseAtan (v / u) + piQ
           else coarseAtan (v / u) - piQ
         else
           if Qle_bool 0 v then half - coarseAtan (u / v)
           else - half - coarseAtan (u / v)))
  | _, _ => NaN
  end.

Definition coarseMath : Runtime :=
  mkRuntime coarseSqrt coarseCos coarseSin coarseAtan2.

(** No two neighbouring stops bracket the value: the bracketing loops find
    nothing. *)
Definition noBracketingPair (stops : list GradientStop) (value : number) : Prop :=
  forall i stop next,
    nth_error stops i = Some stop ->
    nth_error stops (S i) = Some next ->
    brackets value stop next = false.

Definition isNumber (a : number) : bool :=
  match a with
  | Num _ => true
  | NaN => false
  end.

(** Every stop position is a number, none is [NaN]. *)
Definition numericPositions (stops : list GradientStop) : bool :=
  forallb (fun stop => isNumber (position stop)) stops.

(** ** Example inputs *)

Definition blackToWhite : list GradientStop :=
  [ mkStop (Num 0) "#000000" "#000000" true;
    mkStop (Num 100) "#ffffff" "#ffffff" true ].

Definition redThenGreen : list GradientStop :=
  [ mkStop (Num 0) "#ff0000" "#ff0000" true;
    mkStop (Num 50) "#00ff00" "#00ff00" true ].

Definition origin : Point2D := mkPoint (Num 0) (Num 0).
Definition tenRight : Point2D := mkPoint (Num 10) (Num 0).

(** The edge of the specification's scenario, from (25, 10) to (125, 10). *)
Definition scenarioSegment (styleName : option string) : Segment :=
  mkSegment (mkPoint (Num 25) (Num 10)) None None (mkPoint (Num 125) (Num 10))
            (Some "cpu") styleName.

(** A renderer state with default stroke width 4 and two styles, named
    after their patterns. *)
Definition scenarioState : WeathermapRendererState :=
  mkState (Num 4)
          (buildStyleMap [ mkStyle "2 1" (Some "2 1") None;
                           mkStyle "2 1 2" (Some "2 1 2") None ]).

(** The width pattern of that state for a style name, after the doubling. *)
Definition scenarioWidths (styleName : option string) : list number :=
  effectiveStrokeWidths (configStrokeWidth scenarioState)
                        (getWeathermapStyle scenarioState styleName).

(** The two nodes of the specification's scenario and edges between them. *)
Definition nodeA : Node.t := Node.mk "a" (Num 0) (Num 0) (Num 50) (Num 20).
Definition nodeB : Node.t := Node.mk "b" (Num 100) (Num 0) (Num 50) (Num 20).

Definition scenarioNodes (label : string) : option Node.t :=
  if String.eqb label "a" then Some nodeA
  else if String.eqb label "b" then Some nodeB
  else None.


Definition bentEdge : Edge.t :=
  Edge.mk "a" "b" (Some (Num 90)) (Some (Num 10)) (Some "cpu") None None.

(** * Properties *)

(** ** Comparisons of numbers *)

Lemma lt_true (a b : number) :
  Js.lt a b = true <-> exists p q, a = Num p /\ b = Num q /\ p < q.
Proof.
  split.
  - destruct a as [|p], b as [|q]; simpl; try discriminate.
    intros H. exists p, q. repeat split.
    apply Qnot_le_lt. intros Hle.
    apply Qle_bool_iff in Hle. rewrite Hle in H. discriminate.
  - intros (p & q & -> & -> & H). simpl.
    destruct (Qle_bool q p) eqn:E; [|reflexivity].
    apply Qle_bool_iff in E. exfalso. apply (Qlt_not_le _ _ H E).
Qed.

Lemma le_true (a b : number) :
  Js.le a b = true <-> exists p q, a = Num p /\ b = Num q /\ p <= q.
Proof.
  split.
  - destruct a as [|p], b as [|q]; simpl; try discriminate.
    intros H. exists p, q. repeat split. now apply Qle_bool_iff.
  - intros (p & q & -> & -> & H). simpl. now apply Qle_bool_iff.
Qed.

Lemma lt_Num (p q : Q) : Js.lt (Num p) (Num q) = true <-> p < q.
Proof.
  rewrite lt_true. split.
  - intros (p' & q' & [= <-] & [= <-] & H). exact H.
  - intros H. now exists p, q.
Qed.

Lemma le_Num (p q : Q) : Js.le (Num p) (Num q) = true <-> p <= q.
Proof.
  rewrite le_true. split.
  - intros (p' & q' & [= <-] & [= <-] & H). exact H.
  - intros H. now exists p, q.
Qed.

Lemma lt_Num_false (p q : Q) : Js.lt (Num p) (Num q) = false <-> q <= p.
Proof.
  split; intros H.
  - apply Qnot_lt_le. intros Hlt. apply lt_Num in Hlt. congruence.
  - destruct (Js.lt (Num p) (Num q)) eqn:E; [|reflexivity].
    apply lt_Num in E. exfalso. apply (Qlt_not_le _ _ E H).
Qed.

Lemma le_Num_false (p q : Q) : Js.le (Num p) (Num q) = false <-> q < p.
Proof.
  split; intros H.
  - apply Qnot_le_lt. intros Hle. apply le_Num in Hle. congruence.
  - destruct (Js.le (Num p) (Num q)) eqn:E; [|reflexivity].
    apply le_Num in E. exfalso. apply (Qlt_not_le _ _ H E).
Qed.

Lemma le_trans (a b c : number) :
  Js.le a b = true -> Js.le b c = true -> Js.le a c = true.
Proof.
  rewrite !le_true.
  intros (p & q & -> & -> & H1) (q' & r & [= <-] & -> & H2).
  exists p, r. repeat split. now apply Qle_trans with q.
Qed.

Lemma le_not_lt (a b : number) : Js.le a b = true -> Js.lt b a = false.
Proof.
  intros H. apply le_true in H. destruct H as (p & q & -> & -> & H).
  now apply lt_Num_false.
Qed.

Lemma lt_not_le (a b : number) : Js.lt a b = true -> Js.le b a = false.
Proof.
  intros H. apply lt_true in H. destruct H as (p & q & -> & -> & H).
  now apply le_Num_false.
Qed.

Lemma brackets_true (value : number) (stop next : GradientStop) :
  brackets value stop next = true <->
  exists v pa pb, value = Num v /\ position stop = Num pa
                  /\ position next = Num pb /\ pa <= v /\ v < pb.
Proof.
  unfold brackets, Js.ge. rewrite andb_true_iff, le_true, lt_true. split.
  - intros [(pa & v & Ha & Hv & Hle) (v' & pb & Hv' & Hb & Hlt)].
    rewrite Hv in Hv'. injection Hv' as <-.
    now exists v, pa, pb.
  - intros (v & pa & pb & -> & -> & -> & Hle & Hlt). split.
    + now exists pa, v.
    + now exists v, pb.
Qed.

(** ** One round of each loop *)

Lemma linearLoop_step (stop next : GradientStop) (rest : list GradientStop)
    (colorType : ColorType) (value : number) :
  linearLoop (stop :: next :: rest) colorType value
  = if brackets value stop next then
      Some (lerp value (position stop) (position next)
                 (channel stop colorType 1) (channel next colorType 1),
            lerp value (position stop) (position next)
                 (channel stop colorType 3) (channel next colorType 3),
            lerp value (position stop) (position next)
                 (channel stop colorType 5) (channel next colorType 5))
    else linearLoop (next :: rest) colorType value.
Proof. reflexivity. Qed.

Lemma stepLoop_step (stop next : GradientStop) (rest : list GradientStop)
    (colorType : ColorType) (value : number) :
  stepLoop (stop :: next :: rest) colorType value
  = if brackets value stop next then Some (stopColor stop colorType)
    else stepLoop (next :: rest) colorType value.
Proof. reflexivity. Qed.

Lemma logged_linearLoop_step (stop next : GradientStop)
    (rest : list GradientStop) (colorType : ColorType) (value : number) :
  Logged.linearLoop (stop :: next :: rest) colorType value
  = if brackets value stop next then
      let '(r, dr) := Logged.lerp value (position stop) (position next)
                        (channel stop colorType 1) (channel next colorType 1) in
      let '(g, dg) := Logged.lerp value (position stop) (position next)
                        (channel stop colorType 3) (channel next colorType 3) in
      let '(b, db) := Logged.lerp value (position stop) (position next)
                        (channel stop colorType 5) (channel next colorType 5) in
      (Some (r, g, b), (dr ++ dg ++ db)%list)
    else Logged.linearLoop (next :: rest) colorType value.
Proof. reflexivity. Qed.

Lemma raiseAngle_step (fuel : nat) (angleRadians : number) :
  raiseAngle (S fuel) angleRadians
  = if Js.le angleRadians (Js.neg Math_PI)
    then raiseAngle fuel (Js.add angleRadians twoPi)
    else Some angleRadians.
Proof. reflexivity. Qed.

Lemma lowerAngle_step (fuel : nat) (angleRadians : number) :
  lowerAngle (S fuel) angleRadians
  = if Js.gt angleRadians Math_PI
    then lowerAngle fuel (Js.sub angleRadians twoPi)
    else Some angleRadians.
Proof. reflexivity. Qed.

Lemma last_cons (first next : GradientStop) (rest : list GradientStop) :
  last (first :: next :: rest) first = last (next :: rest) next.
Proof.
  change (last (first :: next :: rest) first) with (last (next :: rest) first).
  generalize first. revert next.
  induction rest as [|third rest IH]; intros next d; [reflexivity|].
  change (last (next :: third :: rest) d) with (last (third :: rest) d).
  change (last (next :: third :: rest) next) with (last (third :: rest) next).
  now rewrite (IH third d), (IH third next).
Qed.

(** ** Sorted stop lists *)

Lemma sorted_tail (stop : GradientStop) (rest : list GradientStop) :
  sortedByPosition (stop :: rest) = true -> sortedByPosition rest = true.
Proof.
  destruct rest as [|next rest]; [reflexivity|].
  simpl. intros H. apply andb_true_iff in H. apply H.
Qed.

Lemma sorted_head_le (stop next : GradientStop) (rest : list GradientStop) :
  sortedByPosition (stop :: next :: rest) = true ->
  Js.le (position stop) (position next) = true.
Proof.
  simpl. intros H. apply andb_true_iff in H. apply H.
Qed.

(** Whatever is at or above the last stop is at or above the first. *)
Lemma sorted_last_le (first : GradientStop) (rest : list GradientStop)
    (value : number) :
  sortedByPosition (first :: rest) = true ->
  Js.le (position (last (first :: rest) first)) value = true ->
  Js.le (position first) value = true.
Proof.
  revert first. induction rest as [|next rest IH]; intros first Hs Hl.
  - exact Hl.
  - apply le_trans with (position next).
    + now apply sorted_head_le with rest.
    + apply IH.
      * now apply sorted_tail with first.
      * now rewrite last_cons in Hl.
Qed.

(** Whatever is at or above some stop is at or above the first. *)
Lemma sorted_nth_le (i : nat) :
  forall (first : GradientStop) (rest : list GradientStop)
         (stop : GradientStop) (value : number),
  sortedByPosition (first :: rest) = true ->
  nth_error (first :: rest) i = Some stop ->
  Js.le (position stop) value = true ->
  Js.le (position first) value = true.
Proof.
  induction i as [|i IH]; intros first rest stop value Hs Hn Hl.
  - injection Hn as <-. exact Hl.
  - destruct rest as [|next rest]; [destruct i; discriminate|].
    apply le_trans with (position next).
    + now apply sorted_head_le with rest.
    + apply (IH next rest stop value); auto.
      now apply sorted_tail with first.
Qed.

(** Whatever is below some stop is below the last. *)
Lemma sorted_nth_lt_last (i : nat) :
  forall (first : GradientStop) (rest : list GradientStop)
         (stop : GradientStop) (value : number),
  sortedByPosition (first :: rest) = true ->
  nth_error (first :: rest) i = Some stop ->
  Js.lt value (position stop) = true ->
  Js.le (position (last (first :: rest) first)) value = false.
Proof.
  induction i as [|i IH]; intros first rest stop value Hs Hn Hl.
  - injection Hn as <-.
    destruct (Js.le (position (last (first :: rest) first)) value) eqn:E;
      [|reflexivity].
    apply sorted_last_le in E; [|exact Hs].
    apply le_not_lt in E. congruence.
  - destruct rest as [|next rest]; [destruct i; discriminate|].
    rewrite last_cons.
    apply (IH next rest stop value); auto.
    now apply sorted_tail with first.
Qed.

(** ** Boundary clamp *)

Lemma linear_below_first (first : GradientStop) (rest : list GradientStop)
    (colorType : ColorType) (value : number) :
  Js.lt value (position first) = true ->
  linearColorForValue (first :: rest) colorType value = stopColor first colorType.
Proof. intros H. unfold linearColorForValue. now rewrite H. Qed.

Lemma step_below_first (first : GradientStop) (rest : list GradientStop)
    (colorType : ColorType) (value : number) :
  Js.lt value (position first) = true ->
  stepColorForValue (first :: rest) colorType value = stopColor first colorType.
Proof. intros H. unfold stepColorForValue. now rewrite H. Qed.

Lemma above_last_not_below_first (first : GradientStop)
    (rest : list GradientStop) (value : number) :
  sortedByPosition (first :: rest) = true ->
  Js.ge value (position (last (first :: rest) first)) = true ->
  Js.lt value (position first) = false.
Proof.
  intros Hs Hl. apply le_not_lt. now apply sorted_last_le with rest.
Qed.

Lemma linear_above_last (first : GradientStop) (rest : list GradientStop)
    (colorType : ColorType) (value : number) :
  sortedByPosition (first :: rest) = true ->
  Js.ge value (position (last (first :: rest) first)) = true ->
  linearColorForValue (first :: rest) colorType value
  = stopColor (last (first :: rest) first) colorType.
Proof.
  intros Hs Hl. unfold linearColorForValue.
  rewrite (above_last_not_below_first _ _ _ Hs Hl). now rewrite Hl.
Qed.

Lemma step_above_last (first : GradientStop) (rest : list GradientStop)
    (colorType : ColorType) (value : number) :
  sortedByPosition (first :: rest) = true ->
  Js.ge value (position (last (first :: rest) first)) = true ->
  stepColorForValue (first :: rest) colorType value
  = stopColor (last (first :: rest) first) colorType.
Proof.
  intros Hs Hl. unfold stepColorForValue.
  rewrite (above_last_not_below_first _ _ _ Hs Hl). now rewrite Hl.
Qed.

(** C1.  For a linear or stepped gradient whose stops are non-empty and
    sorted ascending by position, [gradientColorForValue] returns the first
    stop's colour of the requested channel as it is when the value is below
    the first position, and the last stop's colour as it is when the value
    is at or above the last position. *)
Theorem gradient_boundary_clamp
    (gradient : Gradient) (colorType : ColorType) (value : number)
    (first : GradientStop) (rest : list GradientStop) :
  type gradient = "linear" \/ type gradient = "steps" ->
  stops gradient = first :: rest ->
  sortedByPosition (stops gradient) = true ->
  (Js.lt value (position first) = true ->
   gradientColorForValue gradient colorType value = stopColor first colorType)
  /\
  (Js.ge value (position (last (stops gradient) first)) = true ->
   gradientColorForValue gradient colorType value
   = stopColor (last (stops gradient) first) colorType).
Proof.
  intros Htype Hstops Hsorted. unfold gradientColorForValue.
  rewrite Hstops in *.
  destruct Htype as [-> | ->]; simpl String.eqb; cbv iota; split; intros H.
  - now apply linear_below_first.
  - now apply linear_above_last.
  - now apply step_below_first.
  - now apply step_above_last.
Qed.

Lemma gradient_boundary_clamp_witness :
  gradientColorForValue (mkGradient "linear" blackToWhite) StrokeColor
                        (Num (-5)) = "#000000"
  /\ gradientColorForValue (mkGradient "steps" redThenGreen) FillColor
                           (Num 75) = "#00ff00".
Proof.
  split.
  - apply (proj1 (gradient_boundary_clamp
                    (mkGradient "linear" blackToWhite) StrokeColor (Num (-5))
                    (mkStop (Num 0) "#000000" "#000000" true)
                    [mkStop (Num 100) "#ffffff" "#ffffff" true]
                    (or_introl eq_refl) eq_refl eq_refl)).
    reflexivity.
  - apply (proj2 (gradient_boundary_clamp
                    (mkGradient "steps" redThenGreen) FillColor (Num 75)
                    (mkStop (Num 0) "#ff0000" "#ff0000" true)
                    [mkStop (Num 50) "#00ff00" "#00ff00" true]
                    (or_intror eq_refl) eq_refl eq_refl)).
    reflexivity.
Defined.

(** ** Linear interpolation *)

Lemma parseInt16_hex_pair (hi lo : ascii) :
  isHexDigit hi = true -> isHexDigit lo = true ->
  parseInt16 (String hi (String lo "")) = Js.ofZ (16 * hexValue hi + hexValue lo).
Proof.
  intros Hhi Hlo.
  destruct hi as [[] [] [] [] [] [] [] []];
    vm_compute in Hhi; try discriminate Hhi;
    destruct lo as [[] [] [] [] [] [] [] []];
    vm_compute in Hlo; try discriminate Hlo;
    vm_compute; reflexivity.
Qed.

Lemma hexValue_range (c : ascii) : (0 <= hexValue c <= 15)%Z.
Proof.
  unfold hexValue, hexDigit.
  repeat match goal with
         | |- context [if ?b then _ else _] => destruct b eqn:?
         end; lia.
Qed.

Lemma isHexColor_inv (s : string) :
  isHexColor s = true ->
  exists r1 r2 g1 g2 b1 b2,
    s = String "#" (String r1 (String r2 (String g1 (String g2
          (String b1 (String b2 EmptyString))))))
    /\ isHexDigit r1 = true /\ isHexDigit r2 = true
    /\ isHexDigit g1 = true /\ isHexDigit g2 = true
    /\ isHexDigit b1 = true /\ isHexDigit b2 = true.
Proof.
  intros H.
  destruct s as [|c0 s]; [discriminate|].
  destruct c0 as [[] [] [] [] [] [] [] []]; try discriminate.
  destruct s as [|r1 [|r2 [|g1 [|g2 [|b1 [|b2 [|extra s]]]]]]];
    try discriminate.
  simpl in H. repeat (apply andb_true_iff in H; destruct H as [H ?]).
  exists r1, r2, g1, g2, b1, b2. repeat split; assumption.
Qed.

(** On a [#RRGGBB] colour each channel parses to the 8-bit integer its two
    digits write. *)
Lemma channel_hex (stop : GradientStop) (colorType : ColorType) :
  isHexColor (stopColor stop colorType) = true ->
  forall start, start = 1%nat \/ start = 3%nat \/ start = 5%nat ->
  channel stop colorType start = Js.ofZ (hexByteAt (stopColor stop colorType) start)
  /\ (0 <= hexByteAt (stopColor stop colorType) start <= 255)%Z.
Proof.
  intros H start Hstart. unfold channel.
  destruct (isHexColor_inv _ H)
    as (r1 & r2 & g1 & g2 & b1 & b2 & -> & ? & ? & ? & ? & ? & ?).
  destruct Hstart as [-> | [-> | ->]]; unfold hexByteAt;
    cbn [String.get substring]; split;
    try (apply parseInt16_hex_pair; assumption).
  - pose proof (hexValue_range r1). pose proof (hexValue_range r2). lia.
  - pose proof (hexValue_range g1). pose proof (hexValue_range g2). lia.
  - pose proof (hexValue_range b1). pose proof (hexValue_range b2). lia.
Qed.

Lemma fraction_in_range (v pa pb : Q) :
  pa <= v -> v < pb ->
  clampedFraction v pa pb == (v - pa) / (pb - pa).
Proof.
  intros Hle Hlt. unfold clampedFraction.
  assert (Hpos : 0 < pb - pa) by lra.
  assert (H0 : 0 <= (v - pa) / (pb - pa)).
  { apply Qle_shift_div_l; [exact Hpos | lra]. }
  assert (H1 : (v - pa) / (pb - pa) <= 1).
  { apply Qle_shift_div_r; [exact Hpos | lra]. }
  rewrite (Q.min_r _ _ H1). now rewrite (Q.max_r _ _ H0).
Qed.

Lemma lerp_bracketed (v pa pb : Q) (cFrom cTo : Z) :
  pa <= v -> v < pb ->
  exists r,
    lerp (Num v) (Num pa) (Num pb) (Js.ofZ cFrom) (Js.ofZ cTo) = Num r
    /\ Qfloor r = interpolatedChannel v pa pb cFrom cTo.
Proof.
  intros Hle Hlt. unfold lerp, interpolatedChannel, Js.ofZ, Js.gt.
  simpl Js.strict_eq.
  destruct (Qeq_bool (inject_Z cFrom) (inject_Z cTo)) eqn:E.
  - exists (inject_Z cFrom). split; [reflexivity|].
    apply Qeq_bool_iff in E. apply Qfloor_comp. rewrite <- E. ring.
  - rewrite (proj2 (lt_Num_false v pa) Hle).
    assert (Hgt : Js.lt (Num pb) (Num v) = false).
    { apply lt_Num_false. lra. }
    rewrite Hgt. cbn [Js.sub Js.div Js.add Js.mul].
    assert (Hz : Qeq_bool (pb - pa) 0 = false).
    { destruct (Qeq_bool (pb - pa) 0) eqn:Ez; [|reflexivity].
      apply Qeq_bool_iff in Ez. lra. }
    rewrite Hz. eexists. split; [reflexivity|].
    apply Qfloor_comp. now rewrite fraction_in_range.
Qed.

Lemma showFloor_Num (r : Q) : Js.showFloor (Num r) = Js.showZ (Qfloor r).
Proof. unfold Js.showFloor, Js.floor. now rewrite Qfloor_Z. Qed.

(** In a sorted list the loop stops at the bracketing pair. *)
Lemma linearLoop_at (i : nat) :
  forall (stops : list GradientStop) (colorType : ColorType) (value : number)
         (stop next : GradientStop),
  sortedByPosition stops = true ->
  nth_error stops i = Some stop ->
  nth_error stops (S i) = Some next ->
  brackets value stop next = true ->
  linearLoop stops colorType value
  = Some (lerp value (position stop) (position next)
               (channel stop colorType 1) (channel next colorType 1),
          lerp value (position stop) (position next)
               (channel stop colorType 3) (channel next colorType 3),
          lerp value (position stop) (position next)
               (channel stop colorType 5) (channel next colorType 5)).
Proof.
  induction i as [|i IH]; intros stops colorType value stop next Hs Hi Hn Hb.
  - destruct stops as [|s0 [|s1 rest]]; try discriminate.
    injection Hi as <-. injection Hn as <-.
    simpl. now rewrite Hb.
  - destruct stops as [|s0 [|s1 rest]]; try discriminate Hi.
    { destruct i; discriminate Hi. }
    assert (Hskip : brackets value s0 s1 = false).
    { unfold brackets. apply andb_false_iff. right. apply le_not_lt.
      apply (sorted_nth_le i s1 rest stop value).
      - now apply sorted_tail with s0.
      - exact Hi.
      - unfold brackets in Hb. apply andb_true_iff in Hb. apply Hb. }
    rewrite linearLoop_step, Hskip. apply IH; auto. now apply sorted_tail with s0.
Qed.

(** A value bracketed by two neighbours of a sorted list takes neither of
    the early returns. *)
Lemma bracketed_inside (i : nat) (first : GradientStop)
    (rest : list GradientStop) (value : number) (stop next : GradientStop) :
  sortedByPosition (first :: rest) = true ->
  nth_error (first :: rest) i = Some stop ->
  nth_error (first :: rest) (S i) = Some next ->
  brackets value stop next = true ->
  Js.lt value (position first) = false
  /\ Js.ge value (position (last (first :: rest) first)) = false.
Proof.
  intros Hs Hi Hn Hb. unfold brackets in Hb.
  apply andb_true_iff in Hb. destruct Hb as [Hge Hlt]. split.
  - apply le_not_lt. now apply (sorted_nth_le i first rest stop value).
  - now apply (sorted_nth_lt_last (S i) first rest next value).
Qed.



(** ** The emergency colour *)

Lemma noBracketingPair_tail (stop : GradientStop) (rest : list GradientStop)
    (value : number) :
  noBracketingPair (stop :: rest) value -> noBracketingPair rest value.
Proof.
  intros H i a b Ha Hb. apply (H (S i) a b); assumption.
Qed.

Lemma stepLoop_none (stops : list GradientStop) (colorType : ColorType)
    (value : number) :
  noBracketingPair stops value -> stepLoop stops colorType value = None.
Proof.
  induction stops as [|s0 rest IH]; intros H; [reflexivity|].
  destruct rest as [|s1 rest]; [reflexivity|].
  rewrite stepLoop_step, (H 0%nat s0 s1 eq_refl eq_refl).
  apply IH. now apply noBracketingPair_tail with s0.
Qed.

Lemma linearLoop_none (stops : list GradientStop) (colorType : ColorType)
    (value : number) :
  noBracketingPair stops value -> linearLoop stops colorType value = None.
Proof.
  induction stops as [|s0 rest IH]; intros H; [reflexivity|].
  destruct rest as [|s1 rest]; [reflexivity|].
  rewrite linearLoop_step, (H 0%nat s0 s1 eq_refl eq_refl).
  apply IH. now apply noBracketingPair_tail with s0.
Qed.

(** C8.  [gradientColorForValue] returns the emergency colour when the stop
    list is empty, when the gradient type is neither ["linear"] nor
    ["steps"], and when the search for a bracketing pair of stops, once
    reached, finds none.  The functions are total: nothing is thrown. *)
Theorem emergency_color
    (gradient : Gradient) (colorType : ColorType) (value : number) :
  stops gradient = []
  \/ (type gradient <> "linear" /\ type gradient <> "steps")
  \/ (exists first rest,
        stops gradient = first :: rest
        /\ Js.lt value (position first) = false
        /\ Js.ge value (position (last (stops gradient) first)) = false
        /\ noBracketingPair (stops gradient) value) ->
  gradientColorForValue gradient colorType value = emergencyColor.
Proof.
  unfold gradientColorForValue.
  intros [Hempty | [[Hlin Hstep] | (first & rest & Hstops & Hlow & Hhigh & Hnone)]].
  - rewrite Hempty. simpl.
    destruct (String.eqb (type gradient) "linear"); [reflexivity|].
    destruct (String.eqb (type gradient) "steps"); reflexivity.
  - apply String.eqb_neq in Hlin. apply String.eqb_neq in Hstep.
    now rewrite Hlin, Hstep.
  - rewrite Hstops in *.
    unfold linearColorForValue, stepColorForValue.
    unfold Js.ge in Hhigh |- *. rewrite Hlow, Hhigh.
    rewrite (linearLoop_none _ colorType value Hnone).
    rewrite (stepLoop_none _ colorType value Hnone).
    destruct (String.eqb (type gradient) "linear"); [reflexivity|].
    destruct (String.eqb (type gradient) "steps"); reflexivity.
Qed.

Lemma emergency_color_witness :
  gradientColorForValue (mkGradient "linear" []) StrokeColor (Num 5) = "pink"
  /\ gradientColorForValue (mkGradient "radial" blackToWhite) FillColor (Num 5)
     = "pink"
  /\ gradientColorForValue (mkGradient "steps" redThenGreen) StrokeColor NaN
     = "pink".
Proof.
  split; [|split].
  - apply (emergency_color (mkGradient "linear" []) StrokeColor (Num 5)).
    left. reflexivity.
  - apply (emergency_color (mkGradient "radial" blackToWhite) FillColor (Num 5)).
    right. left. split; discriminate.
  - apply (emergency_color (mkGradient "steps" redThenGreen) StrokeColor NaN).
    right. right.
    exists (mkStop (Num 0) "#ff0000" "#ff0000" true),
           [mkStop (Num 50) "#00ff00" "#00ff00" true].
    repeat split. intros i stop next _ _.
    unfold brackets, Js.ge, Js.le. destruct (position stop); reflexivity.
Defined.

(** ** Divisions of the linear resolution *)

Lemma logged_lerp_value (value sourceMin sourceMax targetMin targetMax : number) :
  fst (Logged.lerp value sourceMin sourceMax targetMin targetMax)
  = lerp value sourceMin sourceMax targetMin targetMax.
Proof.
  unfold Logged.lerp, lerp.
  destruct (Js.strict_eq targetMin targetMax); reflexivity.
Qed.

Lemma logged_lerp_divisors (value : number) (pa pb : Q)
    (targetMin targetMax d : number) :
  pa < pb ->
  In d (snd (Logged.lerp value (Num pa) (Num pb) targetMin targetMax)) ->
  exists q, d = Num q /\ 0 < q.
Proof.
  intros Hlt. unfold Logged.lerp.
  destruct (Js.strict_eq targetMin targetMax); simpl; [tauto|].
  intros [<- | []]. exists (pb - pa). split; [reflexivity | lra].
Qed.

Lemma logged_linearLoop_value (stops : list GradientStop)
    (colorType : ColorType) (value : number) :
  fst (Logged.linearLoop stops colorType value)
  = linearLoop stops colorType value.
Proof.
  induction stops as [|s0 rest IH]; [reflexivity|].
  destruct rest as [|s1 rest]; [reflexivity|].
  rewrite logged_linearLoop_step.
  rewrite linearLoop_step.
  destruct (brackets value s0 s1); [|exact IH].
  rewrite <- !logged_lerp_value.
  destruct (Logged.lerp value (position s0) (position s1)
              (channel s0 colorType 1) (channel s1 colorType 1)).
  destruct (Logged.lerp value (position s0) (position s1)
              (channel s0 colorType 3) (channel s1 colorType 3)).
  destruct (Logged.lerp value (position s0) (position s1)
              (channel s0 colorType 5) (channel s1 colorType 5)).
  reflexivity.
Qed.

Lemma logged_linearLoop_divisors (stops : list GradientStop)
    (colorType : ColorType) (value d : number) :
  In d (snd (Logged.linearLoop stops colorType value)) ->
  exists q, d = Num q /\ 0 < q.
Proof.
  induction stops as [|s0 rest IH]; [intros []|].
  destruct rest as [|s1 rest]; [intros []|].
  rewrite logged_linearLoop_step.
  destruct (brackets value s0 s1) eqn:Hb; [|exact IH].
  apply brackets_true in Hb.
  destruct Hb as (v & pa & pb & -> & -> & -> & Hle & Hlt).
  assert (Hpos : pa < pb) by lra.
  pose proof (fun tMin tMax =>
                logged_lerp_divisors (Num v) pa pb tMin tMax d Hpos) as Hd.
  destruct (Logged.lerp (Num v) (Num pa) (Num pb)
              (channel s0 colorType 1) (channel s1 colorType 1))
    as [r dr] eqn:Er.
  destruct (Logged.lerp (Num v) (Num pa) (Num pb)
              (channel s0 colorType 3) (channel s1 colorType 3))
    as [g dg] eqn:Eg.
  destruct (Logged.lerp (Num v) (Num pa) (Num pb)
              (channel s0 colorType 5) (channel s1 colorType 5))
    as [b db] eqn:Eb.
  simpl. rewrite !in_app_iff. intros [H | [H | H]].
  - apply (Hd (channel s0 colorType 1) (channel s1 colorType 1)).
    now rewrite Er.
  - apply (Hd (channel s0 colorType 3) (channel s1 colorType 3)).
    now rewrite Eg.
  - apply (Hd (channel s0 colorType 5) (channel s1 colorType 5)).
    now rewrite Eb.
Qed.

(** C9.  For every stop list, sorted or not, every division of the linear
    resolution is by a positive number: the bracketing guard makes the
    lower position strictly smaller than the upper one, so the divisor
    [sourceMax - sourceMin] of [lerp] is positive whenever it divides, and
    [lerp] returns [targetMin] without dividing when the two targets are
    equal.  The logged functions compute what the plain ones do. *)
Theorem linear_divisors_positive
    (stops : list GradientStop) (colorType : ColorType) (value : number) :
  fst (Logged.linearColorForValue stops colorType value)
  = linearColorForValue stops colorType value
  /\ (forall d,
        In d (snd (Logged.linearColorForValue stops colorType value)) ->
        exists q, d = Num q /\ 0 < q)
  /\ (forall stop next,
        brackets value stop next = true ->
        Js.lt (position stop) (position next) = true)
  /\ (forall sourceMin sourceMax targetMin targetMax,
        fst (Logged.lerp value sourceMin sourceMax targetMin targetMax)
        = lerp value sourceMin sourceMax targetMin targetMax
        /\ (Js.strict_eq targetMin targetMax = true ->
            Logged.lerp value sourceMin sourceMax targetMin targetMax
            = (targetMin, []))).
Proof.
  repeat split.
  - unfold Logged.linearColorForValue, linearColorForValue.
    destruct stops as [|first rest]; [reflexivity|].
    destruct (Js.lt value (position first)); [reflexivity|].
    destruct (Js.ge value (position (last (first :: rest) first)));
      [reflexivity|].
    rewrite <- logged_linearLoop_value.
    destruct (Logged.linearLoop (first :: rest) colorType value)
      as [[[[r g] b]|] divisors]; reflexivity.
  - intros d. unfold Logged.linearColorForValue.
    destruct stops as [|first rest]; [intros []|].
    destruct (Js.lt value (position first)); [intros []|].
    destruct (Js.ge value (position (last (first :: rest) first)));
      [intros []|].
    pose proof (logged_linearLoop_divisors (first :: rest) colorType value d)
      as Hd.
    destruct (Logged.linearLoop (first :: rest) colorType value)
      as [[[[r g] b]|] divisors]; exact Hd.
  - intros stop next Hb. apply brackets_true in Hb.
    destruct Hb as (v & pa & pb & _ & -> & -> & Hle & Hlt).
    apply lt_Num. lra.
  - apply logged_lerp_value.
  - intros H. unfold Logged.lerp. now rewrite H.
Qed.

Lemma linear_divisors_positive_witness :
  snd (Logged.linearColorForValue blackToWhite StrokeColor (Num 50))
  = [Num 100; Num 100; Num 100]
  /\ exists q, Num 100 = Num q /\ 0 < q.
Proof.
  split; [reflexivity|].
  apply (proj1 (proj2 (linear_divisors_positive blackToWhite StrokeColor
                                                 (Num 50)))).
  left. reflexivity.
Defined.

(** ** Stepped resolution *)

Lemma last_In (first : GradientStop) (rest : list GradientStop) :
  In (last (first :: rest) first) (first :: rest).
Proof.
  revert first. induction rest as [|next rest IH]; intros first; [now left|].
  right. rewrite last_cons. apply IH.
Qed.

(** The exits of [stepExit] are those of [stepColorForValue]. *)
Lemma stepLoop_colorType (stops : list GradientStop) (value : number)
    (c c' : ColorType) :
  stepLoop stops c value = None <-> stepLoop stops c' value = None.
Proof.
  induction stops as [|s0 rest IH]; [tauto|].
  destruct rest as [|s1 rest]; [tauto|].
  rewrite !stepLoop_step.
  destruct (brackets value s0 s1); [split; discriminate | exact IH].
Qed.

Lemma stepExit_sound (first : GradientStop) (rest : list GradientStop)
    (colorType : ColorType) (value : number) :
  match stepExit (first :: rest) value with
  | ExitEmpty => False
  | ExitBelowFirst =>
      stepColorForValue (first :: rest) colorType value
      = stopColor first colorType
  | ExitAtOrAboveLast =>
      stepColorForValue (first :: rest) colorType value
      = stopColor (last (first :: rest) first) colorType
  | ExitBracket =>
      stepLoop (first :: rest) colorType value
      = Some (stepColorForValue (first :: rest) colorType value)
  | ExitFallback =>
      stepLoop (first :: rest) colorType value = None
      /\ stepColorForValue (first :: rest) colorType value = emergencyColor
  end.
Proof.
  unfold stepExit, stepColorForValue.
  destruct (Js.lt value (position first)); [reflexivity|].
  destruct (Js.ge value (position (last (first :: rest) first)));
    [reflexivity|].
  destruct (stepLoop (first :: rest) StrokeColor value) eqn:E.
  - destruct (stepLoop (first :: rest) colorType value) eqn:E'; [reflexivity|].
    apply (proj1 (stepLoop_colorType _ _ colorType StrokeColor)) in E'.
    rewrite E' in E. discriminate E.
  - apply (proj1 (stepLoop_colorType _ _ StrokeColor colorType)) in E.
    now rewrite E.
Qed.

(** Between the first and the last position the loop finds a pair, in any
    list whose positions are numbers. *)
Lemma stepLoop_finds (rest : list GradientStop) :
  forall (first : GradientStop) (colorType : ColorType) (v : Q),
  numericPositions (first :: rest) = true ->
  Js.le (position first) (Num v) = true ->
  Js.lt (Num v) (position (last (first :: rest) first)) = true ->
  exists stop,
    In stop (first :: rest)
    /\ stepLoop (first :: rest) colorType (Num v)
       = Some (stopColor stop colorType).
Proof.
  induction rest as [|next rest IH]; intros first colorType v Hnum Hle Hlt.
  - change (last [first] first) with first in Hlt.
    rewrite (le_not_lt _ _ Hle) in Hlt. discriminate Hlt.
  - rewrite stepLoop_step.
    destruct (brackets (Num v) first next) eqn:Hb.
    + exists first. split; [now left | reflexivity].
    + assert (Hnum' : numericPositions (next :: rest) = true).
      { unfold numericPositions in *. simpl in Hnum.
        apply andb_true_iff in Hnum. apply Hnum. }
      assert (Hnext : Js.le (position next) (Num v) = true).
      { unfold brackets, Js.ge in Hb. rewrite Hle in Hb. simpl in Hb.
        unfold numericPositions in Hnum'. simpl in Hnum'.
        apply andb_true_iff in Hnum'. destruct Hnum' as [Hn _].
        destruct (position next) as [|pn]; [discriminate|].
        apply le_Num. now apply lt_Num_false. }
      rewrite last_cons in Hlt.
      destruct (IH next colorType v Hnum' Hnext Hlt) as (stop & Hin & Hloop).
      exists stop. split; [now right | exact Hloop].
Qed.

(** C10, amended.  For a non-empty stop list sorted ascending whose
    positions are numbers, and a value that is a number (not [NaN]), the
    stepped resolution returns the requested colour of some stop of the
    list as it is, and never leaves by the emergency fallback after the
    loop. *)
Theorem step_returns_stop_color
    (stops : list GradientStop) (colorType : ColorType) (v : Q) :
  stops <> [] ->
  sortedByPosition stops = true ->
  numericPositions stops = true ->
  (exists stop,
     In stop stops
     /\ stepColorForValue stops colorType (Num v) = stopColor stop colorType)
  /\ stepExit stops (Num v) <> ExitFallback
  /\ stepExit stops (Num v) <> ExitEmpty.
Proof.
  intros Hne _ Hnum.
  destruct stops as [|first rest]; [congruence|].
  unfold stepExit, stepColorForValue.
  destruct (Js.lt (Num v) (position first)) eqn:Hlow.
  { split; [|split; discriminate]. exists first. split; [now left | reflexivity]. }
  destruct (Js.ge (Num v) (position (last (first :: rest) first))) eqn:Hhigh.
  { split; [|split; discriminate].
    exists (last (first :: rest) first). split; [apply last_In | reflexivity]. }
  assert (Hfirst : exists pf, position first = Num pf).
  { unfold numericPositions in Hnum. simpl in Hnum.
    apply andb_true_iff in Hnum. destruct Hnum as [Hn _].
    destruct (position first) as [|pf]; [discriminate | now exists pf]. }
  assert (Hlast : exists pl, position (last (first :: rest) first) = Num pl).
  { unfold numericPositions in Hnum.
    pose proof (proj1 (forallb_forall _ _) Hnum _ (last_In first rest)) as Hn.
    cbv beta in Hn.
    destruct (position (last (first :: rest) first)) as [|pl];
      [discriminate Hn | now exists pl]. }
  destruct Hfirst as (pf & Hpf). destruct Hlast as (pl & Hpl).
  assert (Hle : Js.le (position first) (Num v) = true).
  { rewrite Hpf in *. apply le_Num. now apply lt_Num_false. }
  assert (Hlt : Js.lt (Num v) (position (last (first :: rest) first)) = true).
  { unfold Js.ge in Hhigh. rewrite Hpl in *. apply lt_Num.
    now apply le_Num_false. }
  destruct (stepLoop_finds rest first colorType v Hnum Hle Hlt)
    as (stop & Hin & Hloop).
  destruct (stepLoop_finds rest first StrokeColor v Hnum Hle Hlt)
    as (stop' & _ & Hloop').
  rewrite Hloop'. rewrite Hloop.
  split; [|split; discriminate].
  exists stop. split; [exact Hin | reflexivity].
Qed.

Lemma step_returns_stop_color_witness :
  (exists stop,
     In stop redThenGreen
     /\ stepColorForValue redThenGreen StrokeColor (Num 25)
        = stopColor stop StrokeColor)
  /\ stepExit redThenGreen (Num 25) <> ExitFallback
  /\ stepExit redThenGreen (Num 25) <> ExitEmpty.
Proof.
  apply (step_returns_stop_color redThenGreen StrokeColor 25).
  - discriminate.
  - reflexivity.
  - reflexivity.
Defined.

(** C10 as stated fails: on a sorted, non-empty stop list the value [NaN]
    passes both boundary tests and the loop, leaves by the fallback and
    gets the emergency colour, which is the colour of no stop. *)
Lemma step_fallback_reached :
  redThenGreen <> []
  /\ sortedByPosition redThenGreen = true
  /\ stepExit redThenGreen NaN = ExitFallback
  /\ stepColorForValue redThenGreen StrokeColor NaN = emergencyColor
  /\ ~ (exists stop,
          In stop redThenGreen
          /\ stepColorForValue redThenGreen StrokeColor NaN
             = stopColor stop StrokeColor).
Proof.
  split; [discriminate|]. repeat split.
  intros (stop & [<- | [<- | []]] & H); discriminate H.
Qed.

(** ** Halving a cubic Bezier segment *)

Lemma finitePoint_inv (p : Point2D) :
  finitePoint p -> exists a b, p = mkPoint (Num a) (Num b).
Proof.
  destruct p as [px py]. intros [[a Ha] [b Hb]]. simpl in *. subst.
  now exists a, b.
Qed.

(** C3.  With both control points present [halveCubicBezier] returns
    [p1, m1, q1, o, q2, m3, p2], where [m1], [m2], [m3] are the midpoints of
    the control polygon's edges, [q1], [q2] the midpoints of those and [o]
    the midpoint of [q1] and [q2]; a single missing control point is first
    replaced by its end point.  For finite points [o] is the point of the
    curve at one half, and the two halves trace the curve's first and
    second half. *)
Theorem halve_de_casteljau (p1 c1 c2 p2 : Point2D) :
  let m1 := midpoint p1 c1 in
  let m2 := midpoint c1 c2 in
  let m3 := midpoint c2 p2 in
  let q1 := midpoint m1 m2 in
  let q2 := midpoint m2 m3 in
  let o := midpoint q1 q2 in
  halveCubicBezier p1 (Some c1) (Some c2) p2 = (p1, m1, q1, o, q2, m3, p2)
  /\ halveCubicBezier p1 None (Some c2) p2
     = halveCubicBezier p1 (Some p1) (Some c2) p2
  /\ halveCubicBezier p1 (Some c1) None p2
     = halveCubicBezier p1 (Some c1) (Some p2) p2
  /\ (finitePoint p1 -> finitePoint c1 -> finitePoint c2 -> finitePoint p2 ->
      point_eq o (cubicBezierAt (1 # 2) p1 c1 c2 p2)
      /\ forall t,
           point_eq (cubicBezierAt t p1 m1 q1 o)
                    (cubicBezierAt (t / 2) p1 c1 c2 p2)
           /\ point_eq (cubicBezierAt t o q2 m3 p2)
                       (cubicBezierAt ((1 + t) / 2) p1 c1 c2 p2)).
Proof.
  intros m1 m2 m3 q1 q2 o.
  split; [reflexivity|]. split; [reflexivity|]. split; [reflexivity|].
  intros F1 F2 F3 F4.
  destruct (finitePoint_inv _ F1) as (x1 & y1 & ->).
  destruct (finitePoint_inv _ F2) as (x2 & y2 & ->).
  destruct (finitePoint_inv _ F3) as (x3 & y3 & ->).
  destruct (finitePoint_inv _ F4) as (x4 & y4 & ->).
  subst m1 m2 m3 q1 q2 o.
  split; [|intros t; split]; split; cbn; field.
Qed.

Lemma halve_de_casteljau_witness :
  point_eq (midpoint (midpoint (midpoint origin (mkPoint (Num 0) (Num 8)))
                               (midpoint (mkPoint (Num 0) (Num 8))
                                         (mkPoint (Num 10) (Num 8))))
                     (midpoint (midpoint (mkPoint (Num 0) (Num 8))
                                         (mkPoint (Num 10) (Num 8)))
                               (midpoint (mkPoint (Num 10) (Num 8)) tenRight)))
           (cubicBezierAt (1 # 2) origin (mkPoint (Num 0) (Num 8))
                          (mkPoint (Num 10) (Num 8)) tenRight).
Proof.
  destruct (proj2 (proj2 (proj2
              (halve_de_casteljau origin (mkPoint (Num 0) (Num 8))
                                  (mkPoint (Num 10) (Num 8)) tenRight))))
    as [Hmid _]; [split; eexists; reflexivity ..|].
  exact Hmid.
Defined.

(** C7.  With both control points absent [halveCubicBezier] returns a
    7-tuple whose element 3 is the midpoint of [p1] and [p2] and whose
    other interior elements are each [p1], [p2] or that midpoint; the line
    from (0, 0) to (10, 0) has midpoint (5, 0). *)
Theorem halve_straight_line (p1 p2 : Point2D) :
  elem 3 (halveCubicBezier p1 None None p2) = Some (midpoint p1 p2)
  /\ (forall i point,
        (1 <= i <= 5)%nat ->
        elem i (halveCubicBezier p1 None None p2) = Some point ->
        point = p1 \/ point = p2 \/ point = midpoint p1 p2)
  /\ elem 0 (halveCubicBezier p1 None None p2) = Some p1
  /\ elem 6 (halveCubicBezier p1 None None p2) = Some p2
  /\ (forall a b a' b',
        p1 = mkPoint (Num a) (Num b) -> p2 = mkPoint (Num a') (Num b') ->
        point_eq (midpoint p1 p2)
                 (mkPoint (Num ((a + a') / 2)) (Num ((b + b') / 2))))
  /\ (exists mid,
        elem 3 (halveCubicBezier origin None None tenRight) = Some mid
        /\ point_eq mid (mkPoint (Num 5) (Num 0))).
Proof.
  split; [reflexivity|]. split; [|split; [reflexivity|split; [reflexivity|split]]].
  - intros i point Hi H.
    destruct i as [|[|[|[|[|[|i]]]]]]; try lia; simpl in H;
      injection H as <-; auto.
  - intros a b a' b' -> ->. split; cbn; reflexivity.
  - eexists. split; [reflexivity|]. split; reflexivity.
Qed.

Lemma halve_straight_line_witness :
  elem 3 (halveCubicBezier origin None None tenRight)
  = Some (midpoint origin tenRight)
  /\ (midpoint origin tenRight = origin
      \/ midpoint origin tenRight = tenRight
      \/ midpoint origin tenRight = midpoint origin tenRight).
Proof.
  split.
  - apply (proj1 (halve_straight_line origin tenRight)).
  - apply (proj1 (proj2 (halve_straight_line origin tenRight)) 2%nat
             (midpoint origin tenRight)); [lia | reflexivity].
Defined.

(** ** Multi-stroke offsets *)

(** Induction on a list two elements at a time, as the stroke loop
    alternates. *)
Lemma list_pair_ind (A : Type) (P : list A -> Prop) :
  P [] ->
  (forall a, P [a]) ->
  (forall a b l, P l -> P (a :: b :: l)) ->
  forall l, P l.
Proof.
  intros Hnil Hone Hstep.
  assert (H : forall l, P l /\ forall a, P (a :: l)).
  { induction l as [|b l [IH1 IH2]]; split; auto. }
  intros l. apply H.
Qed.

Section StrokeLoop.

(** The offset axis and the segment stay the same through the loop. *)
Variables (offsetUnitVector : Point2D) (segment : Segment).

Lemma strokeAt_width (centerOffset width : number) :
  strokeWidth (strokeAt offsetUnitVector segment centerOffset width) = width.
Proof.
  unfold strokeAt.
  destruct (control1 segment), (control2 segment); reflexivity.
Qed.

(** The loop emits one stroke for each entry at an even index, in order,
    and nothing for the entries at odd indices. *)
Lemma strokeLoop_widths (strokeWidths : list number) :
  forall currentOffset,
    map strokeWidth
        (strokeLoop offsetUnitVector segment strokeWidths true currentOffset)
    = strokeEntries strokeWidths.
Proof.
  induction strokeWidths as [| w | w g rest IH] using list_pair_ind;
    intros currentOffset.
  - reflexivity.
  - simpl. now rewrite strokeAt_width.
  - simpl. rewrite strokeAt_width. f_equal. apply IH.
Qed.

(** Stroke number [k] comes from entry [2 * k]; its center offset is the
    running offset on reaching that entry plus half the entry's width. *)
Lemma strokeLoop_nth (k : nat) :
  forall strokeWidths currentOffset,
    nth_error
      (strokeLoop offsetUnitVector segment strokeWidths true currentOffset) k
    = option_map
        (fun w =>
           strokeAt offsetUnitVector segment
             (Js.add (offsetAfter currentOffset (firstn (2 * k) strokeWidths))
                     (Js.div w two))
             w)
        (nth_error strokeWidths (2 * k)).
Proof.
  induction k as [|k IH]; intros strokeWidths currentOffset.
  - destruct strokeWidths as [|w rest]; reflexivity.
  - replace (2 * S k)%nat with (S (S (2 * k))) by lia.
    destruct strokeWidths as [|w [|g rest]].
    + reflexivity.
    + simpl. now destruct k.
    + change (strokeLoop offsetUnitVector segment (w :: g :: rest) true
                         currentOffset)
        with (strokeAt offsetUnitVector segment
                       (Js.add currentOffset (Js.div w two)) w
              :: strokeLoop offsetUnitVector segment rest true
                   (Js.add (Js.add currentOffset w) g)).
      cbn [nth_error firstn]. rewrite IH. reflexivity.
Qed.

(** An entry that follows an odd number of entries is a gap: the loop
    emits nothing for it. *)
Lemma strokeLoop_trailing_gap (front : list number) (gap : number) :
  Nat.odd (List.length front) = true ->
  forall currentOffset,
    strokeLoop offsetUnitVector segment (front ++ [gap]) true currentOffset
    = strokeLoop offsetUnitVector segment front true currentOffset.
Proof.
  induction front as [| w | w g rest IH] using list_pair_ind;
    intros Hodd currentOffset.
  - discriminate Hodd.
  - reflexivity.
  - simpl. f_equal. apply IH. exact Hodd.
Qed.



End StrokeLoop.

Lemma strokeEntries_app (front back : list number) :
  Nat.even (List.length front) = true ->
  strokeEntries (front ++ back) = (strokeEntries front ++ strokeEntries back)%list.
Proof.
  induction front as [| w | w g rest IH] using list_pair_ind; intros Heven.
  - reflexivity.
  - discriminate Heven.
  - simpl. f_equal. apply IH. exact Heven.
Qed.

Lemma strokeEntries_length (strokeWidths : list number) :
  Nat.even (List.length strokeWidths) = true ->
  (2 * List.length (strokeEntries strokeWidths) = List.length strokeWidths)%nat.
Proof.
  induction strokeWidths as [| w | w g rest IH] using list_pair_ind;
    intros Heven.
  - reflexivity.
  - discriminate Heven.
  - simpl in *. specialize (IH Heven). lia.
Qed.

Lemma even_mod2 (n : nat) :
  Nat.even n = true -> negb (Nat.eqb (Nat.modulo n 2) 1) = true.
Proof.
  intros H. apply Nat.even_spec in H. destruct H as [m ->].
  replace (2 * m)%nat with (m * 2)%nat by lia.
  now rewrite Nat.Div0.mod_mul.
Qed.

Lemma odd_mod2 (n : nat) :
  Nat.odd n = true -> negb (Nat.eqb (Nat.modulo n 2) 1) = false.
Proof.
  intros H. apply Nat.odd_spec in H. destruct H as [m ->].
  replace (2 * m + 1)%nat with (1 + m * 2)%nat by lia.
  now rewrite Nat.Div0.mod_add.
Qed.

Lemma fold_add_finite (widths : list Q) :
  forall acc, exists total,
    fold_left Js.add (map Num widths) (Num acc) = Num total
    /\ total == acc + sumQ widths.
Proof.
  induction widths as [|w rest IH]; intros acc.
  - exists acc. split; [reflexivity | simpl; ring].
  - destruct (IH (acc + w)) as (total & Hfold & Htotal).
    exists total. split; [exact Hfold|].
    rewrite Htotal. simpl. ring.
Qed.

Lemma num_eq_refl (a : number) : num_eq a a.
Proof. destruct a; simpl; [exact I | reflexivity]. Qed.

Lemma add_zero (a : number) (z : Q) : z == 0 -> num_eq (Js.add a (Num z)) a.
Proof.
  intros Hz. destruct a as [|p]; simpl; [exact I|]. rewrite Hz. ring.
Qed.

Lemma translate_zero (point : Point2D) (zx zy : Q) :
  zx == 0 -> zy == 0 -> point_eq (translate point (Num zx) (Num zy)) point.
Proof.
  intros Hx Hy. split; simpl; now apply add_zero.
Qed.

Lemma totalStrokeWidth_finite (widths : list Q) :
  exists total,
    totalStrokeWidth (map Num widths) = Num total /\ total == sumQ widths.
Proof.
  destruct (fold_add_finite widths 0) as (total & Hfold & Htotal).
  exists total. split; [exact Hfold|]. rewrite Htotal. ring.
Qed.

Lemma initialOffset_finite (widths : list Q) :
  exists offset,
    initialOffset (map Num widths) = Num offset
    /\ offset == - sumQ widths / 2.
Proof.
  destruct (totalStrokeWidth_finite widths) as (total & Htotal & Hsum).
  exists (- total / 2). split.
  - unfold initialOffset. rewrite Htotal. reflexivity.
  - now rewrite Hsum.
Qed.




Lemma last_index_of_even_is_gap (n : nat) :
  Nat.even n = true -> n <> 0%nat -> isGapIndex (n - 1) = true.
Proof.
  intros Heven Hpos. unfold isGapIndex.
  destruct n as [|n]; [congruence|].
  replace (S n - 1)%nat with n by lia.
  rewrite Nat.even_succ in Heven. exact Heven.
Qed.

Lemma removelast_odd (strokeWidths : list number) :
  Nat.even (List.length strokeWidths) = true ->
  strokeWidths <> [] ->
  Nat.odd (List.length (removelast strokeWidths)) = true
  /\ strokeWidths
     = (removelast strokeWidths ++ [last strokeWidths NaN])%list.
Proof.
  intros Heven Hne.
  pose proof (app_removelast_last NaN Hne) as Hsplit.
  split; [|exact Hsplit].
  rewrite Hsplit, length_app in Heven. simpl in Heven.
  rewrite Nat.add_1_r, Nat.even_succ in Heven. exact Heven.
Qed.

(** C5, amended.  A pattern of even length is appended to itself before
    the offsets are computed.  The doubled pattern has even length again
    and ends on a gap entry, for which nothing is emitted; strokes are the
    entries at even indices, gaps those at odd indices, so as many strokes
    are emitted as the parsed pattern has entries.  The pattern ["2 1"]
    becomes [2 1 2 1] and gives exactly 2 strokes. *)
Theorem even_pattern_doubled
    (M : Runtime) (offsetUnitVector : Point2D) (segment : Segment)
    (strokeWidths : list number) (currentOffset : number) :
  Nat.even (List.length strokeWidths) = true ->
  doubleIfEven strokeWidths = (strokeWidths ++ strokeWidths)%list
  /\ Nat.even (List.length (doubleIfEven strokeWidths)) = true
  /\ (strokeWidths <> [] ->
      isGapIndex (List.length (doubleIfEven strokeWidths) - 1) = true
      /\ strokeLoop offsetUnitVector segment (doubleIfEven strokeWidths)
                    true currentOffset
         = strokeLoop offsetUnitVector segment
                      (removelast (doubleIfEven strokeWidths))
                      true currentOffset)
  /\ map strokeWidth
         (strokeLoop offsetUnitVector segment (doubleIfEven strokeWidths)
                     true currentOffset)
     = strokeEntries (strokeWidths ++ strokeWidths)
  /\ List.length
       (strokeLoop offsetUnitVector segment (doubleIfEven strokeWidths)
                   true currentOffset)
     = List.length strokeWidths
  /\ scenarioWidths (Some "2 1") = [Num 2; Num 1; Num 2; Num 1]
  /\ (edgeStyleName segment = Some "2 1" ->
      List.length (makeAndPlaceEdge M scenarioState segment) = 2%nat).
Proof.
  intros Heven.
  assert (Hdouble : doubleIfEven strokeWidths
                    = (strokeWidths ++ strokeWidths)%list).
  { unfold doubleIfEven. now rewrite (even_mod2 _ Heven). }
  assert (Heven2 : Nat.even (List.length (strokeWidths ++ strokeWidths)) = true).
  { rewrite length_app. apply Nat.even_spec.
    exists (List.length strokeWidths). lia. }
  rewrite Hdouble.
  split; [reflexivity|]. split; [exact Heven2|].
  split; [|split; [|split; [|split]]].
  - intros Hne.
    assert (Hne2 : (strokeWidths ++ strokeWidths)%list <> []).
    { destruct strokeWidths; [congruence | discriminate]. }
    split.
    + apply last_index_of_even_is_gap; [exact Heven2|].
      destruct strokeWidths; [congruence | discriminate].
    + destruct (removelast_odd _ Heven2 Hne2) as [Hodd Hsplit].
      rewrite Hsplit at 1. now apply strokeLoop_trailing_gap.
  - apply strokeLoop_widths.
  - rewrite <- (length_map strokeWidth), strokeLoop_widths.
    rewrite (strokeEntries_app _ _ Heven), length_app.
    pose proof (strokeEntries_length _ Heven). lia.
  - reflexivity.
  - intros Hstyle. unfold makeAndPlaceEdge. rewrite Hstyle.
    rewrite <- (length_map strokeWidth), strokeLoop_widths. reflexivity.
Qed.

Lemma even_pattern_doubled_witness :
  map strokeWidth
      (makeAndPlaceEdge coarseMath scenarioState (scenarioSegment (Some "2 1")))
  = [Num 2; Num 2]
  /\ List.length
       (makeAndPlaceEdge coarseMath scenarioState (scenarioSegment (Some "2 1")))
     = 2%nat.
Proof.
  destruct (even_pattern_doubled coarseMath
              (offsetUnitVectorFor coarseMath [Num 2; Num 1; Num 2; Num 1]
                 (start (scenarioSegment (Some "2 1")))
                 (endPoint (scenarioSegment (Some "2 1"))))
              (scenarioSegment (Some "2 1")) [Num 2; Num 1]
              (initialOffset [Num 2; Num 1; Num 2; Num 1]) eq_refl)
    as (_ & _ & _ & Hwidths & _ & _ & Hcount).
  split; [exact Hwidths | apply Hcount; reflexivity].
Defined.

(** C5 as stated fails: the doubled pattern of ["2 1"] has four entries,
    an even number, and its last entry, at index 3, is a gap: the strokes
    emitted are the entries 0 and 2 alone, the same as for the first three
    entries. *)
Lemma doubled_pattern_even_ends_on_gap :
  List.length
    (parsedStrokeWidths (configStrokeWidth scenarioState)
                        (getWeathermapStyle scenarioState (Some "2 1")))
  = 2%nat
  /\ scenarioWidths (Some "2 1") = [Num 2; Num 1; Num 2; Num 1]
  /\ Nat.odd (List.length (scenarioWidths (Some "2 1"))) = false
  /\ isGapIndex (List.length (scenarioWidths (Some "2 1")) - 1) = true
  /\ map strokeWidth
         (makeAndPlaceEdge coarseMath scenarioState
                           (scenarioSegment (Some "2 1")))
     = [Num 2; Num 2]
  /\ strokeLoop (mkPoint (Num 0) (Num 1)) (scenarioSegment (Some "2 1"))
                [Num 2; Num 1; Num 2; Num 1] true (Num (-3))
     = strokeLoop (mkPoint (Num 0) (Num 1)) (scenarioSegment (Some "2 1"))
                  [Num 2; Num 1; Num 2] true (Num (-3)).
Proof.
  repeat split; reflexivity.
Qed.

(** ** Angle normalization and bend control points *)

Lemma piQ_pos : 0 < piQ.
Proof. reflexivity. Qed.

Lemma twoPi_value : twoPi = Num (2 * piQ).
Proof. reflexivity. Qed.

Lemma inject_succ (n : nat) :
  inject_Z (Z.of_nat (S n)) == inject_Z (Z.of_nat n) + 1.
Proof. rewrite Nat2Z.inj_succ. unfold Z.succ. now rewrite inject_Z_plus. Qed.

(** The first loop ends within [n] rounds when [n] full turns bring the
    angle above [-pi]. *)
Lemma raiseAngle_ok (n : nat) :
  forall a,
    - piQ < a + inject_Z (Z.of_nat n) * (2 * piQ) ->
    exists r,
      raiseAngle (S n) (Num a) = Some (Num r)
      /\ - piQ < r
      /\ (r == a \/ r <= piQ)
      /\ exists k : Z, r == a + inject_Z k * (2 * piQ).
Proof.
  pose proof piQ_pos as Hpi.
  induction n as [|n IH]; intros a Hn.
  - exists a. change (inject_Z (Z.of_nat 0)) with 0 in Hn.
    assert (Hgt : - piQ < a) by lra.
    split.
    + cbn [raiseAngle]. unfold Math_PI, Js.neg.
      now rewrite (proj2 (le_Num_false a (- piQ)) Hgt).
    + split; [exact Hgt|]. split; [left; reflexivity|].
      exists 0%Z. change (inject_Z 0) with 0. ring.
  - rewrite inject_succ in Hn.
    rewrite raiseAngle_step. unfold Math_PI, Js.neg.
    destruct (Js.le (Num a) (Num (- piQ))) eqn:Hle.
    + apply le_Num in Hle. rewrite twoPi_value. cbn [Js.add].
      destruct (IH (a + 2 * piQ)) as (r & Hr & Hlow & Hcase & k & Hk);
        [lra|].
      exists r. split; [exact Hr|]. split; [exact Hlow|].
      split.
      * right. destruct Hcase as [Heq | Hle']; [rewrite Heq; lra | exact Hle'].
      * exists (k + 1)%Z. rewrite Hk, inject_Z_plus.
        change (inject_Z 1) with 1. ring.
    + apply le_Num_false in Hle.
      exists a. split; [reflexivity|]. split; [exact Hle|].
      split; [left; reflexivity|].
      exists 0%Z. change (inject_Z 0) with 0. ring.
Qed.

(** The second loop ends within [n] rounds when [n] full turns bring the
    angle down to [pi] or below, and keeps it above [-pi]. *)
Lemma lowerAngle_ok (n : nat) :
  forall b,
    b - inject_Z (Z.of_nat n) * (2 * piQ) <= piQ ->
    - piQ < b ->
    exists r,
      lowerAngle (S n) (Num b) = Some (Num r)
      /\ - piQ < r /\ r <= piQ
      /\ exists k : Z, r == b + inject_Z k * (2 * piQ).
Proof.
  pose proof piQ_pos as Hpi.
  induction n as [|n IH]; intros b Hn Hlow.
  - exists b. change (inject_Z (Z.of_nat 0)) with 0 in Hn.
    assert (Hle : b <= piQ) by lra.
    split.
    + cbn [lowerAngle]. unfold Math_PI, Js.gt.
      now rewrite (proj2 (lt_Num_false piQ b) Hle).
    + split; [exact Hlow|]. split; [exact Hle|].
      exists 0%Z. change (inject_Z 0) with 0. ring.
  - rewrite inject_succ in Hn.
    rewrite lowerAngle_step. unfold Math_PI, Js.gt.
    destruct (Js.lt (Num piQ) (Num b)) eqn:Hgt.
    + apply lt_Num in Hgt. rewrite twoPi_value. cbn [Js.sub].
      destruct (IH (b - 2 * piQ)) as (r & Hr & Hl & Hh & k & Hk);
        [lra | lra |].
      exists r. split; [exact Hr|]. split; [exact Hl|]. split; [exact Hh|].
      exists (k - 1)%Z. rewrite Hk. unfold Z.sub.
      rewrite inject_Z_plus. change (inject_Z (- (1))) with (- (1)). ring.
    + apply lt_Num_false in Hgt.
      exists b. split; [reflexivity|]. split; [exact Hlow|].
      split; [exact Hgt|].
      exists 0%Z. change (inject_Z 0) with 0. ring.
Qed.

(** Enough fuel for an angle: as many rounds as full turns fit in it. *)
Lemma fuel_covers (a : Q) (fuel : nat) :
  (angleFuel (Num a) <= fuel)%nat ->
  exists n, fuel = S n /\ Qabs a <= inject_Z (Z.of_nat n) * (2 * piQ).
Proof.
  pose proof piQ_pos as Hpi.
  unfold angleFuel. intros Hfuel.
  destruct fuel as [|n]; [lia|]. exists n. split; [reflexivity|].
  set (turns := Qabs a / (2 * piQ)) in *.
  assert (Hturns : 0 <= turns).
  { unfold turns. apply Qle_shift_div_l; [lra|].
    pose proof (Qabs_nonneg a). lra. }
  assert (Hceil : (0 <= Qceiling turns)%Z).
  { change 0%Z with (Qceiling 0). now apply Qceiling_resp_le. }
  assert (Hn : (Qceiling turns <= Z.of_nat n)%Z) by lia.
  assert (Hq : turns <= inject_Z (Z.of_nat n)).
  { apply Qle_trans with (inject_Z (Qceiling turns)).
    - apply Qle_ceiling.
    - rewrite <- Zle_Qle. exact Hn. }
  assert (Habs : Qabs a == turns * (2 * piQ)).
  { unfold turns. field. lra. }
  rewrite Habs. apply Qmult_le_compat_r; [exact Hq | lra].
Qed.

(** More fuel does not change a result. *)
Lemma raiseAngle_mono (fuel extra : nat) :
  forall a r,
    raiseAngle fuel a = Some r -> raiseAngle (fuel + extra) a = Some r.
Proof.
  induction fuel as [|fuel IH]; intros a r H; [discriminate H|].
  change (S fuel + extra)%nat with (S (fuel + extra)).
  rewrite raiseAngle_step in H |- *.
  destruct (Js.le a (Js.neg Math_PI)); [now apply IH | exact H].
Qed.

Lemma lowerAngle_mono (fuel extra : nat) :
  forall a r,
    lowerAngle fuel a = Some r -> lowerAngle (fuel + extra) a = Some r.
Proof.
  induction fuel as [|fuel IH]; intros a r H; [discriminate H|].
  change (S fuel + extra)%nat with (S (fuel + extra)).
  rewrite lowerAngle_step in H |- *.
  destruct (Js.gt a Math_PI); [now apply IH | exact H].
Qed.

Lemma normalizeAngleFuel_mono (fuel fuel' : nat) (a r : number) :
  (fuel <= fuel')%nat ->
  normalizeAngleFuel fuel a = Some r -> normalizeAngleFuel fuel' a = Some r.
Proof.
  intros Hle. replace fuel' with (fuel + (fuel' - fuel))%nat by lia.
  unfold normalizeAngleFuel.
  destruct (raiseAngle fuel a) as [raised|] eqn:Hraise; [|discriminate].
  intros Hlower.
  rewrite (raiseAngle_mono _ _ _ _ Hraise).
  now apply lowerAngle_mono.
Qed.

(** [normalizeAngle] ends on every finite angle, with a result in
    [(-pi, pi]] that differs from the angle by whole turns. *)
Lemma normalizeAngle_range (a : Q) :
  exists r,
    normalizeAngle (Num a) = Num r
    /\ (forall fuel, (angleFuel (Num a) <= fuel)%nat ->
                     normalizeAngleFuel fuel (Num a) = Some (Num r))
    /\ - piQ < r /\ r <= piQ
    /\ exists k : Z, r == a + inject_Z k * (2 * piQ).
Proof.
  pose proof piQ_pos as Hpi.
  destruct (fuel_covers a _ (Nat.le_refl (angleFuel (Num a))))
    as (n & Hfuel & Hn).
  pose proof (Qabs_Qle_condition a (inject_Z (Z.of_nat n) * (2 * piQ)))
    as [Hcond _].
  destruct (Hcond Hn) as [Hlo Hhi].
  destruct (raiseAngle_ok n a) as (r1 & Hr1 & Hlow1 & Hcase & k1 & Hk1);
    [lra|].
  destruct (lowerAngle_ok n r1) as (r & Hr & Hl & Hh & k2 & Hk2).
  - destruct Hcase as [Heq | Hle]; [rewrite Heq; lra|].
    assert (0 <= inject_Z (Z.of_nat n) * (2 * piQ)).
    { apply Qmult_le_0_compat; [|lra].
      change 0 with (inject_Z 0). rewrite <- Zle_Qle. lia. }
    lra.
  - exact Hlow1.
  - assert (Hrun : normalizeAngleFuel (angleFuel (Num a)) (Num a)
                   = Some (Num r)).
    { rewrite Hfuel. unfold normalizeAngleFuel. now rewrite Hr1. }
    exists r. split; [unfold normalizeAngle; now rewrite Hrun|].
    split.
    + intros fuel Hle. now apply normalizeAngleFuel_mono with (angleFuel (Num a)).
    + split; [exact Hl|]. split; [exact Hh|].
      exists (k1 + k2)%Z. rewrite Hk2, Hk1, inject_Z_plus. ring.
Qed.




(** * Further properties of the code *)

(** ** Interpolation *)

Lemma clampedFraction_range (value from to : Q) :
  0 <= clampedFraction value from to /\ clampedFraction value from to <= 1.
Proof.
  unfold clampedFraction. split.
  - apply Q.le_max_l.
  - apply Q.max_lub; [discriminate | apply Q.le_min_l].
Qed.


Lemma clampedFraction_low (v a b : Q) :
  a < b -> v <= a -> clampedFraction v a b == 0.
Proof.
  intros Hab Hv. unfold clampedFraction.
  assert (Hneg : (v - a) / (b - a) <= 0).
  { apply Qle_shift_div_r; lra. }
  rewrite (Q.min_r 1 ((v - a) / (b - a))) by lra.
  now rewrite (Q.max_l 0 ((v - a) / (b - a))).
Qed.



Lemma interpolation_between (c d f : Q) :
  0 <= f -> f <= 1 ->
  Qmin c d <= c + f * (d - c) /\ c + f * (d - c) <= Qmax c d.
Proof.
  intros H0 H1.
  destruct (Qlt_le_dec d c) as [Hdc | Hcd].
  - rewrite (Q.min_r c d) by lra. rewrite (Q.max_l c d) by lra.
    assert (0 <= f * (c - d)) by (apply Qmult_le_0_compat; lra).
    assert (0 <= (1 - f) * (c - d)) by (apply Qmult_le_0_compat; lra).
    split; lra.
  - rewrite (Q.min_l c d) by lra. rewrite (Q.max_r c d) by lra.
    assert (0 <= f * (d - c)) by (apply Qmult_le_0_compat; lra).
    assert (0 <= (1 - f) * (d - c)) by (apply Qmult_le_0_compat; lra).
    split; lra.
Qed.





(** A source range of length zero with two different targets makes [lerp]
    divide zero by zero: the result is [NaN]. *)
Theorem lerp_empty_source_range (v a b c d : Q) :
  a == b -> ~ c == d ->
  lerp (Num v) (Num a) (Num b) (Num c) (Num d) = NaN.
Proof.
  intros Hab Hcd. unfold lerp, Js.gt. simpl Js.strict_eq.
  destruct (Qeq_bool c d) eqn:Ecd.
  { apply Qeq_bool_iff in Ecd. contradiction. }
  assert (Hz : Qeq_bool (b - a) 0 = true).
  { apply Qeq_bool_iff. lra. }
  destruct (Js.lt (Num v) (Num a));
    [destruct (Js.lt (Num b) (Num a)) | destruct (Js.lt (Num b) (Num v))];
    cbn [Js.sub Js.div Js.add Js.mul]; rewrite Hz; reflexivity.
Qed.

Lemma lerp_empty_source_range_witness :
  lerp (Num 5) (Num 5) (Num 5) (Num 0) (Num 255) = NaN.
Proof.
  apply (lerp_empty_source_range 5 5 5 0 255).
  - reflexivity.
  - discriminate.
Defined.

(** ** Gradient resolution between two stops *)

Lemma stepLoop_at (i : nat) :
  forall (stops : list GradientStop) (colorType : ColorType) (value : number)
         (stop next : GradientStop),
  sortedByPosition stops = true ->
  nth_error stops i = Some stop ->
  nth_error stops (S i) = Some next ->
  brackets value stop next = true ->
  stepLoop stops colorType value = Some (stopColor stop colorType).
Proof.
  induction i as [|i IH]; intros stops colorType value stop next Hs Hi Hn Hb.
  - destruct stops as [|s0 [|s1 rest]]; try discriminate.
    injection Hi as <-. injection Hn as <-.
    now rewrite stepLoop_step, Hb.
  - destruct stops as [|s0 [|s1 rest]]; try discriminate Hi.
    { destruct i; discriminate Hi. }
    assert (Hskip : brackets value s0 s1 = false).
    { unfold brackets. apply andb_false_iff. right. apply le_not_lt.
      apply (sorted_nth_le i s1 rest stop value).
      - now apply sorted_tail with s0.
      - exact Hi.
      - unfold brackets in Hb. apply andb_true_iff in Hb. apply Hb. }
    rewrite stepLoop_step, Hskip. apply (IH _ _ _ stop next); auto.
    now apply sorted_tail with s0.
Qed.

(** The linear colour between two neighbouring stops of a sorted list. *)
Lemma linear_between (stops : list GradientStop) (colorType : ColorType)
    (i : nat) (stop next : GradientStop) (v pa pb : Q) :
  sortedByPosition stops = true ->
  nth_error stops i = Some stop ->
  nth_error stops (S i) = Some next ->
  position stop = Num pa ->
  position next = Num pb ->
  pa <= v -> v < pb ->
  isHexColor (stopColor stop colorType) = true ->
  isHexColor (stopColor next colorType) = true ->
  linearColorForValue stops colorType (Num v)
  = interpolatedColor v pa pb (stopColor stop colorType)
                      (stopColor next colorType).
Proof.
  intros Hs Hi Hn Hpa Hpb Hle Hlt Hc1 Hc2.
  assert (Hb : brackets (Num v) stop next = true).
  { apply brackets_true. now exists v, pa, pb. }
  destruct stops as [|first rest]; [destruct i; discriminate Hi|].
  destruct (bracketed_inside i first rest (Num v) stop next Hs Hi Hn Hb)
    as [Hlow Hhigh].
  unfold linearColorForValue. rewrite Hlow.
  unfold Js.ge in Hhigh |- *. rewrite Hhigh.
  rewrite (linearLoop_at i _ colorType (Num v) stop next Hs Hi Hn Hb).
  rewrite Hpa, Hpb.
  repeat match goal with
         | |- context [channel ?s colorType ?k] =>
             let H := fresh in
             assert (H : channel s colorType k
                         = Js.ofZ (hexByteAt (stopColor s colorType) k))
               by (apply channel_hex; auto);
             rewrite H; clear H
         end.
  destruct (lerp_bracketed v pa pb (hexByteAt (stopColor stop colorType) 1)
              (hexByteAt (stopColor next colorType) 1) Hle Hlt)
    as (r & -> & Hr).
  destruct (lerp_bracketed v pa pb (hexByteAt (stopColor stop colorType) 3)
              (hexByteAt (stopColor next colorType) 3) Hle Hlt)
    as (g & -> & Hg).
  destruct (lerp_bracketed v pa pb (hexByteAt (stopColor stop colorType) 5)
              (hexByteAt (stopColor next colorType) 5) Hle Hlt)
    as (b & -> & Hb').
  unfold rgbString, interpolatedColor.
  rewrite !showFloor_Num, Hr, Hg, Hb'. reflexivity.
Qed.

Lemma interpolatedChannel_between (v a b : Q) (cFrom cTo : Z) :
  (Z.min cFrom cTo <= interpolatedChannel v a b cFrom cTo <= Z.max cFrom cTo)%Z.
Proof.
  unfold interpolatedChannel.
  destruct (clampedFraction_range v a b) as [H0 H1].
  destruct (interpolation_between (inject_Z cFrom) (inject_Z cTo)
              (clampedFraction v a b) H0 H1) as [Hlow Hhigh].
  set (r := inject_Z cFrom
            + clampedFraction v a b * (inject_Z cTo - inject_Z cFrom)) in *.
  assert (Hmin : inject_Z (Z.min cFrom cTo) <= r).
  { destruct (Z.min_spec cFrom cTo) as [[Hlt ->] | [Hle ->]].
    - rewrite (Q.min_l (inject_Z cFrom) (inject_Z cTo)) in Hlow; [exact Hlow|].
      rewrite <- Zle_Qle. lia.
    - rewrite (Q.min_r (inject_Z cFrom) (inject_Z cTo)) in Hlow; [exact Hlow|].
      now rewrite <- Zle_Qle. }
  assert (Hmax : r <= inject_Z (Z.max cFrom cTo)).
  { destruct (Z.max_spec cFrom cTo) as [[Hlt ->] | [Hle ->]].
    - rewrite (Q.max_r (inject_Z cFrom) (inject_Z cTo)) in Hhigh; [exact Hhigh|].
      rewrite <- Zle_Qle. lia.
    - rewrite (Q.max_l (inject_Z cFrom) (inject_Z cTo)) in Hhigh; [exact Hhigh|].
      now rewrite <- Zle_Qle. }
  split.
  - rewrite <- (Qfloor_Z (Z.min cFrom cTo)). now apply Qfloor_resp_le.
  - rewrite <- (Qfloor_Z (Z.max cFrom cTo)). now apply Qfloor_resp_le.
Qed.

Lemma interpolatedChannel_at_from (a b : Q) (cFrom cTo : Z) :
  a < b -> interpolatedChannel a a b cFrom cTo = cFrom.
Proof.
  intros Hab. unfold interpolatedChannel.
  transitivity (Qfloor (inject_Z cFrom)); [|apply Qfloor_Z].
  apply Qfloor_comp.
  rewrite (clampedFraction_low a a b Hab (Qle_refl a)). ring.
Qed.

Lemma gradient_linear (stops : list GradientStop) (colorType : ColorType)
    (value : number) :
  gradientColorForValue (mkGradient "linear" stops) colorType value
  = linearColorForValue stops colorType value.
Proof. reflexivity. Qed.

Lemma gradient_steps (stops : list GradientStop) (colorType : ColorType)
    (value : number) :
  gradientColorForValue (mkGradient "steps" stops) colorType value
  = stepColorForValue stops colorType value.
Proof. reflexivity. Qed.

(** In a sorted stepped gradient a value bracketed by two neighbouring
    stops gets the colour of the lower one as it is. *)
Theorem step_bracket_exact
    (stops : list GradientStop) (colorType : ColorType) (value : number)
    (i : nat) (stop next : GradientStop) :
  sortedByPosition stops = true ->
  nth_error stops i = Some stop ->
  nth_error stops (S i) = Some next ->
  brackets value stop next = true ->
  gradientColorForValue (mkGradient "steps" stops) colorType value
  = stopColor stop colorType.
Proof.
  intros Hs Hi Hn Hb.
  destruct stops as [|first rest]; [destruct i; discriminate Hi|].
  destruct (bracketed_inside i first rest value stop next Hs Hi Hn Hb)
    as [Hlow Hhigh].
  rewrite gradient_steps.
  unfold stepColorForValue. rewrite Hlow.
  unfold Js.ge in Hhigh |- *. rewrite Hhigh.
  now rewrite (stepLoop_at i _ colorType value stop next Hs Hi Hn Hb).
Qed.

Lemma step_bracket_exact_witness :
  gradientColorForValue (mkGradient "steps" redThenGreen) StrokeColor (Num 25)
  = "#ff0000".
Proof.
  apply (step_bracket_exact redThenGreen StrokeColor (Num 25) 0
           (mkStop (Num 0) "#ff0000" "#ff0000" true)
           (mkStop (Num 50) "#00ff00" "#00ff00" true));
    reflexivity.
Defined.

(** At the position of a stop that has a later neighbour further up, the
    linear gradient does not return the stop's colour string: it returns
    [rgb(r, g, b)] with the stop's own three channel values. *)
Theorem linear_at_stop_position
    (stops : list GradientStop) (colorType : ColorType) (i : nat)
    (stop next : GradientStop) (pa pb : Q) :
  sortedByPosition stops = true ->
  nth_error stops i = Some stop ->
  nth_error stops (S i) = Some next ->
  position stop = Num pa ->
  position next = Num pb ->
  pa < pb ->
  isHexColor (stopColor stop colorType) = true ->
  isHexColor (stopColor next colorType) = true ->
  gradientColorForValue (mkGradient "linear" stops) colorType (Num pa)
  = "rgb(" ++ Js.showZ (hexByteAt (stopColor stop colorType) 1)
    ++ ", " ++ Js.showZ (hexByteAt (stopColor stop colorType) 3)
    ++ ", " ++ Js.showZ (hexByteAt (stopColor stop colorType) 5) ++ ")".
Proof.
  intros Hs Hi Hn Hpa Hpb Hlt Hc1 Hc2.
  rewrite gradient_linear.
  rewrite (linear_between stops colorType i stop next pa pa pb
             Hs Hi Hn Hpa Hpb (Qle_refl pa) Hlt Hc1 Hc2).
  unfold interpolatedColor.
  now rewrite !(interpolatedChannel_at_from pa pb _ _ Hlt).
Qed.

Lemma linear_at_stop_position_witness :
  gradientColorForValue (mkGradient "linear" redThenGreen) StrokeColor (Num 0)
  = "rgb(255, 0, 0)".
Proof.
  apply (linear_at_stop_position redThenGreen StrokeColor 0
           (mkStop (Num 0) "#ff0000" "#ff0000" true)
           (mkStop (Num 50) "#00ff00" "#00ff00" true) 0 50);
    reflexivity.
Defined.

(** Between two stops with [#RRGGBB] colours every channel of the linear
    colour lies between the two stops' values of that channel, so within
    0 and 255. *)
Theorem linear_channels_bounded
    (stops : list GradientStop) (colorType : ColorType) (i : nat)
    (stop next : GradientStop) (v pa pb : Q) :
  sortedByPosition stops = true ->
  nth_error stops i = Some stop ->
  nth_error stops (S i) = Some next ->
  position stop = Num pa ->
  position next = Num pb ->
  pa <= v -> v < pb ->
  isHexColor (stopColor stop colorType) = true ->
  isHexColor (stopColor next colorType) = true ->
  exists r g b : Z,
    gradientColorForValue (mkGradient "linear" stops) colorType (Num v)
    = "rgb(" ++ Js.showZ r ++ ", " ++ Js.showZ g ++ ", " ++ Js.showZ b ++ ")"
    /\ (Z.min (hexByteAt (stopColor stop colorType) 1)
              (hexByteAt (stopColor next colorType) 1)
        <= r <= Z.max (hexByteAt (stopColor stop colorType) 1)
                      (hexByteAt (stopColor next colorType) 1))%Z
    /\ (Z.min (hexByteAt (stopColor stop colorType) 3)
              (hexByteAt (stopColor next colorType) 3)
        <= g <= Z.max (hexByteAt (stopColor stop colorType) 3)
                      (hexByteAt (stopColor next colorType) 3))%Z
    /\ (Z.min (hexByteAt (stopColor stop colorType) 5)
              (hexByteAt (stopColor next colorType) 5)
        <= b <= Z.max (hexByteAt (stopColor stop colorType) 5)
                      (hexByteAt (stopColor next colorType) 5))%Z
    /\ (0 <= r <= 255 /\ 0 <= g <= 255 /\ 0 <= b <= 255)%Z.
Proof.
  intros Hs Hi Hn Hpa Hpb Hle Hlt Hc1 Hc2.
  rewrite gradient_linear.
  rewrite (linear_between stops colorType i stop next v pa pb
             Hs Hi Hn Hpa Hpb Hle Hlt Hc1 Hc2).
  unfold interpolatedColor.
  pose proof (fun k Hk => proj2 (channel_hex stop colorType Hc1 k Hk)) as Hstop.
  pose proof (fun k Hk => proj2 (channel_hex next colorType Hc2 k Hk)) as Hnext.
  pose proof (Hstop 1%nat (or_introl eq_refl)).
  pose proof (Hstop 3%nat (or_intror (or_introl eq_refl))).
  pose proof (Hstop 5%nat (or_intror (or_intror eq_refl))).
  pose proof (Hnext 1%nat (or_introl eq_refl)).
  pose proof (Hnext 3%nat (or_intror (or_introl eq_refl))).
  pose proof (Hnext 5%nat (or_intror (or_intror eq_refl))).
  pose proof (interpolatedChannel_between v pa pb
                (hexByteAt (stopColor stop colorType) 1)
                (hexByteAt (stopColor next colorType) 1)).
  pose proof (interpolatedChannel_between v pa pb
                (hexByteAt (stopColor stop colorType) 3)
                (hexByteAt (stopColor next colorType) 3)).
  pose proof (interpolatedChannel_between v pa pb
                (hexByteAt (stopColor stop colorType) 5)
                (hexByteAt (stopColor next colorType) 5)).
  eexists. eexists. eexists. split; [reflexivity|].
  repeat split; lia.
Qed.

Lemma linear_channels_bounded_witness :
  exists r g b : Z,
    gradientColorForValue (mkGradient "linear" redThenGreen) FillColor (Num 20)
    = "rgb(" ++ Js.showZ r ++ ", " ++ Js.showZ g ++ ", " ++ Js.showZ b ++ ")"
    /\ (0 <= r <= 255 /\ 0 <= g <= 255 /\ 0 <= b <= 255)%Z.
Proof.
  destruct (linear_channels_bounded redThenGreen FillColor 0
              (mkStop (Num 0) "#ff0000" "#ff0000" true)
              (mkStop (Num 50) "#00ff00" "#00ff00" true) 20 0 50)
    as (r & g & b & H & _ & _ & _ & Hrange); try reflexivity.
  - discriminate.
  - exists r, g, b. split; assumption.
Defined.

(** ** Sorting the stops *)

Lemma insertStop_perm (stop : GradientStop) (sorted : list GradientStop) :
  Permutation (insertStop stop sorted) (stop :: sorted).
Proof.
  induction sorted as [|other rest IH]; [apply Permutation_refl|].
  simpl. destruct (Js.lt (position other) (position stop)).
  - apply Permutation_trans with (other :: stop :: rest).
    + now apply perm_skip.
    + apply perm_swap.
  - apply Permutation_refl.
Qed.

Lemma sortStops_perm (stops : list GradientStop) :
  Permutation (sortStops stops) stops.
Proof.
  induction stops as [|stop rest IH]; [apply perm_nil|].
  simpl. apply Permutation_trans with (stop :: sortStops rest).
  - apply insertStop_perm.
  - now apply perm_skip.
Qed.

Lemma numericPositions_perm (l l' : list GradientStop) :
  Permutation l l' -> numericPositions l = true -> numericPositions l' = true.
Proof.
  unfold numericPositions. intros Hperm H.
  apply forallb_forall. intros stop Hin.
  apply (proj1 (forallb_forall _ _) H).
  apply Permutation_in with l'; [now apply Permutation_sym | exact Hin].
Qed.

Lemma numericPositions_cons (stop : GradientStop) (rest : list GradientStop) :
  numericPositions (stop :: rest) = true <->
  (exists p, position stop = Num p) /\ numericPositions rest = true.
Proof.
  unfold numericPositions. simpl. rewrite andb_true_iff. split.
  - intros [H Hrest]. split; [|exact Hrest].
    destruct (position stop) as [|p]; [discriminate | now exists p].
  - intros [[p Hp] Hrest]. rewrite Hp. now split.
Qed.

Lemma sorted_cons (stop next : GradientStop) (rest : list GradientStop) :
  sortedByPosition (stop :: next :: rest) = true <->
  Js.le (position stop) (position next) = true
  /\ sortedByPosition (next :: rest) = true.
Proof.
  change (sortedByPosition (stop :: next :: rest))
    with (Js.le (position stop) (position next)
          && sortedByPosition (next :: rest))%bool.
  apply andb_true_iff.
Qed.

Lemma insertStop_sorted (stop : GradientStop) (sorted : list GradientStop) :
  numericPositions (stop :: sorted) = true ->
  sortedByPosition sorted = true ->
  sortedByPosition (insertStop stop sorted) = true.
Proof.
  induction sorted as [|other rest IH]; intros Hnum Hs; [reflexivity|].
  apply numericPositions_cons in Hnum. destruct Hnum as [[p Hp] Hnum].
  pose proof Hnum as Hnum'.
  apply numericPositions_cons in Hnum'. destruct Hnum' as [[q Hq] Hrest].
  simpl insertStop. rewrite Hp, Hq.
  destruct (Js.lt (Num q) (Num p)) eqn:Hlt.
  - apply lt_Num in Hlt.
    assert (IH' : sortedByPosition (insertStop stop rest) = true).
    { apply IH.
      - apply numericPositions_cons. split; [now exists p | exact Hrest].
      - now apply sorted_tail with other. }
    destruct rest as [|third rest].
    + simpl. rewrite Hp, Hq.
      rewrite (proj2 (le_Num q p)) by lra. reflexivity.
    + simpl insertStop in IH' |- *.
      destruct (Js.lt (position third) (position stop)).
      * apply sorted_cons. split; [|exact IH'].
        now apply sorted_head_le with rest.
      * apply sorted_cons. split; [|exact IH'].
        rewrite Hp, Hq. apply le_Num. lra.
  - apply lt_Num_false in Hlt.
    apply sorted_cons. split; [|exact Hs].
    rewrite Hp, Hq. now apply le_Num.
Qed.

Lemma sortStops_sorted (stops : list GradientStop) :
  numericPositions stops = true -> sortedByPosition (sortStops stops) = true.
Proof.
  induction stops as [|stop rest IH]; intros Hnum; [reflexivity|].
  apply numericPositions_cons in Hnum. destruct Hnum as [Hp Hrest].
  simpl. apply insertStop_sorted; [|now apply IH].
  apply numericPositions_cons. split; [exact Hp|].
  apply numericPositions_perm with rest; [|exact Hrest].
  apply Permutation_sym, sortStops_perm.
Qed.

Lemma sortStops_fixed (stops : list GradientStop) :
  sortedByPosition stops = true -> sortStops stops = stops.
Proof.
  induction stops as [|stop rest IH]; intros Hs; [reflexivity|].
  simpl. rewrite IH by now apply sorted_tail with stop.
  destruct rest as [|next rest]; [reflexivity|].
  simpl. now rewrite (le_not_lt _ _ (sorted_head_le _ _ _ Hs)).
Qed.

(** For stop positions that are numbers, [sortedGradient] keeps the type
    and the stops of the configured gradient, rearranged in ascending
    order of position; stops that are already in order stay as they are,
    so sorting twice changes nothing more. *)
Theorem sortedGradient_sorted (gradient : Gradient) :
  numericPositions (stops gradient) = true ->
  type (sortedGradient gradient) = type gradient
  /\ Permutation (stops (sortedGradient gradient)) (stops gradient)
  /\ sortedByPosition (stops (sortedGradient gradient)) = true
  /\ (sortedByPosition (stops gradient) = true ->
      stops (sortedGradient gradient) = stops gradient)
  /\ sortedGradient (sortedGradient gradient) = sortedGradient gradient.
Proof.
  intros Hnum. split; [reflexivity|]. split; [apply sortStops_perm|].
  split; [now apply sortStops_sorted|]. split; [apply sortStops_fixed|].
  unfold sortedGradient. simpl. f_equal.
  apply sortStops_fixed. now apply sortStops_sorted.
Qed.

Lemma sortedGradient_sorted_witness :
  stops (sortedGradient
           (mkGradient "steps"
              [ mkStop (Num 50) "#00ff00" "#00ff00" true;
                mkStop (Num 0) "#ff0000" "#ff0000" true ]))
  = redThenGreen
  /\ sortedByPosition redThenGreen = true.
Proof.
  split; [reflexivity|].
  apply (proj1 (proj2 (proj2
           (sortedGradient_sorted
              (mkGradient "steps"
                 [ mkStop (Num 50) "#00ff00" "#00ff00" true;
                   mkStop (Num 0) "#ff0000" "#ff0000" true ])
              eq_refl)))).
Defined.

(** With the stops sorted as the renderer sorts them, a stepped gradient
    whose stop positions are numbers gives every value that is a number
    the colour of one of the configured stops, and never falls through to
    the emergency colour. *)
Theorem sorted_steps_use_configured_stop
    (gradient : Gradient) (colorType : ColorType) (v : Q) :
  type gradient = "steps" ->
  stops gradient <> [] ->
  numericPositions (stops gradient) = true ->
  (exists stop,
     In stop (stops gradient)
     /\ gradientColorForValue (sortedGradient gradient) colorType (Num v)
        = stopColor stop colorType)
  /\ stepExit (stops (sortedGradient gradient)) (Num v) <> ExitFallback.
Proof.
  intros Htype Hne Hnum.
  unfold gradientColorForValue, sortedGradient. simpl. rewrite Htype.
  simpl String.eqb. cbv iota.
  pose proof (sortStops_perm (stops gradient)) as Hperm.
  pose proof (numericPositions_perm _ _ (Permutation_sym Hperm) Hnum) as Hnum'.
  destruct (sortStops (stops gradient)) as [|first rest] eqn:Hsorted.
  { apply Permutation_nil in Hperm. contradiction. }
  assert (Hin : forall stop, In stop (first :: rest) -> In stop (stops gradient)).
  { intros stop. now apply Permutation_in. }
  unfold stepColorForValue, stepExit.
  destruct (Js.lt (Num v) (position first)) eqn:Hlow.
  { split; [|discriminate]. exists first. split; [apply Hin; now left | reflexivity]. }
  destruct (Js.ge (Num v) (position (last (first :: rest) first))) eqn:Hhigh.
  { split; [|discriminate]. exists (last (first :: rest) first).
    split; [apply Hin, last_In | reflexivity]. }
  destruct (proj1 (numericPositions_cons first rest) Hnum') as [[pf Hpf] _].
  assert (Hlast : exists pl, position (last (first :: rest) first) = Num pl).
  { pose proof (proj1 (forallb_forall _ _) Hnum' _ (last_In first rest)) as Hn.
    cbv beta in Hn.
    destruct (position (last (first :: rest) first)) as [|pl];
      [discriminate Hn | now exists pl]. }
  destruct Hlast as (pl & Hpl).
  assert (Hle : Js.le (position first) (Num v) = true).
  { rewrite Hpf in *. apply le_Num. now apply lt_Num_false. }
  assert (Hlt : Js.lt (Num v) (position (last (first :: rest) first)) = true).
  { unfold Js.ge in Hhigh. rewrite Hpl in *. apply lt_Num.
    now apply le_Num_false. }
  destruct (stepLoop_finds rest first colorType v Hnum' Hle Hlt)
    as (stop & Hstop & Hloop).
  destruct (stepLoop_finds rest first StrokeColor v Hnum' Hle Hlt)
    as (stop' & _ & Hloop').
  rewrite Hloop, Hloop'. split; [|discriminate].
  exists stop. split; [now apply Hin | reflexivity].
Qed.

Lemma sorted_steps_use_configured_stop_witness :
  exists stop,
    In stop [ mkStop (Num 50) "#00ff00" "#00ff00" true;
              mkStop (Num 0) "#ff0000" "#ff0000" true ]
    /\ gradientColorForValue
         (sortedGradient
            (mkGradient "steps"
               [ mkStop (Num 50) "#00ff00" "#00ff00" true;
                 mkStop (Num 0) "#ff0000" "#ff0000" true ]))
         FillColor (Num 25)
       = stopColor stop FillColor.
Proof.
  apply (sorted_steps_use_configured_stop
           (mkGradient "steps"
              [ mkStop (Num 50) "#00ff00" "#00ff00" true;
                mkStop (Num 0) "#ff0000" "#ff0000" true ])
           FillColor 25 eq_refl).
  - discriminate.
  - reflexivity.
Defined.

(** ** Angles *)

Lemma normalizeAngle_in_range (a : Q) :
  - piQ < a -> a <= piQ -> normalizeAngle (Num a) = Num a.
Proof.
  intros Hlow Hhigh. unfold normalizeAngle, normalizeAngleFuel, angleFuel.
  rewrite raiseAngle_step. unfold Math_PI, Js.neg.
  rewrite (proj2 (le_Num_false a (- piQ)) Hlow).
  rewrite lowerAngle_step. unfold Math_PI, Js.gt.
  now rewrite (proj2 (lt_Num_false piQ a) Hhigh).
Qed.

(** [normalizeAngle] leaves an angle of [(-pi, pi]] as it is and returns
    [NaN] for [NaN]; normalizing a second time changes nothing. *)
Theorem normalizeAngle_idempotent (angle : number) :
  (forall a, angle = Num a -> - piQ < a -> a <= piQ ->
             normalizeAngle angle = angle)
  /\ normalizeAngle NaN = NaN
  /\ normalizeAngle (normalizeAngle angle) = normalizeAngle angle.
Proof.
  split; [|split].
  - intros a -> Hlow Hhigh. now apply normalizeAngle_in_range.
  - reflexivity.
  - destruct angle as [|a]; [reflexivity|].
    destruct (normalizeAngle_range a) as (r & -> & _ & Hlow & Hhigh & _).
    now apply normalizeAngle_in_range.
Qed.

Lemma normalizeAngle_idempotent_witness :
  normalizeAngle (Num 1) = Num 1.
Proof.
  apply (proj1 (normalizeAngle_idempotent (Num 1)) 1 eq_refl);
    [reflexivity | discriminate].
Defined.

Lemma whole_turns_zero (m : Z) :
  - (2 * piQ) < inject_Z m * (2 * piQ) ->
  inject_Z m * (2 * piQ) < 2 * piQ ->
  m = 0%Z.
Proof.
  pose proof piQ_pos as Hpi. intros Hlow Hhigh.
  assert (H1 : inject_Z m < 1).
  { apply Qnot_le_lt. intros Hge.
    assert (1 * (2 * piQ) <= inject_Z m * (2 * piQ))
      by (apply Qmult_le_compat_r; lra).
    lra. }
  assert (H2 : - (1) < inject_Z m).
  { apply Qnot_le_lt. intros Hle.
    assert (inject_Z m * (2 * piQ) <= - (1) * (2 * piQ))
      by (apply Qmult_le_compat_r; lra).
    lra. }
  change 1 with (inject_Z 1) in H1. change (- (1)) with (inject_Z (-1)) in H2.
  rewrite <- Zlt_Qlt in H1, H2. lia.
Qed.

(** Angles that differ by whole turns normalize to the same angle. *)
Theorem normalizeAngle_periodic (a : Q) (k : Z) :
  num_eq (normalizeAngle (Num (a + inject_Z k * (2 * piQ))))
         (normalizeAngle (Num a)).
Proof.
  destruct (normalizeAngle_range a) as (r & -> & _ & Hl & Hh & k1 & Hk1).
  destruct (normalizeAngle_range (a + inject_Z k * (2 * piQ)))
    as (r' & -> & _ & Hl' & Hh' & k2 & Hk2).
  simpl.
  assert (Hdiff : r' - r == inject_Z (k + k2 - k1) * (2 * piQ)).
  { rewrite Hk1, Hk2. unfold Z.sub. rewrite !inject_Z_plus, inject_Z_opp. ring. }
  assert (Hzero : (k + k2 - k1 = 0)%Z).
  { apply whole_turns_zero; rewrite <- Hdiff; lra. }
  rewrite Hzero in Hdiff. change (inject_Z 0) with 0 in Hdiff. lra.
Qed.

(** [rad2deg] undoes [deg2rad] and [deg2rad] undoes [rad2deg], on every
    finite angle; 180 degrees are [Math.PI] radians. *)
Theorem deg2rad_rad2deg (angle : Q) :
  num_eq (rad2deg (deg2rad (Num angle))) (Num angle)
  /\ num_eq (deg2rad (rad2deg (Num angle))) (Num angle)
  /\ num_eq (deg2rad (Num 180)) Math_PI
  /\ num_eq (rad2deg Math_PI) (Num 180).
Proof.
  pose proof piQ_pos as Hpi.
  assert (Hz : Qeq_bool piQ 0 = false) by reflexivity.
  unfold rad2deg, deg2rad, Math_PI.
  cbn [Js.mul Js.div]. rewrite Hz.
  change (Qeq_bool 180 0) with false. cbv iota.
  cbn [Js.mul Js.div]. rewrite Hz.
  change (Qeq_bool 180 0) with false. cbv iota.
  unfold num_eq. repeat split; field; lra.
Qed.

(** ** Unit vectors and the offset axis *)

(** When [Math.sqrt] is exact on the squared length and the length is not
    zero, [unitVector] returns a vector of length one that points the same
    way. *)
Theorem unitVector_unit_length (M : Runtime) (a b s : Q) :
  Math_sqrt M (Num (a * a + b * b)) = Num s ->
  s * s == a * a + b * b ->
  ~ s == 0 ->
  exists ux uy,
    unitVector M (mkPoint (Num a) (Num b)) = mkPoint (Num ux) (Num uy)
    /\ ux * ux + uy * uy == 1
    /\ ux * s == a /\ uy * s == b.
Proof.
  intros Hsqrt Hsq Hnz. unfold unitVector. cbn [x y Js.mul Js.add].
  rewrite Hsqrt. cbn [Js.div].
  assert (Hz : Qeq_bool s 0 = false).
  { destruct (Qeq_bool s 0) eqn:E; [|reflexivity].
    apply Qeq_bool_iff in E. contradiction. }
  rewrite Hz. exists (a / s), (b / s). split; [reflexivity|].
  split; [|split; field; exact Hnz].
  assert (Hexp : a / s * (a / s) + b / s * (b / s)
                 == (a * a + b * b) / (s * s)) by (field; exact Hnz).
  rewrite Hexp, <- Hsq. field. exact Hnz.
Qed.

Lemma unitVector_unit_length_witness :
  exists ux uy,
    unitVector coarseMath (mkPoint (Num 3) (Num 4)) = mkPoint (Num ux) (Num uy)
    /\ ux * ux + uy * uy == 1.
Proof.
  destruct (unitVector_unit_length coarseMath 3 4 5) as (ux & uy & H & Hlen & _).
  - reflexivity.
  - reflexivity.
  - discriminate.
  - exists ux, uy. split; assumption.
Defined.

(** The axis along which the strokes of a multi-stroke edge are laid out
    is perpendicular to the chord from [start] to [end], as long as the
    chord's length is a number other than zero. *)
Theorem offset_axis_perpendicular
    (M : Runtime) (strokeWidths : list number) (sx sy ex ey s : Q) :
  (1 < List.length strokeWidths)%nat ->
  Math_sqrt M (Num ((sy - ey) * (sy - ey) + - (sx - ex) * - (sx - ex)))
  = Num s ->
  ~ s == 0 ->
  exists ux uy,
    offsetUnitVectorFor M strokeWidths (mkPoint (Num sx) (Num sy))
                        (mkPoint (Num ex) (Num ey))
    = mkPoint (Num ux) (Num uy)
    /\ ux * (sx - ex) + uy * (sy - ey) == 0.
Proof.
  intros Hmany Hsqrt Hnz. unfold offsetUnitVectorFor.
  apply Nat.ltb_lt in Hmany. rewrite Hmany.
  unfold unitVector. cbn [x y Js.sub Js.neg Js.mul Js.add].
  rewrite Hsqrt. cbn [Js.div].
  assert (Hz : Qeq_bool s 0 = false).
  { destruct (Qeq_bool s 0) eqn:E; [|reflexivity].
    apply Qeq_bool_iff in E. contradiction. }
  rewrite Hz. eexists. eexists. split; [reflexivity|].
  field. exact Hnz.
Qed.

Lemma offset_axis_perpendicular_witness :
  exists ux uy,
    offsetUnitVectorFor coarseMath [Num 2; Num 1; Num 2]
                        (mkPoint (Num 25) (Num 10)) (mkPoint (Num 125) (Num 10))
    = mkPoint (Num ux) (Num uy)
    /\ ux * (25 - 125) + uy * (10 - 10) == 0.
Proof.
  apply (offset_axis_perpendicular coarseMath [Num 2; Num 1; Num 2]
           25 10 125 10 100).
  - simpl. lia.
  - reflexivity.
  - discriminate.
Defined.

Lemma add_nan (a : number) : Js.add a NaN = NaN.
Proof. now destruct a. Qed.

Lemma strokeAt_nan (segment : Segment) (centerOffset width : number) :
  Forall (fun point => point = mkPoint NaN NaN)
         (pathPoints (d (strokeAt (mkPoint NaN NaN) segment centerOffset width))).
Proof.
  unfold strokeAt, translate. cbn [x y Js.mul].
  destruct (control1 segment), (control2 segment); cbn [d pathPoints];
    repeat constructor; now rewrite !add_nan.
Qed.

Lemma strokeLoop_nan (segment : Segment) (strokeWidths : list number) :
  forall isSpacing currentOffset stroke,
    In stroke (strokeLoop (mkPoint NaN NaN) segment strokeWidths isSpacing
                          currentOffset) ->
    Forall (fun point => point = mkPoint NaN NaN) (pathPoints (d stroke)).
Proof.
  induction strokeWidths as [|w rest IH]; intros isSpacing currentOffset stroke;
    [intros []|].
  destruct isSpacing; simpl.
  - intros [<- | Hin]; [apply strokeAt_nan | now apply IH in Hin].
  - intros Hin. now apply IH in Hin.
Qed.

(** The division by the chord's length is not guarded: for a multi-stroke
    edge whose two ends coincide the offset axis is (NaN, NaN), and every
    point of every emitted path has [NaN] coordinates. *)
Theorem coincident_ends_give_nan
    (M : Runtime) (state : WeathermapRendererState) (segment : Segment)
    (a b a' b' : Q) :
  start segment = mkPoint (Num a) (Num b) ->
  endPoint segment = mkPoint (Num a') (Num b') ->
  a == a' -> b == b' ->
  (forall z, z == 0 -> exists s, Math_sqrt M (Num z) = Num s /\ s == 0) ->
  (1 < List.length
         (effectiveStrokeWidths
            (configStrokeWidth state)
            (getWeathermapStyle state (edgeStyleName segment))))%nat ->
  unitVector M (mkPoint (Num (b - b')) (Num (- (a - a')))) = mkPoint NaN NaN
  /\ forall stroke,
       In stroke (makeAndPlaceEdge M state segment) ->
       Forall (fun point => point = mkPoint NaN NaN) (pathPoints (d stroke)).
Proof.
  intros Hstart Hend Ha Hb Hsqrt Hmany.
  assert (Hunit : unitVector M (mkPoint (Num (b - b')) (Num (- (a - a'))))
                  = mkPoint NaN NaN).
  { unfold unitVector. cbn [x y Js.mul Js.add].
    destruct (Hsqrt ((b - b') * (b - b') + - (a - a') * - (a - a')))
      as (s & -> & Hs).
    { rewrite Ha, Hb. ring. }
    cbn [Js.div]. rewrite (proj2 (Qeq_bool_iff s 0) Hs). reflexivity. }
  split; [exact Hunit|].
  intros stroke. unfold makeAndPlaceEdge, offsetUnitVectorFor.
  apply Nat.ltb_lt in Hmany. rewrite Hmany, Hstart, Hend.
  cbn [x y Js.sub Js.neg]. rewrite Hunit. apply strokeLoop_nan.
Qed.

Lemma coarseSqrt_zero (z : Q) :
  z == 0 -> exists s, coarseSqrt (Num z) = Num s /\ s == 0.
Proof.
  destruct z as [n dz]. intros Hz.
  assert (Hn : n = 0%Z) by (unfold Qeq in Hz; simpl in Hz; lia). subst n.
  exists (Qred (Z.sqrt (0 * Zpos dz * 10 ^ 12) # (dz * 10 ^ 6))).
  split; [reflexivity|]. rewrite Qred_correct. reflexivity.
Qed.

Lemma coincident_ends_give_nan_witness :
  Forall
    (fun stroke =>
       Forall (fun point => point = mkPoint NaN NaN) (pathPoints (d stroke)))
    (makeAndPlaceEdge coarseMath scenarioState
       (mkSegment (mkPoint (Num 25) (Num 10)) None None
                  (mkPoint (Num 25) (Num 10)) None (Some "2 1 2"))).
Proof.
  apply Forall_forall.
  refine (proj2 (coincident_ends_give_nan coarseMath scenarioState
                   (mkSegment (mkPoint (Num 25) (Num 10)) None None
                              (mkPoint (Num 25) (Num 10)) None (Some "2 1 2"))
                   25 10 25 10 eq_refl eq_refl eq_refl eq_refl
                   coarseSqrt_zero _)).
  simpl. lia.
Defined.

(** ** Halving from either end *)

Lemma num_eq_sym (a b : number) : num_eq a b -> num_eq b a.
Proof. destruct a, b; simpl; auto. intros H. now symmetry. Qed.

Lemma num_eq_trans (a b c : number) : num_eq a b -> num_eq b c -> num_eq a c.
Proof.
  destruct a, b, c; simpl; auto; try contradiction.
  intros H1 H2. now rewrite H1.
Qed.

Lemma point_eq_refl (p : Point2D) : point_eq p p.
Proof. split; apply num_eq_refl. Qed.

Lemma point_eq_trans (p q r : Point2D) :
  point_eq p q -> point_eq q r -> point_eq p r.
Proof.
  intros [H1 H2] [H3 H4]. split; eapply num_eq_trans; eassumption.
Qed.

Lemma half_Num (p : Q) : Js.div (Num p) two = Num (p / 2).
Proof. reflexivity. Qed.

Lemma half_sum_comm (a b : number) :
  num_eq (Js.div (Js.add a b) two) (Js.div (Js.add b a) two).
Proof.
  destruct a as [|p], b as [|q]; try exact I.
  cbn [Js.add]. rewrite !half_Num. unfold num_eq. field.
Qed.

Lemma half_sum_proper (a a' b b' : number) :
  num_eq a a' -> num_eq b b' ->
  num_eq (Js.div (Js.add a b) two) (Js.div (Js.add a' b') two).
Proof.
  destruct a as [|p], a' as [|p'], b as [|q], b' as [|q'];
    try contradiction; try exact (fun _ _ => I).
  cbn [Js.add]. rewrite !half_Num. unfold num_eq.
  intros H1 H2. now rewrite H1, H2.
Qed.

Lemma midpoint_comm (p q : Point2D) : point_eq (midpoint p q) (midpoint q p).
Proof. split; apply half_sum_comm. Qed.

Lemma midpoint_proper (p p' q q' : Point2D) :
  point_eq p p' -> point_eq q q' ->
  point_eq (midpoint p q) (midpoint p' q').
Proof. intros [H1 H2] [H3 H4]. split; now apply half_sum_proper. Qed.

Lemma midpoint_swap (a b c d : Point2D) :
  point_eq a d -> point_eq b c ->
  point_eq (midpoint a b) (midpoint c d).
Proof.
  intros Had Hbc. apply point_eq_trans with (midpoint b a).
  - apply midpoint_comm.
  - now apply midpoint_proper.
Qed.

Lemma halveGeneral_reverse (p1 c1 c2 p2 : Point2D) :
  bezier7_eq (halveGeneral p2 c2 c1 p1) (reverse7 (halveGeneral p1 c1 c2 p2)).
Proof.
  unfold halveGeneral, reverse7, bezier7_eq.
  repeat split; try apply num_eq_refl;
    repeat (apply midpoint_swap); apply point_eq_refl.
Qed.

(** Halving a segment from its other end gives the same seven points in
    the opposite order, whichever control points are present. *)
Theorem halve_reverse (p1 p2 : Point2D) (c1 c2 : option Point2D) :
  bezier7_eq (halveCubicBezier p2 c2 c1 p1)
             (reverse7 (halveCubicBezier p1 c1 c2 p2)).
Proof.
  destruct c1 as [c1|], c2 as [c2|]; cbn [halveCubicBezier].
  - apply halveGeneral_reverse.
  - apply (halveGeneral_reverse p1 c1 p2 p2).
  - apply (halveGeneral_reverse p1 p1 c2 p2).
  - unfold reverse7, bezier7_eq.
    repeat split; try apply num_eq_refl; apply half_sum_comm.
Qed.

(** ** Segments and strokes of an edge *)

Lemma strokeLoop_curve (offsetUnitVector : Point2D) (segment : Segment)
    (c1 c2 : Point2D) (strokeWidths : list number) :
  control1 segment = Some c1 -> control2 segment = Some c2 ->
  forall isSpacing currentOffset stroke,
    In stroke (strokeLoop offsetUnitVector segment strokeWidths isSpacing
                          currentOffset) ->
    exists a b c e, d stroke = CurvePath a b c e.
Proof.
  intros H1 H2.
  induction strokeWidths as [|w rest IH]; intros isSpacing currentOffset stroke;
    [intros []|].
  destruct isSpacing; simpl.
  - intros [<- | Hin]; [|now apply IH in Hin].
    unfold strokeAt. rewrite H1, H2. repeat eexists.
  - intros Hin. now apply IH in Hin.
Qed.

(** An edge with a second metric is drawn as two segments that join at
    element 3 of the halved curve: the first runs from the center of node 1
    and carries the first metric, the second runs to the center of node 2
    and carries the second metric.  Both have their two control points, so
    their paths are curves even when the edge has no bend. *)
Theorem dual_metric_halves_join
    (M : Runtime) (nodeLabelToNode : string -> option Node.t)
    (edge : Edge.t) (node1 node2 : Node.t) :
  nodeLabelToNode (Edge.node1 edge) = Some node1 ->
  nodeLabelToNode (Edge.node2 edge) = Some node2 ->
  truthyString (Edge.metric2Name edge) = true ->
  exists first second,
    placeEdge M nodeLabelToNode edge = [first; second]
    /\ start first = nodeCenter node1
    /\ endPoint first = start second
    /\ endPoint second = nodeCenter node2
    /\ elem 3 (halveCubicBezier
                 (nodeCenter node1)
                 (fst (bendControls M edge (nodeCenter node1) (nodeCenter node2)))
                 (snd (bendControls M edge (nodeCenter node1) (nodeCenter node2)))
                 (nodeCenter node2))
       = Some (endPoint first)
    /\ metricName first = Edge.metricName edge
    /\ metricName second = Edge.metric2Name edge
    /\ edgeStyleName first = Edge.styleName edge
    /\ edgeStyleName second = Edge.styleName edge
    /\ forall state segment stroke,
         In segment [first; second] ->
         In stroke (makeAndPlaceEdge M state segment) ->
         exists a b c e, d stroke = CurvePath a b c e.
Proof.
  intros Hn1 Hn2 Hdual. unfold placeEdge. rewrite Hn1, Hn2, Hdual.
  destruct (bendControls M edge (nodeCenter node1) (nodeCenter node2))
    as [c1 c2].
  cbn [fst snd].
  destruct (halveCubicBezier (nodeCenter node1) c1 c2 (nodeCenter node2))
    as [[[[[[a0 a1] a2] a3] a4] a5] a6] eqn:Hhalve.
  eexists. eexists. split; [reflexivity|]. cbn.
  repeat split; try reflexivity.
  intros state segment stroke [<- | [<- | []]] Hstroke;
    unfold makeAndPlaceEdge in Hstroke;
    eapply strokeLoop_curve in Hstroke; try reflexivity; exact Hstroke.
Qed.

Lemma dual_metric_halves_join_witness :
  exists first second,
    placeEdge coarseMath scenarioNodes
              (Edge.mk "a" "b" None None (Some "in") (Some "out") None)
    = [first; second]
    /\ start first = nodeCenter nodeA
    /\ endPoint first = start second
    /\ endPoint second = nodeCenter nodeB.
Proof.
  destruct (dual_metric_halves_join coarseMath scenarioNodes
              (Edge.mk "a" "b" None None (Some "in") (Some "out") None)
              nodeA nodeB eq_refl eq_refl eq_refl)
    as (first & second & H & H1 & H2 & H3 & _).
  exists first, second. repeat split; assumption.
Defined.

Lemma splitFrom_nonempty (s piece : string) (inRun : bool) :
  splitFrom s piece inRun <> [].
Proof.
  revert piece inRun. induction s as [|c rest IH]; intros piece inRun.
  - discriminate.
  - simpl. destruct (isSeparator c); [destruct inRun|]; try apply IH.
    discriminate.
Qed.

Lemma effectiveStrokeWidths_nonempty (defaultStrokeWidth : number)
    (edgeStyle : option WeathermapStyle) :
  effectiveStrokeWidths defaultStrokeWidth edgeStyle <> [].
Proof.
  unfold effectiveStrokeWidths, doubleIfEven.
  assert (Hparsed : parsedStrokeWidths defaultStrokeWidth edgeStyle <> []).
  { unfold parsedStrokeWidths.
    destruct edgeStyle as [style|]; [|discriminate].
    destruct (strokeWidthArray style) as [pattern|]; [|discriminate].
    destruct (String.eqb pattern ""); [discriminate|].
    intros H. apply map_eq_nil in H.
    now apply (splitFrom_nonempty pattern "" false). }
  destruct (parsedStrokeWidths defaultStrokeWidth edgeStyle) as [|w rest];
    [congruence|].
  destruct (negb _); discriminate.
Qed.

Lemma strokeEntries_count (strokeWidths : list number) :
  List.length (strokeEntries strokeWidths)
  = Nat.div2 (S (List.length strokeWidths)).
Proof.
  induction strokeWidths as [| w | w g rest IH] using list_pair_ind.
  - reflexivity.
  - reflexivity.
  - cbn [strokeEntries List.length Nat.div2]. now rewrite IH.
Qed.

(** Every call of [makeAndPlaceEdge] appends at least one path: the width
    pattern is never empty, whatever the style says, and the paths are the
    pattern's entries at even indices, half of its entries rounded up. *)
Theorem edge_always_drawn
    (M : Runtime) (state : WeathermapRendererState) (segment : Segment) :
  let strokeWidths :=
    effectiveStrokeWidths (configStrokeWidth state)
                          (getWeathermapStyle state (edgeStyleName segment)) in
  makeAndPlaceEdge M state segment <> []
  /\ map strokeWidth (makeAndPlaceEdge M state segment)
     = strokeEntries strokeWidths
  /\ List.length (makeAndPlaceEdge M state segment)
     = Nat.div2 (S (List.length strokeWidths)).
Proof.
  intros strokeWidths.
  assert (Hwidths : map strokeWidth (makeAndPlaceEdge M state segment)
                    = strokeEntries strokeWidths).
  { unfold makeAndPlaceEdge. apply strokeLoop_widths. }
  assert (Hne : strokeWidths <> [])
    by apply effectiveStrokeWidths_nonempty.
  split; [|split; [exact Hwidths|]].
  - intros Hnil. rewrite Hnil in Hwidths.
    destruct strokeWidths; [congruence | discriminate Hwidths].
  - rewrite <- (length_map strokeWidth), Hwidths. apply strokeEntries_count.
Qed.

Lemma sumQ_app (front back : list Q) :
  sumQ (front ++ back) == sumQ front + sumQ back.
Proof.
  induction front as [|w rest IH]; simpl; [ring|]. rewrite IH. ring.
Qed.

Lemma offsetAfter_finite (offset : Q) (widths : list Q) :
  exists after,
    offsetAfter (Num offset) (map Num widths) = Num after
    /\ after == offset + sumQ widths.
Proof. apply fold_add_finite. Qed.

(** A pattern of odd length spans its total width exactly: the first
    stroke's outer edge is at minus half the total and the last stroke's
    outer edge at plus half the total, so the strokes of a pattern such as
    [2 1 2] sit evenly about the segment. *)
Theorem odd_pattern_spans_total
    (offsetUnitVector : Point2D) (segment : Segment) (widths : list Q)
    (m : nat) :
  List.length widths = (2 * m + 1)%nat ->
  let strokes :=
    strokeLoop offsetUnitVector segment (map Num widths) true
               (initialOffset (map Num widths)) in
  exists w0 wl c0 cl,
    nth_error widths 0 = Some w0
    /\ nth_error widths (2 * m) = Some wl
    /\ nth_error strokes 0
       = Some (strokeAt offsetUnitVector segment (Num c0) (Num w0))
    /\ nth_error strokes m
       = Some (strokeAt offsetUnitVector segment (Num cl) (Num wl))
    /\ List.length strokes = S m
    /\ c0 - w0 / 2 == - sumQ widths / 2
    /\ cl + wl / 2 == sumQ widths / 2.
Proof.
  intros Hlen strokes.
  destruct (initialOffset_finite widths) as (offset & Hoffset & Hoff).
  destruct (nth_error widths 0) as [w0|] eqn:H0.
  2: { apply nth_error_None in H0. lia. }
  destruct (nth_error widths (2 * m)) as [wl|] eqn:Hl.
  2: { apply nth_error_None in Hl. lia. }
  assert (Hsplit : widths = (firstn (2 * m) widths ++ [wl])%list).
  { rewrite <- (firstn_skipn (2 * m) widths) at 1. f_equal.
    pose proof (nth_error_split widths (2 * m) Hl) as (l1 & l2 & Heq & Hl1).
    rewrite Heq. rewrite <- Hl1, skipn_app, skipn_all, Nat.sub_diag. simpl.
    f_equal. destruct l2 as [|extra l2]; [reflexivity|].
    rewrite Heq, length_app in Hlen. simpl in Hlen. lia. }
  destruct (offsetAfter_finite offset (firstn (2 * m) widths))
    as (before & Hbefore & Hbefore_eq).
  exists w0, wl, (offset + w0 / 2), (before + wl / 2).
  split; [reflexivity|]. split; [reflexivity|].
  split; [|split; [|split; [|split]]].
  - subst strokes. rewrite strokeLoop_nth, Hoffset.
    change (2 * 0)%nat with 0%nat.
    rewrite nth_error_map, H0. reflexivity.
  - subst strokes. rewrite strokeLoop_nth, Hoffset.
    rewrite nth_error_map, Hl, firstn_map, Hbefore. reflexivity.
  - subst strokes. rewrite <- (length_map strokeWidth), strokeLoop_widths.
    rewrite strokeEntries_count, length_map, Hlen.
    replace (S (2 * m + 1)) with (2 * S m)%nat by lia.
    apply Nat.div2_double.
  - rewrite Hoff. field.
  - assert (Hsum : sumQ widths == sumQ (firstn (2 * m) widths) + wl).
    { rewrite Hsplit at 1. rewrite sumQ_app. simpl. ring. }
    rewrite Hbefore_eq, Hoff, Hsum. field.
Qed.

Lemma odd_pattern_spans_total_witness :
  exists w0 wl c0 cl,
    nth_error (strokeLoop (mkPoint (Num 0) (Num 1)) (scenarioSegment None)
                          (map Num [2; 1; 2]) true
                          (initialOffset (map Num [2; 1; 2]))) 0
    = Some (strokeAt (mkPoint (Num 0) (Num 1)) (scenarioSegment None)
                     (Num c0) (Num w0))
    /\ nth_error (strokeLoop (mkPoint (Num 0) (Num 1)) (scenarioSegment None)
                             (map Num [2; 1; 2]) true
                             (initialOffset (map Num [2; 1; 2]))) 1
       = Some (strokeAt (mkPoint (Num 0) (Num 1)) (scenarioSegment None)
                        (Num cl) (Num wl))
    /\ c0 - w0 / 2 == - sumQ [2; 1; 2] / 2
    /\ cl + wl / 2 == sumQ [2; 1; 2] / 2.
Proof.
  destruct (odd_pattern_spans_total (mkPoint (Num 0) (Num 1))
              (scenarioSegment None) [2; 1; 2] 1 eq_refl)
    as (w0 & wl & c0 & cl & _ & _ & H0 & Hl & _ & Hc0 & Hcl).
  exists w0, wl, c0, cl. repeat split; assumption.
Defined.

(** ** Width patterns as text *)

Lemma separatorFree_cons (c : ascii) (s : string) :
  separatorFree (String c s) <-> isSeparator c = false /\ separatorFree s.
Proof.
  unfold separatorFree. split.
  - intros H. split.
    + apply (H 0%nat). reflexivity.
    + intros i c' Hget. apply (H (S i)). exact Hget.
  - intros [Hc Hs] i c' Hget. destruct i as [|i].
    + simpl in Hget. injection Hget as <-. exact Hc.
    + apply (Hs i). exact Hget.
Qed.

Lemma append_assoc (a b c : string) : (a ++ b) ++ c = a ++ (b ++ c).
Proof. induction a as [|ch a IH]; simpl; [reflexivity | now rewrite IH]. Qed.

Lemma append_empty_r (a : string) : a ++ "" = a.
Proof. induction a as [|ch a IH]; simpl; [reflexivity | now rewrite IH]. Qed.

(** Reading a token: its characters join the piece in progress. *)
Lemma splitFrom_token (token : string) :
  forall rest piece inRun c,
    separatorFree (String c token) ->
    splitFrom (String c token ++ rest) piece inRun
    = splitFrom rest (piece ++ String c token) false.
Proof.
  induction token as [|c' token IH]; intros rest piece inRun c Hfree.
  - apply separatorFree_cons in Hfree. destruct Hfree as [Hc _].
    simpl. now rewrite Hc.
  - apply separatorFree_cons in Hfree. destruct Hfree as [Hc Hrest].
    change (String c (String c' token) ++ rest)
      with (String c (String c' token ++ rest)).
    cbn [splitFrom]. rewrite Hc, (IH rest _ false c' Hrest).
    now rewrite append_assoc.
Qed.

(** Reading a run of separators after a piece ends the piece. *)
Lemma splitFrom_run (run : string) :
  forall rest piece,
    (forall i c, String.get i run = Some c -> isSeparator c = true) ->
    splitFrom (run ++ rest) piece true = splitFrom rest piece true.
Proof.
  induction run as [|c run IH]; intros rest piece Hrun; [reflexivity|].
  simpl. rewrite (Hrun 0%nat c eq_refl).
  apply IH. intros i c' Hget. apply (Hrun (S i)). exact Hget.
Qed.

Lemma splitFrom_separator (c : ascii) (run rest piece : string) :
  isSeparator c = true ->
  (forall i c', String.get i run = Some c' -> isSeparator c' = true) ->
  splitFrom (String c run ++ rest) piece false
  = piece :: splitFrom rest "" true.
Proof.
  intros Hc Hrun. simpl. rewrite Hc. f_equal. now apply splitFrom_run.
Qed.

Lemma splitFrom_tokens (c : ascii) (run : string) (tokens : list string) :
  isSeparator c = true ->
  (forall i c', String.get i run = Some c' -> isSeparator c' = true) ->
  Forall (fun token => token <> "" /\ separatorFree token) tokens ->
  forall piece inRun token,
    token <> "" -> separatorFree token ->
    splitFrom (String.concat (String c run) (token :: tokens)) piece inRun
    = (piece ++ token) :: tokens.
Proof.
  intros Hc Hrun Htokens.
  induction Htokens as [|next tokens [Hne Hfree] _ IH];
    intros piece inRun token Htoken Hfree'.
  - destruct token as [|ch token]; [congruence|].
    cbn [String.concat]. rewrite <- (append_empty_r (String ch token)) at 1.
    rewrite (splitFrom_token token "" piece inRun ch Hfree'). reflexivity.
  - destruct token as [|ch token]; [congruence|].
    change (String.concat (String c run) (String ch token :: next :: tokens))
      with (String ch token
            ++ (String c run ++ String.concat (String c run) (next :: tokens))).
    rewrite (splitFrom_token token _ piece inRun ch Hfree').
    rewrite (splitFrom_separator c run _ _ Hc Hrun).
    f_equal. apply (IH "" true next Hne Hfree).
Qed.

(** Splitting a pattern never gives an empty list, and it gives back the
    tokens of a pattern written as non-empty tokens without spaces or
    commas, joined by any run of spaces and commas: as many widths are
    parsed as there are tokens. *)
Theorem split_recovers_tokens
    (c : ascii) (run : string) (token : string) (tokens : list string)
    (pattern : string) :
  splitSeparators pattern <> []
  /\ (isSeparator c = true ->
      (forall i c', String.get i run = Some c' -> isSeparator c' = true) ->
      Forall (fun t => t <> "" /\ separatorFree t) (token :: tokens) ->
      splitSeparators (String.concat (String c run) (token :: tokens))
      = token :: tokens
      /\ List.length
           (parsedStrokeWidths (Num 4)
              (Some (mkStyle "style"
                       (Some (String.concat (String c run) (token :: tokens)))
                       None)))
         = S (List.length tokens)).
Proof.
  split; [apply splitFrom_nonempty|].
  intros Hc Hrun Htokens. inversion Htokens as [|t ts [Hne Hfree] Hrest]; subst.
  assert (Hsplit : splitSeparators (String.concat (String c run) (token :: tokens))
                   = token :: tokens).
  { unfold splitSeparators.
    now rewrite (splitFrom_tokens c run tokens Hc Hrun Hrest "" false token). }
  split; [exact Hsplit|].
  unfold parsedStrokeWidths. cbn [strokeWidthArray].
  destruct (String.eqb _ "") eqn:Hempty.
  - apply String.eqb_eq in Hempty.
    unfold splitSeparators in Hsplit. rewrite Hempty in Hsplit.
    simpl in Hsplit. injection Hsplit as Htok _. congruence.
  - fold (splitSeparators (String.concat (String c run) (token :: tokens))).
    rewrite Hsplit. now rewrite length_map.
Qed.

Lemma separatorFree_empty : separatorFree "".
Proof. intros i c H. destruct i; discriminate H. Qed.

Ltac separator_free :=
  repeat (apply separatorFree_cons; split; [reflexivity|]);
  apply separatorFree_empty.

Lemma split_recovers_tokens_witness :
  splitSeparators (String.concat ", " ["2"; "1.5"; "2"]) = ["2"; "1.5"; "2"].
Proof.
  apply (proj2 (split_recovers_tokens "," " " "2" ["1.5"; "2"] "")).
  - reflexivity.
  - intros i c' H. destruct i as [|i]; [|destruct i; discriminate H].
    injection H as <-. reflexivity.
  - repeat constructor; try discriminate; separator_free.
Defined.

(** ** Links *)

Lemma hasChar_app (c : ascii) (a b : string) :
  hasChar c (a ++ b) = (hasChar c a || hasChar c b)%bool.
Proof.
  induction a as [|ch a IH]; [reflexivity|].
  simpl. rewrite IH. now rewrite orb_assoc.
Qed.

(** An object is linked exactly when there is a base address.  Its
    parameters, when it has any, come after the base and one separator:
    [?] when the base has no [?] yet, [&] otherwise; so what precedes the
    parameters always has a [?], and a base without one gets exactly the
    one that is added. *)
Theorem link_parameters_follow_query (base params : string) :
  maybeWrapIntoLink None (Some params) = Direct
  /\ maybeWrapIntoLink (Some base) None = Linked base
  /\ exists separator,
       maybeWrapIntoLink (Some base) (Some params)
       = Linked ((base ++ String separator "") ++ params)
       /\ hasChar "?" (base ++ String separator "") = true
       /\ (hasChar "?" base = false -> separator = "?"%char)
       /\ (hasChar "?" base = true -> separator = "&"%char)
       /\ (hasChar "?" base = false -> hasChar "?" params = false ->
           forall front back,
             (base ++ String separator "") ++ params
             = front ++ String "?" back ->
             hasChar "?" front = false ->
             front = base /\ back = params).
Proof.
  split; [reflexivity|]. split; [reflexivity|].
  unfold maybeWrapIntoLink, objLinkUri.
  destruct (hasChar "?" base) eqn:Hbase.
  - exists "&"%char. split; [reflexivity|].
    split; [rewrite hasChar_app, Hbase; reflexivity|].
    split; [discriminate|]. split; [reflexivity|]. discriminate.
  - exists "?"%char. split; [reflexivity|].
    split; [rewrite hasChar_app, Hbase; reflexivity|].
    split; [reflexivity|]. split; [discriminate|].
    intros _ _ front back Heq Hfront.
    revert front Heq Hfront.
    induction base as [|ch base IH]; intros front Heq Hfront.
    + destruct front as [|fc front].
      * simpl in Heq. injection Heq as Hback. now split.
      * simpl in Heq. injection Heq as Hc _. subst fc.
        simpl in Hfront. discriminate Hfront.
    + simpl in Hbase. apply orb_false_iff in Hbase. destruct Hbase as [Hch Hb].
      destruct front as [|fc front].
      * simpl in Heq. injection Heq as Hc _. subst ch.
        simpl in Hch. discriminate Hch.
      * simpl in Heq. injection Heq as Hc Hrest. subst fc.
        simpl in Hfront. apply orb_false_iff in Hfront.
        destruct (IH Hb front Hrest (proj2 Hfront)) as [-> ->].
        now split.
Qed.

(** ** Styles of elements *)







Lemma getKey_storeKey_same (key value : string) (mapping : StringMapping) :
  getKey key (storeKey key value mapping) = Some value.
Proof.
  induction mapping as [|[k v] rest IH]; simpl.
  - now rewrite String.eqb_refl.
  - destruct (String.eqb k key) eqn:E; simpl; now rewrite E.
Qed.

Lemma getKey_storeKey_other (key other value : string)
    (mapping : StringMapping) :
  other <> key ->
  getKey other (storeKey key value mapping) = getKey other mapping.
Proof.
  intros Hne. induction mapping as [|[k v] rest IH]; simpl.
  - destruct (String.eqb key other) eqn:E; [|reflexivity].
    apply String.eqb_eq in E. congruence.
  - destruct (String.eqb k key) eqn:E; simpl.
    + apply String.eqb_eq in E. subst k.
      destruct (String.eqb key other) eqn:E'; [|reflexivity].
      apply String.eqb_eq in E'. congruence.
    + now rewrite IH.
Qed.

Lemma getKey_setKey_same (key value : string) (mapping : StringMapping) :
  key <> "__proto__" ->
  getKey key (setKey key value mapping) = Some value.
Proof.
  intros Hkey. unfold setKey.
  destruct (String.eqb key "__proto__") eqn:E;
    [apply String.eqb_eq in E; contradiction|].
  apply getKey_storeKey_same.
Qed.

Lemma getKey_setKey_other (key other value : string) (mapping : StringMapping) :
  other <> key ->
  getKey other (setKey key value mapping) = getKey other mapping.
Proof.
  intros Hne. unfold setKey.
  destruct (String.eqb key "__proto__"); [reflexivity|].
  now apply getKey_storeKey_other.
Qed.

Lemma getKey_deleteKey_same (key : string) (mapping : StringMapping) :
  getKey key (deleteKey key mapping) = None.
Proof.
  induction mapping as [|[k v] rest IH]; simpl; [reflexivity|].
  destruct (String.eqb k key) eqn:E; [exact IH|]. simpl. now rewrite E.
Qed.

Lemma getKey_deleteKey_other (key other : string) (mapping : StringMapping) :
  other <> key ->
  getKey other (deleteKey key mapping) = getKey other mapping.
Proof.
  intros Hne. induction mapping as [|[k v] rest IH]; simpl; [reflexivity|].
  destruct (String.eqb k key) eqn:E; simpl.
  - apply String.eqb_eq in E. subst k.
    destruct (String.eqb key other) eqn:E'; [|exact IH].
    apply String.eqb_eq in E'. congruence.
  - now rewrite IH.
Qed.

Lemma getKey_absent (key : string) (mapping : StringMapping) :
  getKey key mapping = None <-> ~ In key (map fst mapping).
Proof.
  induction mapping as [|[k v] rest IH]; simpl; [tauto|].
  destruct (String.eqb k key) eqn:E.
  - apply String.eqb_eq in E. split; [discriminate | intros H; exfalso; auto].
  - apply String.eqb_neq in E. rewrite IH. tauto.
Qed.









(** *** The order of the properties *)














(** *** Reading a written style *)

(** The step of the first loop of [modifyStyle]. *)
Local Abbreviation styleStep :=
  (fun (assembledStyle : StringMapping) (chunk : string) =>
     match cutAt ":" chunk with
     | Some (key, value) => setKey key value assembledStyle
     | None => assembledStyle
     end).













Lemma getKey_applyNewValues (key : string)
    (newValues : list (string * option string)) :
  key <> "__proto__" ->
  forall assembled,
    getKey key (applyNewValues newValues assembled)
    = match newValueFor key newValues with
      | Some (Some value) => Some value
      | Some None => None
      | None => getKey key assembled
      end.
Proof.
  intros Hkey. unfold applyNewValues.
  induction newValues as [|[k value] rest IH]; intros assembled; [reflexivity|].
  cbn [fold_left newValueFor fst snd]. rewrite IH.
  destruct (newValueFor key rest) as [later|]; [reflexivity|].
  destruct (String.eqb k key) eqn:E.
  - apply String.eqb_eq in E. subst k. destruct value as [value|].
    + now apply getKey_setKey_same.
    + apply getKey_deleteKey_same.
  - apply String.eqb_neq in E. destruct value as [value|].
    + apply getKey_setKey_other. congruence.
    + apply getKey_deleteKey_other. congruence.
Qed.


Lemma newValueFor_absent (key : string)
    (newValues : list (string * option string)) :
  ~ In key (map fst newValues) -> newValueFor key newValues = None.
Proof.
  induction newValues as [|[k value] rest IH]; intros Hnot; [reflexivity|].
  cbn [newValueFor fst snd]. rewrite IH.
  - destruct (String.eqb k key) eqn:E; [|reflexivity].
    apply String.eqb_eq in E. exfalso. apply Hnot. now left.
  - intros Hin. apply Hnot. now right.
Qed.

Lemma hidden_In (keys : list string) :
  hasOwnPropertyHidden keys = true <-> In "hasOwnProperty" keys.
Proof.
  unfold hasOwnPropertyHidden. rewrite existsb_exists. split.
  - intros (key & Hin & Heq). apply String.eqb_eq in Heq. now subst key.
  - intros Hin. exists "hasOwnProperty". split; [exact Hin | reflexivity].
Qed.

Lemma hidden_getKey (mapping : StringMapping) :
  hasOwnPropertyHidden (map fst mapping) = false
  <-> getKey "hasOwnProperty" mapping = None.
Proof.
  rewrite getKey_absent, <- hidden_In.
  destruct (hasOwnPropertyHidden (map fst mapping)); split; congruence.
Qed.







(** X29.  [modifyStyle] ends by throwing exactly when the new values or
    the style attribute of the element hold the key [hasOwnProperty]: the
    property hides the method of that name that the loops call.  In every
    other case it returns. *)
Theorem modifyStyle_throws (style : option string)
    (newValues : list (string * option string)) :
  modifyStyle style newValues = Throws
  <-> In "hasOwnProperty" (map fst newValues)
      \/ getKey "hasOwnProperty" (styleOfAttribute style) <> None.
Proof.
  unfold modifyStyle. fold (styleOfAttribute style).
  destruct (hasOwnPropertyHidden (map fst newValues)) eqn:Hnew.
  - apply hidden_In in Hnew. split; [now left | reflexivity].
  - assert (Hnot : ~ In "hasOwnProperty" (map fst newValues)).
    { intros Hin. apply hidden_In in Hin. congruence. }
    assert (Hget : getKey "hasOwnProperty"
                     (applyNewValues newValues (styleOfAttribute style))
                   = getKey "hasOwnProperty" (styleOfAttribute style)).
    { rewrite getKey_applyNewValues by discriminate.
      now rewrite (newValueFor_absent _ _ Hnot). }
    destruct (hasOwnPropertyHidden
                (map fst (applyNewValues newValues (styleOfAttribute style))))
      eqn:Hhidden.
    + split; [|reflexivity]. intros _. right. rewrite <- Hget.
      intros Hnone. apply hidden_getKey in Hnone. congruence.
    + apply hidden_getKey in Hhidden. split; [discriminate|].
      intros [Hin | Hstyle]; [contradiction|].
      rewrite <- Hget in Hstyle. contradiction.
Qed.

(** ** The legend *)

Lemma tiles_from (a b : number) (rects : list Rect) (to : number) :
  num_eq a b -> tiles b rects to -> tiles a rects to.
Proof.
  intros Hab. destruct rects as [|rect rest]; simpl.
  - apply num_eq_trans. exact Hab.
  - intros [Hx Hrest]. split; [|exact Hrest].
    eapply num_eq_trans; [exact Hx|]. now apply num_eq_sym.
Qed.

Lemma sub_add_back (a b : number) :
  isNumber a = true -> isNumber b = true ->
  num_eq (Js.add a (Js.sub b a)) b.
Proof.
  destruct a as [|p], b as [|q]; try discriminate. intros _ _. simpl. ring.
Qed.

Lemma stepRects_tiles (colorType : ColorType) (rest : list GradientStop) :
  forall first,
    numericPositions (first :: rest) = true ->
    let lastStop := last (first :: rest) first in
    tiles (position first)
          (stepRects (first :: rest) colorType
           ++ [mkRect (position lastStop) (Num 0)
                      (Js.sub (Num 100) (position lastStop)) legendWidth
                      (stopColor lastStop colorType)])
          (Num 100).
Proof.
  induction rest as [|next rest IH]; intros first Hnum.
  - cbn [numericPositions forallb] in Hnum.
    apply andb_true_iff in Hnum. destruct Hnum as [Hfirst _].
    cbn [last stepRects app tiles rectX rectWidth]. split.
    + apply num_eq_refl.
    + apply sub_add_back; [exact Hfirst | reflexivity].
  - cbn zeta. rewrite last_cons.
    assert (Hrest : numericPositions (next :: rest) = true).
    { unfold numericPositions in *. cbn [forallb] in *.
      apply andb_true_iff in Hnum. tauto. }
    assert (Hfirst : isNumber (position first) = true).
    { unfold numericPositions in Hnum. cbn [forallb] in Hnum.
      apply andb_true_iff in Hnum. tauto. }
    assert (Hnext : isNumber (position next) = true).
    { unfold numericPositions in Hrest. cbn [forallb] in Hrest.
      apply andb_true_iff in Hrest. tauto. }
    change (stepRects (first :: next :: rest) colorType)
      with (mkRect (position first) (Num 0)
                   (Js.sub (position next) (position first)) legendWidth
                   (stopColor first colorType)
            :: stepRects (next :: rest) colorType).
    cbn [app tiles rectX rectWidth]. split; [apply num_eq_refl|].
    apply tiles_from with (position next).
    + now apply sub_add_back.
    + apply (IH next Hrest).
Qed.

Lemma stepRects_fills (colorType : ColorType) (rest : list GradientStop) :
  forall first,
    (map rectFill (stepRects (first :: rest) colorType)
     ++ [stopColor (last (first :: rest) first) colorType])%list
    = map (fun stop => stopColor stop colorType) (first :: rest).
Proof.
  induction rest as [|next rest IH]; intros first; [reflexivity|].
  rewrite last_cons.
  change (stepRects (first :: next :: rest) colorType)
    with (mkRect (position first) (Num 0)
                 (Js.sub (position next) (position first)) legendWidth
                 (stopColor first colorType)
          :: stepRects (next :: rest) colorType).
  cbn [map app rectFill]. f_equal. apply IH.
Qed.

Lemma stepRects_rows (colorType : ColorType) (stops : list GradientStop) :
  Forall (fun rect => rectY rect = Num 0 /\ rectHeight rect = legendWidth)
         (stepRects stops colorType).
Proof.
  induction stops as [|first rest IH]; [constructor|].
  destruct rest as [|next rest]; [constructor|].
  change (stepRects (first :: next :: rest) colorType)
    with (mkRect (position first) (Num 0)
                 (Js.sub (position next) (position first)) legendWidth
                 (stopColor first colorType)
          :: stepRects (next :: rest) colorType).
  constructor; [split; reflexivity | exact IH].
Qed.


Lemma drawLegend_steps (first : GradientStop) (rest : list GradientStop)
    (colorType : ColorType) (weathermapID : option string) :
  drawLegend (mkGradient "steps" (first :: rest)) colorType weathermapID
  = let lastStop := last (first :: rest) first in
    Returns
      (mkDrawing []
         (stepRects (first :: rest) colorType
          ++ [mkRect (position lastStop) (Num 0)
                     (Js.sub (Num 100) (position lastStop)) legendWidth
                     (stopColor lastStop colorType)])).
Proof. reflexivity. Qed.

(** The legend of a stepped gradient whose stops have numbers as
    positions: one rectangle for each stop, filled with the stop's colour,
    all in one row of the legend's width; the first begins at the first
    stop's position, each next one where the one before ends, and the
    last ends at 100. *)
Theorem stepped_legend_tiles
    (first : GradientStop) (rest : list GradientStop)
    (colorType : ColorType) (weathermapID : option string) :
  numericPositions (first :: rest) = true ->
  exists drawing,
    drawLegend (mkGradient "steps" (first :: rest)) colorType weathermapID
    = Returns drawing
    /\ gradientDefs drawing = []
    /\ map rectFill (rects drawing)
       = map (fun stop => stopColor stop colorType) (first :: rest)
    /\ tiles (position first) (rects drawing) (Num 100)
    /\ Forall (fun rect => rectY rect = Num 0
                           /\ rectHeight rect = legendWidth)
              (rects drawing).
Proof.
  intros Hnum. rewrite drawLegend_steps. cbn zeta.
  eexists. split; [reflexivity|]. cbn [gradientDefs rects].
  split; [reflexivity|]. split; [|split].
  - rewrite map_app. cbn [map rectFill]. apply stepRects_fills.
  - apply (stepRects_tiles colorType rest first Hnum).
  - apply Forall_app. split; [apply stepRects_rows|].
    constructor; [split; reflexivity | constructor].
Qed.

Lemma stepped_legend_tiles_witness :
  exists drawing,
    drawLegend (mkGradient "steps" redThenGreen) StrokeColor None
    = Returns drawing
    /\ gradientDefs drawing = []
    /\ map rectFill (rects drawing)
       = map (fun stop => stopColor stop StrokeColor) redThenGreen
    /\ tiles (position (hd (mkStop NaN "" "" false) redThenGreen))
             (rects drawing) (Num 100)
    /\ Forall (fun rect => rectY rect = Num 0
                           /\ rectHeight rect = legendWidth)
              (rects drawing).
Proof.
  apply (stepped_legend_tiles (hd (mkStop NaN "" "" false) redThenGreen)
                              (tl redThenGreen) StrokeColor None).
  reflexivity.
Defined.

Lemma drawLegend_throws (gradient : Gradient) (colorType : ColorType)
    (weathermapID : option string) :
  drawLegend gradient colorType weathermapID = Throws
  <-> type gradient = "steps" /\ stops gradient = [].
Proof.
  unfold drawLegend.
  destruct (String.eqb (type gradient) "linear") eqn:Hlinear.
  - apply String.eqb_eq in Hlinear. split; [discriminate|].
    intros [Hsteps _]. rewrite Hsteps in Hlinear. discriminate Hlinear.
  - destruct (String.eqb (type gradient) "steps") eqn:Hsteps.
    + apply String.eqb_eq in Hsteps.
      destruct (stops gradient) as [|first rest].
      * split; [now intros _ | reflexivity].
      * split; [discriminate|]. intros [_ H]. discriminate H.
    + apply String.eqb_neq in Hsteps. split; [discriminate|].
      intros [H _]. contradiction.
Qed.

(** [placeLegend] ends by throwing in one case only: a legend is asked
    for and the gradient is a stepped one without stops.  Without a
    legend, or with a linear gradient or one of another type, it returns,
    also when there are no stops. *)
Theorem legend_throws_only_without_steps
    (settings : LegendSettings.t) (gradient : Gradient)
    (weathermapID : option string) :
  placeLegend settings gradient weathermapID = Throws
  <-> LegendSettings.type settings <> ""
      /\ type gradient = "steps" /\ stops gradient = [].
Proof.
  unfold placeLegend.
  destruct (String.eqb (LegendSettings.type settings) "") eqn:Hnone.
  - apply String.eqb_eq in Hnone. split; [discriminate|].
    intros [H _]. contradiction.
  - apply String.eqb_neq in Hnone.
    destruct (drawLegend gradient StrokeColor weathermapID)
      as [strokeDrawing|] eqn:Hstroke.
    + destruct (drawLegend gradient FillColor weathermapID)
        as [fillDrawing|] eqn:Hfill.
      * split; [discriminate|]. intros [_ H].
        apply (drawLegend_throws gradient StrokeColor weathermapID) in H.
        rewrite Hstroke in H. discriminate H.
      * split; [|reflexivity]. intros _. split; [exact Hnone|].
        now apply (drawLegend_throws gradient FillColor weathermapID).
    + split; [|reflexivity]. intros _. split; [exact Hnone|].
      now apply (drawLegend_throws gradient StrokeColor weathermapID).
Qed.




Lemma scaled_along (offset position length : number) :
  num_eq (Js.add offset (Js.div (Js.mul position length) legendLength))
         (Js.add offset (Js.mul position (Js.div length legendLength))).
Proof.
  destruct offset as [|o], position as [|p], length as [|l];
    try exact I.
  unfold legendLength. cbn [Js.add Js.mul Js.div].
  change (Qeq_bool 100 0) with false. cbn iota. cbn [Js.add Js.mul num_eq].
  field.
Qed.

Lemma scaled_down (offset position length : number) :
  num_eq (Js.add offset
                 (Js.sub length
                         (Js.div (Js.mul position length) legendLength)))
         (Js.sub (Js.add offset length)
                 (Js.mul position (Js.div length legendLength))).
Proof.
  destruct offset as [|o], position as [|p], length as [|l];
    try exact I.
  unfold legendLength. cbn [Js.add Js.sub Js.mul Js.div].
  change (Qeq_bool 100 0) with false. cbn iota.
  cbn [Js.add Js.sub Js.mul num_eq]. field.
Qed.

Lemma scaled_across (offset width : number) :
  num_eq (Js.add offset width)
         (Js.add offset (Js.mul legendWidth (Js.div width legendWidth))).
Proof.
  destruct offset as [|o], width as [|w]; try exact I.
  unfold legendWidth. cbn [Js.add Js.mul Js.div].
  change (Qeq_bool 5 0) with false. cbn iota. cbn [Js.add Js.mul num_eq].
  field.
Qed.

(** A label of the legend stands for a stop that asks for one and shows
    the stop's position; along the legend it sits where the transform of
    the legend puts that position: at the translation plus the position
    times the scale for a horizontal legend, at the translation minus the
    position times the scale for a vertical one. *)
Theorem legend_labels_aligned
    (settings : LegendSettings.t) (gradient : Gradient)
    (transform : Transform) (label : LegendLabel) :
  strokeLegendTransform settings = Some transform ->
  In label (placeLabels settings gradient) ->
  exists stop,
    In stop (stops gradient) /\ showLegendLabel stop = true
    /\ labelText label = position stop
    /\ if rotated transform
       then num_eq (labelY label)
                   (Js.sub (translateY transform)
                           (Js.mul (position stop) (scaleX transform)))
       else num_eq (labelX label)
                   (Js.add (translateX transform)
                           (Js.mul (position stop) (scaleX transform))).
Proof.
  intros Htransform Hlabel. unfold placeLabels in Hlabel.
  destruct (String.eqb (LegendSettings.type settings) ""
            || typeCharIs settings 1 "n")%bool; [destruct Hlabel|].
  apply in_map_iff in Hlabel. destruct Hlabel as (stop & <- & Hstop).
  apply filter_In in Hstop. destruct Hstop as [Hin Hshow].
  exists stop. split; [exact Hin|]. split; [exact Hshow|].
  unfold strokeLegendTransform, legendScale in Htransform.
  unfold legendLabel.
  destruct (typeCharIs settings 0 "h").
  - injection Htransform as <-. cbn [rotated translateX scaleX].
    destruct (String.eqb (LegendSettings.type settings) "hb");
      cbn [labelText labelX]; (split; [reflexivity | apply scaled_along]).
  - destruct (typeCharIs settings 0 "v"); [|discriminate Htransform].
    injection Htransform as <-. cbn [rotated translateY scaleX].
    destruct (String.eqb (LegendSettings.type settings) "vl");
      [|destruct (String.eqb (LegendSettings.type settings) "vr")];
      cbn [labelText labelY]; (split; [reflexivity | apply scaled_down]).
Qed.

Lemma legend_labels_aligned_witness :
  exists stop,
    In stop redThenGreen /\ showLegendLabel stop = true
    /\ labelText
         (legendLabel
            (LegendSettings.mk "vr" (Num 10) (Num 20) (Num 200) (Num 10))
            (hd (mkStop NaN "" "" false) redThenGreen))
       = position stop
    /\ num_eq
         (labelY
            (legendLabel
               (LegendSettings.mk "vr" (Num 10) (Num 20) (Num 200) (Num 10))
               (hd (mkStop NaN "" "" false) redThenGreen)))
         (Js.sub (Num 220) (Js.mul (position stop) (Num (200 / 100)))).
Proof.
  apply (legend_labels_aligned
           (LegendSettings.mk "vr" (Num 10) (Num 20) (Num 200) (Num 10))
           (mkGradient "steps" redThenGreen)
           (mkTransform (Num 10) (Num 220) true (Num (200 / 100))
                        (Num (10 / 5)))).
  - reflexivity.
  - left. reflexivity.
Defined.

(** The legend of the fill colours lies right beside the legend of the
    stroke colours: it has the same rotation and scale, and it is moved
    across the legend by the height of the legend's rectangles as the
    scale draws them. *)
Theorem fill_legend_adjacent
    (settings : LegendSettings.t) (strokeTransform : Transform) :
  strokeLegendTransform settings = Some strokeTransform ->
  exists fillTransform,
    fillLegendTransform settings = Some fillTransform
    /\ rotated fillTransform = rotated strokeTransform
    /\ scaleX fillTransform = scaleX strokeTransform
    /\ scaleY fillTransform = scaleY strokeTransform
    /\ if rotated strokeTransform
       then translateY fillTransform = translateY strokeTransform
            /\ num_eq (translateX fillTransform)
                      (Js.add (translateX strokeTransform)
                              (Js.mul legendWidth (scaleY strokeTransform)))
       else translateX fillTransform = translateX strokeTransform
            /\ num_eq (translateY fillTransform)
                      (Js.add (translateY strokeTransform)
                              (Js.mul legendWidth (scaleY strokeTransform))).
Proof.
  unfold strokeLegendTransform, fillLegendTransform, legendScale.
  destruct (typeCharIs settings 0 "h").
  - intros H. injection H as <-. eexists. split; [reflexivity|].
    cbn [rotated scaleX scaleY translateX translateY].
    repeat split. apply scaled_across.
  - destruct (typeCharIs settings 0 "v"); [|discriminate].
    intros H. injection H as <-. eexists. split; [reflexivity|].
    cbn [rotated scaleX scaleY translateX translateY].
    repeat split. apply scaled_across.
Qed.

Lemma fill_legend_adjacent_witness :
  exists fillTransform,
    fillLegendTransform
      (LegendSettings.mk "hb" (Num 10) (Num 20) (Num 200) (Num 10))
    = Some fillTransform
    /\ rotated fillTransform = false
    /\ scaleX fillTransform = Num (200 / 100)
    /\ scaleY fillTransform = Num (10 / 5)
    /\ translateX fillTransform = Num 10
    /\ num_eq (translateY fillTransform)
              (Js.add (Num 20) (Js.mul legendWidth (Num (10 / 5)))).
Proof.
  apply (fill_legend_adjacent
           (LegendSettings.mk "hb" (Num 10) (Num 20) (Num 200) (Num 10))
           (mkTransform (Num 10) (Num 20) false (Num (200 / 100))
                        (Num (10 / 5)))).
  reflexivity.
Defined.

Lemma append_same_start (start a b : string) :
  (start ++ a = start ++ b)%string -> a = b.
Proof.
  induction start as [|c start IH]; [trivial|].
  simpl. intros H. injection H as H. exact (IH H).
Qed.

Lemma legendGradientName_injective
    (colorType1 colorType2 : ColorType) (id1 id2 : option string) :
  legendGradientName colorType1 id1 = legendGradientName colorType2 id2 ->
  colorType1 = colorType2 /\ id1 = id2.
Proof.
  unfold legendGradientName.
  destruct colorType1, colorType2, id1 as [id1|], id2 as [id2|];
    cbn [colorTypeName]; intros H;
    try (split; reflexivity);
    cbn [append] in H;
    try (apply (append_same_start "WeathermapLegendGradient-") in H;
         injection H as H;
         repeat match type of H with
                | String _ _ = String _ _ => injection H as H
                end;
         try discriminate H; now subst).
Qed.

(** The id of a legend's gradient definition tells weathermaps and colour
    types apart: two legends share an id only when they are for the same
    colour type and the same weathermap id (or both for none). *)
Theorem legend_gradient_names_distinct
    (colorType1 colorType2 : ColorType) (id1 id2 : option string) :
  (colorType1, id1) <> (colorType2, id2) ->
  legendGradientName colorType1 id1 <> legendGradientName colorType2 id2.
Proof.
  intros Hdiff Hsame. apply Hdiff.
  destruct (legendGradientName_injective _ _ _ _ Hsame) as [-> ->].
  reflexivity.
Qed.

Lemma legend_gradient_names_distinct_witness :
  legendGradientName StrokeColor (Some "7")
  <> legendGradientName FillColor (Some "7")
  /\ legendGradientName StrokeColor (Some "7")
     <> legendGradientName StrokeColor (Some "71").
Proof.
  split.
  - apply (legend_gradient_names_distinct StrokeColor FillColor
             (Some "7") (Some "7")).
    discriminate.
  - apply (legend_gradient_names_distinct StrokeColor StrokeColor
             (Some "7") (Some "71")).
    discriminate.
Defined.
